(** * EnterMedSchool glossary: the term matcher and the pattern classifier

  A shallow embedding of
  - the term matcher (content/term-matcher.js): the classes [AhoCorasick]
    and [TermMatcher];
  - the shared constants (shared/constants.js): [EXCLUDED_PATTERNS];
  - the index loader (bundled in background/service-worker.js):
    [shouldBeCaseSensitive], the class [GlossaryIndex] and the functions
    that load terms into it;
  - the highlighter (content/highlighter.js): [createHighlightedFragment];
  followed by the properties of the specification that concern them, and
  by further properties of the code.

  JavaScript strings are sequences of UTF-16 code units; node objects live
  in an arena and are referred to by their address, the root at address 0.
  The built-ins [String.prototype.toLowerCase], [toUpperCase] and [trim]
  are parameters of the development, and so is the list
  [BETA_TERM_LEVELS], which the matcher imports and the constants do not
  declare. Loops that the source leaves unbounded run on fuel and return
  [None] when it runs out; the properties show that it never does. *)

From Stdlib Require Import ZArith String Ascii Lia.
From stdpp Require Import base list option numbers sorting.

Set Default Proof Using "Type".

(** ** JavaScript values *)

Module JS.

(** A string is the list of its UTF-16 code units. *)
Abbreviation jsstring := (list Z).

(** An ASCII literal as a JavaScript string. *)
Definition js (s : string) : jsstring :=
  map (fun c => Z.of_N (N_of_ascii c)) (list_ascii_of_string s).

Definition isLeadSurrogate (c : Z) : bool := (55296 <=? c)%Z && (c <=? 56319)%Z.
Definition isTrailSurrogate (c : Z) : bool := (56320 <=? c)%Z && (c <=? 57343)%Z.

(** [for (const char of s)]: the string iterator yields one string per
    code point, a surrogate pair as one string of two units. *)
Fixpoint codePoints (s : jsstring) : list jsstring :=
  match s with
  | [] => []
  | c :: rest =>
      match rest with
      | d :: rest' =>
          if isLeadSurrogate c && isTrailSurrogate d
          then [c; d] :: codePoints rest'
          else [c] :: codePoints rest
      | [] => [[c]]
      end
  end.

(** [s[i]]: the one-unit string at index [i], [undefined] out of range. *)
Definition charAt (s : jsstring) (i : Z) : option jsstring :=
  if (i <? 0)%Z then None else (fun c => [c]) <$> s !! Z.to_nat i.

(** [s.slice(from, to)]: a negative index counts from the end, and both are
    clamped to the string. *)
Definition slice_index (len i : Z) : Z :=
  if (i <? 0)%Z then Z.max (len + i) 0 else Z.min i len.

Definition slice (s : jsstring) (from to : Z) : jsstring :=
  let len := Z.of_nat (length s) in
  let f := slice_index len from in
  let t := slice_index len to in
  take (Z.to_nat (t - f)) (drop (Z.to_nat f) s).

(** The values a dynamically typed argument can hold: the primitives, the
    numbers among them restricted to the integers. *)
Inductive jsval :=
| VUndefined
| VNull
| VBool (b : bool)
| VNum (n : Z)
| VStr (s : jsstring).

#[export] Instance jsval_eq_dec : EqDecision jsval.
Proof. solve_decision. Defined.

(** ToBoolean. *)
Definition truthy (v : jsval) : bool :=
  match v with
  | VUndefined | VNull => false
  | VBool b => b
  | VNum n => negb (n =? 0)%Z
  | VStr s => negb (bool_decide (s = []))
  end.

(** The outcome of a call that may throw. *)
Inductive result (A : Type) :=
| Ok (a : A)
| TypeError.
Arguments Ok {A} a.
Arguments TypeError {A}.

(** [toLowerCase] restricted to ASCII: on strings of ASCII code units it
    agrees with [String.prototype.toLowerCase]. *)
Definition ascii_lower_unit (c : Z) : Z :=
  if (65 <=? c)%Z && (c <=? 90)%Z then (c + 32)%Z else c.
Definition ascii_toLowerCase (s : jsstring) : jsstring := map ascii_lower_unit s.

Definition ascii_upper_unit (c : Z) : Z :=
  if (97 <=? c)%Z && (c <=? 122)%Z then (c - 32)%Z else c.
Definition ascii_toUpperCase (s : jsstring) : jsstring := map ascii_upper_unit s.

End JS.
Import JS.

(** ** [AhoCorasick] (term-matcher.js) *)

Module AC.

(** [class AhoCorasickNode]; [children] is a [Map] in insertion order,
    [fail] and the children are addresses of nodes. *)
Record AhoCorasickNode := mkNode {
  children : list (jsstring * nat);
  fail : option nat;
  output : list jsstring;
  depth : nat
}.

Definition new_AhoCorasickNode : AhoCorasickNode :=
  {| children := []; fail := None; output := []; depth := 0 |}.

#[export] Instance AhoCorasickNode_inhabited : Inhabited AhoCorasickNode :=
  populate new_AhoCorasickNode.

(** [class AhoCorasick]: the arena of its nodes and the [_built] flag. *)
Record AhoCorasick := mkAC {
  nodes : list AhoCorasickNode;
  _built : bool
}.

Definition root : nat := 0.

Definition new_AhoCorasick : AhoCorasick :=
  {| nodes := [new_AhoCorasickNode]; _built := false |}.

(** [Map.prototype.get] and [has]. *)
Fixpoint map_get (key : jsstring) (m : list (jsstring * nat)) : option nat :=
  match m with
  | [] => None
  | (k, v) :: m' => if bool_decide (k = key) then Some v else map_get key m'
  end.

Definition map_has (key : jsstring) (m : list (jsstring * nat)) : bool :=
  match map_get key m with Some _ => true | None => false end.

(** [Map.prototype.set]: a present key keeps its place, a new one is
    appended. *)
Fixpoint map_set (key : jsstring) (v : nat) (m : list (jsstring * nat))
  : list (jsstring * nat) :=
  match m with
  | [] => [(key, v)]
  | (k, v') :: m' =>
      if bool_decide (k = key) then (k, v) :: m' else (k, v') :: map_set key v m'
  end.

Definition set_children (i : nat) (cs : list (jsstring * nat))
    (ns : list AhoCorasickNode) : list AhoCorasickNode :=
  <[i := {| children := cs; fail := fail (ns !!! i);
            output := output (ns !!! i); depth := depth (ns !!! i) |}]> ns.

Definition set_fail (i : nat) (f : option nat)
    (ns : list AhoCorasickNode) : list AhoCorasickNode :=
  <[i := {| children := children (ns !!! i); fail := f;
            output := output (ns !!! i); depth := depth (ns !!! i) |}]> ns.

Definition set_output (i : nat) (o : list jsstring)
    (ns : list AhoCorasickNode) : list AhoCorasickNode :=
  <[i := {| children := children (ns !!! i); fail := fail (ns !!! i);
            output := o; depth := depth (ns !!! i) |}]> ns.

Section WithLowerCase.

Variable toLowerCase : jsstring -> jsstring.

(** The loop of [addPattern]: one edge per element of the iteration. Where
    the key is present [get] returns its node, the default is never used. *)
Fixpoint addPattern_walk (chars : list jsstring) (node : nat)
    (ns : list AhoCorasickNode) : nat * list AhoCorasickNode :=
  match chars with
  | [] => (node, ns)
  | char :: chars' =>
      if map_has char (children (ns !!! node)) then
        addPattern_walk chars' (default root (map_get char (children (ns !!! node)))) ns
      else
        let newNode := length ns in
        let ns1 := ns ++ [ {| children := []; fail := None; output := [];
                              depth := depth (ns !!! node) + 1 |} ] in
        let ns2 := set_children node
                     (map_set char newNode (children (ns1 !!! node))) ns1 in
        addPattern_walk chars' newNode ns2
  end.

(** [addPattern(pattern)] for a string argument. *)
Definition addPattern (pattern : jsstring) (a : AhoCorasick) : AhoCorasick :=
  if bool_decide (pattern = []) then a
  else
    let lowerPattern := toLowerCase pattern in
    let '(node, ns) := addPattern_walk (codePoints lowerPattern) root (nodes a) in
    {| nodes := set_output node (output (ns !!! node) ++ [lowerPattern]) ns;
       _built := false |}.

(** [addPattern(pattern)] for any argument: a falsy one returns at the
    guard, a truthy one that is no string has no [toLowerCase]. *)
Definition addPattern_any (pattern : jsval) (a : AhoCorasick) : result AhoCorasick :=
  if negb (truthy pattern) then Ok a
  else match pattern with
       | VStr s => Ok (addPattern s a)
       | _ => TypeError
       end.

Definition addPatterns (patterns : list jsstring) (a : AhoCorasick) : AhoCorasick :=
  foldl (fun a p => addPattern p a) a patterns.

(** [while (node && !node.children.has(char)) node = node.fail].
    [None]: the fuel ran out; [Some None]: the loop ended on [null]. *)
Fixpoint follow_fail (fuel : nat) (ns : list AhoCorasickNode) (char : jsstring)
    (node : option nat) : option (option nat) :=
  match node with
  | None => Some None
  | Some n =>
      if map_has char (children (ns !!! n)) then Some (Some n)
      else match fuel with
           | 0 => None
           | S fuel' => follow_fail fuel' ns char (fail (ns !!! n))
           end
  end.

(** The first loop of [build]: the children of the root. *)
Fixpoint build_depth1 (cs : list (jsstring * nat)) (queue : list nat)
    (ns : list AhoCorasickNode) : list nat * list AhoCorasickNode :=
  match cs with
  | [] => (queue, ns)
  | (_, child) :: cs' =>
      build_depth1 cs' (queue ++ [child]) (set_fail child (Some root) ns)
  end.

(** The body of the inner [for] of [build], after [queue.push(child)]. *)
Definition build_link (current : nat) (char : jsstring) (child : nat)
    (ns : list AhoCorasickNode) : option (list AhoCorasickNode) :=
  f ← follow_fail (length ns) ns char (fail (ns !!! current));
  let target := match f with
                | Some fl => map_get char (children (ns !!! fl))
                | None => Some root
                end in
  let target := default root target in
  let ns1 := set_fail child (Some target) ns in
  Some (set_output child (output (ns1 !!! child) ++ output (ns1 !!! target)) ns1).

Fixpoint build_children (current : nat) (cs : list (jsstring * nat))
    (queue : list nat) (ns : list AhoCorasickNode)
  : option (list nat * list AhoCorasickNode) :=
  match cs with
  | [] => Some (queue, ns)
  | (char, child) :: cs' =>
      ns' ← build_link current char child ns;
      build_children current cs' (queue ++ [child]) ns'
  end.

(** [while (queue.length > 0)]. *)
Fixpoint build_bfs (fuel : nat) (queue : list nat) (ns : list AhoCorasickNode)
  : option (list AhoCorasickNode) :=
  match queue with
  | [] => Some ns
  | current :: rest =>
      match fuel with
      | 0 => None
      | S fuel' =>
          qn ← build_children current (children (ns !!! current)) rest ns;
          build_bfs fuel' qn.1 qn.2
      end
  end.

Definition build (a : AhoCorasick) : option AhoCorasick :=
  if _built a then Some a
  else
    let qn := build_depth1 (children (nodes a !!! root)) [] (nodes a) in
    ns ← build_bfs (length (nodes a)) qn.1 qn.2;
    Some {| nodes := ns; _built := true |}.

(** A raw hit [{start, end, pattern}]. *)
Record RawMatch := mkRaw {
  start : Z;
  end_ : Z;
  pattern : jsstring
}.

(** [for (const pattern of node.output) results.push(...)] at index [i]. *)
Definition report (i : nat) (out : list jsstring) : list RawMatch :=
  map (fun p => {| start := Z.of_nat i - Z.of_nat (length p) + 1;
                   end_ := Z.of_nat i + 1; pattern := p |}) out.

(** The [for] loop of [search], from index [i] on; [rest] holds the code
    units of [lowerText] from [i], and [lowerText[i]] is the string of the
    one unit [c]. *)
Fixpoint search_loop (ns : list AhoCorasickNode) (rest : jsstring) (i : nat)
    (node : nat) (results : list RawMatch) : option (list RawMatch) :=
  match rest with
  | [] => Some results
  | c :: rest' =>
      f ← follow_fail (length ns) ns [c] (Some node);
      match f with
      | None => search_loop ns rest' (S i) root results
      | Some n =>
          let node' := default root (map_get [c] (children (ns !!! n))) in
          search_loop ns rest' (S i) node'
            (results ++ report i (output (ns !!! node')))
      end
  end.

(** [search(text)]: the hits and the automaton, which the call has built
    where it was not (a built automaton is returned by [build] as it is). *)
Definition search (text : jsstring) (a : AhoCorasick)
  : option (list RawMatch * AhoCorasick) :=
  a' ← build a;
  r ← search_loop (nodes a') (toLowerCase text) 0 root [];
  Some (r, a').

End WithLowerCase.

End AC.

(** ** Constants (shared/constants.js) *)

Definition EXCLUDED_PATTERNS : list jsstring :=
  map js ["an"; "as"; "be"; "he"; "is"]%string.

(** ** [TermMatcher] (term-matcher.js) *)

Module TM.
Import AC.

(** The value of a property read from a plain object: a number of the
    literal, or a member inherited from [Object.prototype], which is
    identified by its name. *)
Inductive propval :=
| PNum (n : Z)
| PInherited (name : jsstring).

#[export] Instance propval_eq_dec : EqDecision propval.
Proof. solve_decision. Defined.

(** The property names every plain object inherits. *)
Definition Object_prototype_names : list jsstring :=
  map js ["constructor"; "__defineGetter__"; "__defineSetter__";
          "hasOwnProperty"; "__lookupGetter__"; "__lookupSetter__";
          "isPrototypeOf"; "propertyIsEnumerable"; "toString"; "valueOf";
          "__proto__"; "toLocaleString"]%string.

(** [LEVEL_HIERARCHY[key]], [None] for [undefined]. *)
Definition LEVEL_HIERARCHY (key : jsstring) : option propval :=
  if bool_decide (key = js "premed") then Some (PNum 0)
  else if bool_decide (key = js "medschool") then Some (PNum 1)
  else if bool_decide (key = js "all") then Some (PNum 2)
  else if bool_decide (key ∈ Object_prototype_names) then Some (PInherited key)
  else None.

(** What [this.index.terms] holds for a term: only [level] is read;
    [None] is [undefined]. *)
Record TermMeta := mkTermMeta {
  level : option jsstring
}.

(** [{ isCaseSensitive, originalCase }]; [originalCase] may be [null]. *)
Record PatternMeta := mkPatternMeta {
  isCaseSensitive : bool;
  originalCase : option jsstring
}.

(** The index object handed to the constructor, as the matcher uses it:
    three methods and the optional [terms] map. *)
Record TermIndex := mkIndex {
  getAllPatterns : list jsstring;
  getTermIdsForPattern : jsstring -> option (list jsstring);
  getPatternMetadata : jsstring -> option PatternMeta;
  terms : option (jsstring -> option TermMeta)
}.

Record TermMatcher := mkMatcher {
  index : TermIndex;
  automaton : AhoCorasick;
  _initialized : bool;
  userLevel : jsval;
  enableBetaFeatures : bool
}.

(** An accepted hit [{ start, end, pattern, termIds }]. *)
Record ValidMatch := mkValid {
  v_start : Z;
  v_end : Z;
  v_pattern : jsstring;
  v_termIds : list jsstring
}.

(** A returned match [{ start, end, termIds }]. *)
Record Match := mkMatch {
  m_start : Z;
  m_end : Z;
  m_termIds : list jsstring
}.

(** [new TermMatcher(index)]. *)
Definition createTermMatcher (idx : TermIndex) : TermMatcher :=
  {| index := idx; automaton := new_AhoCorasick; _initialized := false;
     userLevel := VStr (js "medschool"); enableBetaFeatures := false |}.

(** [this.userLevel = level || 'medschool']. *)
Definition setUserLevel (lvl : jsval) (m : TermMatcher) : TermMatcher :=
  {| index := index m; automaton := automaton m; _initialized := _initialized m;
     userLevel := if truthy lvl then lvl else VStr (js "medschool");
     enableBetaFeatures := enableBetaFeatures m |}.

Definition setBetaFeatures (enabled : bool) (m : TermMatcher) : TermMatcher :=
  {| index := index m; automaton := automaton m; _initialized := _initialized m;
     userLevel := userLevel m; enableBetaFeatures := enabled |}.

Definition set_automaton (a : AhoCorasick) (init : bool) (m : TermMatcher) : TermMatcher :=
  {| index := index m; automaton := a; _initialized := init;
     userLevel := userLevel m; enableBetaFeatures := enableBetaFeatures m |}.

Definition is_ascii_alnum (c : Z) : bool :=
  ((97 <=? c)%Z && (c <=? 122)%Z) || ((65 <=? c)%Z && (c <=? 90)%Z)
  || ((48 <=? c)%Z && (c <=? 57)%Z).

(** [/[a-zA-Z0-9]/.test(char)]; an [undefined] argument is tested as the
    string "undefined". *)
Definition _isWordChar (char : option jsstring) : bool :=
  existsb is_ascii_alnum (default (js "undefined") char).

Definition _isWordBoundaryMatch (text : jsstring) (start end_ : Z) : bool :=
  if (0 <? start)%Z && _isWordChar (charAt text (start - 1)) then false
  else if (end_ <? Z.of_nat (length text))%Z && _isWordChar (charAt text end_) then false
  else true.

(** The comparator of the sort in [_removeOverlaps]. *)
Definition compareMatches (a b : ValidMatch) : Z :=
  if bool_decide (v_start a ≠ v_start b) then (v_start a - v_start b)%Z
  else ((v_end b - v_start b) - (v_end a - v_start a))%Z.

(** [Array.prototype.sort(cmp)] is stable; with a consistent comparator its
    result is the one stable ordering, computed here by insertion. *)
Fixpoint sort_insert {A} (cmp : A -> A -> Z) (x : A) (l : list A) : list A :=
  match l with
  | [] => [x]
  | y :: l' => if (cmp x y <=? 0)%Z then x :: y :: l' else y :: sort_insert cmp x l'
  end.

Definition sort {A} (cmp : A -> A -> Z) (l : list A) : list A :=
  foldr (sort_insert cmp) [] l.

(** The loop of [_removeOverlaps] over the sorted matches. *)
Fixpoint removeOverlaps_loop (sorted : list ValidMatch) (lastEnd : Z)
    (result : list ValidMatch) : list ValidMatch :=
  match sorted with
  | [] => result
  | m :: sorted' =>
      if (v_start m <? lastEnd)%Z then removeOverlaps_loop sorted' lastEnd result
      else removeOverlaps_loop sorted' (v_end m) (result ++ [m])
  end.

Definition _removeOverlaps (matches : list ValidMatch) : list ValidMatch :=
  if bool_decide (matches = []) then []
  else removeOverlaps_loop (sort compareMatches matches) (-1) [].

Section WithBuiltins.

Variable toLowerCase : jsstring -> jsstring.

(** [BETA_TERM_LEVELS] is imported from shared/constants.js, which does not
    declare it: the list is a parameter. *)
Variable BETA_TERM_LEVELS : list jsstring.

(** [LEVEL_HIERARCHY[level] ?? 1] for the caller's level, a primitive value.
    A primitive that is no string is read under its string form ('null',
    'true', a numeral), a name the object does not hold: the value is 1.
    [setUserLevel] is documented to take a string but stores any truthy
    value; a level that is an object is outside [jsval] and is not
    modelled: the property access would read it under the string it
    converts to, so that [['all']] would have the value 2. *)
Definition levelValue (lvl : jsval) : propval :=
  match lvl with
  | VStr s => default (PNum 1) (LEVEL_HIERARCHY s)
  | _ => PNum 1
  end.

(** The callback of the [filter] in [_filterByLevel]. *)
Definition keepTerm (m : TermMatcher) (termId : jsstring) : bool :=
  match terms (index m) ≫= (fun get => get termId) with
  | None => true
  | Some termMeta =>
      let termLevel :=
        match level termMeta with
        | Some l => if bool_decide (l = []) then js "medschool" else l
        | None => js "medschool"
        end in
      if bool_decide (termLevel ∈ BETA_TERM_LEVELS) && negb (enableBetaFeatures m)
      then false
      else
        let effectiveLevel :=
          if bool_decide (userLevel m = VStr (js "all")) then VStr (js "medschool")
          else userLevel m in
        let userLevelValue := levelValue effectiveLevel in
        let termLevelValue := default (PNum 1) (LEVEL_HIERARCHY termLevel) in
        if bool_decide (termLevelValue ≠ userLevelValue) then false else true
  end.

Definition _filterByLevel (m : TermMatcher) (termIds : list jsstring) : list jsstring :=
  filter (fun termId => keepTerm m termId = true) termIds.

Definition _isValidCaseMatch (m : TermMatcher) (text : jsstring) (start end_ : Z)
    (pattern : jsstring) : bool :=
  match getPatternMetadata (index m) pattern with
  | None => true
  | Some patternMeta =>
      if negb (isCaseSensitive patternMeta) then true
      else match originalCase patternMeta with
           | None => true
           | Some oc =>
               if bool_decide (oc = []) then true
               else bool_decide (slice text start end_ = oc)
           end
  end.

(** The body of the loop of [findTerms] over the raw hits: the accepted hit,
    or [None] where the loop continues without pushing. *)
Definition accept (m : TermMatcher) (text : jsstring) (r : RawMatch) : option ValidMatch :=
  if bool_decide (pattern r ∈ EXCLUDED_PATTERNS) then None
  else if negb (_isWordBoundaryMatch text (start r) (end_ r)) then None
  else if negb (_isValidCaseMatch m text (start r) (end_ r) (pattern r)) then None
  else
    match getTermIdsForPattern (index m) (pattern r) with
    | Some (t :: ts) =>
        let filteredTermIds := _filterByLevel m (t :: ts) in
        if bool_decide (filteredTermIds = []) then None
        else Some {| v_start := start r; v_end := end_ r; v_pattern := pattern r;
                     v_termIds := filteredTermIds |}
    | _ => None
    end.

Definition validMatches (m : TermMatcher) (text : jsstring) (raw : list RawMatch)
  : list ValidMatch :=
  omap (accept m text) raw.

Definition initialize (m : TermMatcher) : option TermMatcher :=
  if _initialized m then Some m
  else
    a ← build (addPatterns toLowerCase (getAllPatterns (index m)) (automaton m));
    Some (set_automaton a true m).

Definition toOutput (v : ValidMatch) : Match :=
  {| m_start := v_start v; m_end := v_end v; m_termIds := v_termIds v |}.

(** [findTerms(text)]: the matches and the matcher, which the call may have
    initialized. *)
Definition findTerms (text : jsstring) (m : TermMatcher)
  : option (list Match * TermMatcher) :=
  m1 ← initialize m;
  if bool_decide (text = []) then Some ([], m1)
  else
    ra ← search toLowerCase text (automaton m1);
    let m2 := set_automaton ra.2 (_initialized m1) m1 in
    if bool_decide (ra.1 = []) then Some ([], m2)
    else Some (map toOutput (_removeOverlaps (validMatches m2 text ra.1)), m2).

(** [getTermIdsAtPosition(text, position)]. *)
Definition getTermIdsAtPosition (text : jsstring) (position : Z) (m : TermMatcher)
  : option (option (list jsstring) * TermMatcher) :=
  rm ← findTerms text m;
  Some (m_termIds <$> find (fun x => (m_start x <=? position)%Z && (position <? m_end x)%Z) rm.1,
        rm.2).

End WithBuiltins.

End TM.

(** ** [shouldBeCaseSensitive] (the index loader) *)

Module IndexLoader.
Import TM.

(** [/[A-Z]/.test(s)]. *)
Definition test_A_Z (s : jsstring) : bool :=
  existsb (fun c => (65 <=? c)%Z && (c <=? 90)%Z) s.

(** [/^[a-z]+$/.test(s)]. *)
Definition test_all_a_z (s : jsstring) : bool :=
  negb (bool_decide (s = [])) && forallb (fun c => (97 <=? c)%Z && (c <=? 122)%Z) s.

(** The [Set] built inside the function. *)
Definition commonWords : list jsstring :=
  map js ["the"; "and"; "but"; "for"; "not"; "you"; "all"; "can"; "had";
          "her"; "was"; "one"; "our"; "out"; "are"; "has"; "his"; "how";
          "its"; "may"; "new"; "now"; "old"; "see"; "way"; "who"; "boy";
          "did"; "get"; "let"; "put"; "say"; "she"; "too"; "use"; "red";
          "flu"; "arm"; "leg"; "ear"; "eye"; "jaw"; "lip"; "rib"; "gum";
          "fat"; "gut"; "hip"; "toe"; "wet"; "dry"; "hot"; "raw"; "old"]%string.

Definition notCaseSensitive : PatternMeta :=
  {| isCaseSensitive := false; originalCase := None |}.

Definition caseSensitive (required : jsstring) : PatternMeta :=
  {| isCaseSensitive := true; originalCase := Some required |}.

Section WithBuiltins.

Variable toLowerCase toUpperCase trim : jsstring -> jsstring.

(** The function as written: early returns, the sentence-case test nested
    in the mixed-case test and falling through when it holds.
    [originalStripped[0].toUpperCase()] throws on an empty string. *)
Definition shouldBeCaseSensitive (pattern original : jsstring) (isFromAbbr : bool)
  : result PatternMeta :=
  let normalized := trim (toLowerCase pattern) in
  let originalStripped := trim original in
  let shortAlpha :=
    if (2 <=? length normalized) && (length normalized <=? 4)
       && test_all_a_z normalized
    then
      if negb (bool_decide (normalized ∈ commonWords))
      then Ok (caseSensitive (toUpperCase normalized))
      else Ok notCaseSensitive
    else Ok notCaseSensitive in
  if bool_decide (normalized ∈ EXCLUDED_PATTERNS) then Ok notCaseSensitive
  else if isFromAbbr && (length normalized <=? 6)
  then Ok (caseSensitive (toUpperCase originalStripped))
  else if (length normalized <=? 4)
          && bool_decide (originalStripped = toUpperCase originalStripped)
  then Ok (caseSensitive originalStripped)
  else if (length normalized <=? 6) && test_A_Z originalStripped
  then
    match originalStripped with
    | [] => TypeError
    | c :: rest =>
        if negb (bool_decide ([c] = toUpperCase [c])
                 && bool_decide (rest = toLowerCase rest))
        then Ok (caseSensitive originalStripped)
        else shortAlpha
    end
  else shortAlpha.

(** The cascade in the words of the specification (section 4.2), over the
    normalized pattern and the original form. *)
Definition entirelyUppercase (s : jsstring) : bool :=
  bool_decide (s = toUpperCase s).

Definition containsUppercaseLetter (s : jsstring) : bool := test_A_Z s.

Definition sentenceCase (s : jsstring) : bool :=
  match s with
  | [] => false
  | c :: rest => bool_decide ([c] = toUpperCase [c]) && bool_decide (rest = toLowerCase rest)
  end.

Definition onlyLowercaseLetters (s : jsstring) : bool := test_all_a_z s.

Definition classify_spec (normalized original : jsstring) (isFromAbbr : bool)
  : PatternMeta :=
  let len := length normalized in
  if bool_decide (normalized ∈ EXCLUDED_PATTERNS) then notCaseSensitive
  else if isFromAbbr && (len <=? 6) then caseSensitive (toUpperCase original)
  else if (len <=? 4) && entirelyUppercase original then caseSensitive original
  else if (len <=? 6) && containsUppercaseLetter original && negb (sentenceCase original)
  then caseSensitive original
  else if (2 <=? len) && (len <=? 4) && onlyLowercaseLetters normalized
          && negb (bool_decide (normalized ∈ commonWords))
  then caseSensitive (toUpperCase normalized)
  else notCaseSensitive.

End WithBuiltins.

End IndexLoader.

(** ** Invariants of the automaton *)

Module Inv.
Import AC.

(** The trie: [path j] is the sequence of edge labels from the root to the
    node at address [j]. Edges lead to later addresses, every node but the
    root has a parent, no two nodes share a path, and a fail link leads to
    a node of smaller depth. *)
Record trie_inv (path : nat -> list jsstring) (ns : list AhoCorasickNode) : Prop := mk_trie_inv {
  ti_nonempty : 0 < length ns;
  ti_root : path 0 = [];
  ti_child : forall j k c, j < length ns -> (k, c) ∈ children (ns !!! j) ->
     j < c < length ns /\ path c = path j ++ [k];
  ti_parent : forall c, 0 < c < length ns ->
     exists j k, j < c /\ (k, c) ∈ children (ns !!! j);
  ti_inj : forall i j, i < length ns -> j < length ns -> path i = path j -> i = j;
  ti_keys : forall j, j < length ns -> NoDup (children (ns !!! j)).*1;
  ti_depth : forall j, j < length ns -> depth (ns !!! j) = length (path j);
  ti_fail : forall j f, j < length ns -> fail (ns !!! j) = Some f ->
     f < length ns /\ depth (ns !!! f) < depth (ns !!! j)
}.

(** Two arenas with the same edges and depths. *)
Definition same_shape (ns ns' : list AhoCorasickNode) : Prop :=
  length ns' = length ns /\
  forall j, children (ns' !!! j) = children (ns !!! j) /\
            depth (ns' !!! j) = depth (ns !!! j).

Definition extend (ns : list AhoCorasickNode) (node : nat) (char : jsstring) :=
  let ns1 := ns ++ [ {| children := []; fail := None; output := [];
                        depth := depth (ns !!! node) + 1 |} ] in
  set_children node (map_set char (length ns) (children (ns1 !!! node))) ns1.

(** What [build] leaves untouched: edges, depths, and the patterns already
    in the outputs. *)
Definition grows (ns ns' : list AhoCorasickNode) : Prop :=
  same_shape ns ns' /\
  (forall j p, p ∈ output (ns !!! j) -> p ∈ output (ns' !!! j)) /\
  (forall j p, p ∈ output (ns' !!! j) -> exists j', p ∈ output (ns !!! j')).

(** The state of the breadth-first loop as far as termination needs it:
    no node is queued twice, and every queued node is a child of the root or
    of a node already taken from the queue. *)
Definition bfs_inv (path : nat -> list jsstring) (ns0 : list AhoCorasickNode)
    (popped queue : list nat) (ns : list AhoCorasickNode) : Prop :=
  trie_inv path ns /\ grows ns0 ns /\ NoDup (popped ++ queue) /\
  forall x, x ∈ popped ++ queue ->
    exists j k, j < length ns0 /\ (k, x) ∈ children (ns0 !!! j) /\ (j = 0 \/ j ∈ popped).

Definition ac_inv (a : AhoCorasick) : Prop :=
  exists path, trie_inv path (nodes a).

Definition outputs_nonempty (ns : list AhoCorasickNode) : Prop :=
  forall j p, p ∈ output (ns !!! j) -> p <> [].


Section WithLowerCase.

Variable toLowerCase : jsstring -> jsstring.

(** The automata a program can hold: a new one, changed by [addPattern] and
    [build] ([search] changes an automaton only by building it). *)
Inductive reachable : AhoCorasick -> Prop :=
| reach_new : reachable new_AhoCorasick
| reach_addPattern a p : reachable a -> reachable (addPattern toLowerCase p a)
| reach_build a a' : reachable a -> build a = Some a' -> reachable a'.

End WithLowerCase.

End Inv.

(** ** Notions used to state the properties of the matcher *)

Module Props.
Import AC Inv TM.

(** A hit is accepted before another in the order of the sort: earlier
    start, or the same start and a span at least as long. *)
Definition sortsBefore (a b : ValidMatch) : Prop :=
  (compareMatches a b <= 0)%Z.

(** The order of the specification (section 4.3) on accepted hits:
    ascending start, then descending span length. It is written with the
    fields of the hits alone, not with the comparator of the code. *)
Definition spec_sortsBefore (a b : ValidMatch) : Prop :=
  (v_start a < v_start b)%Z \/
  (v_start a = v_start b /\ (v_end b - v_start b <= v_end a - v_start a)%Z).

(** [a] ends where [b] starts or before. *)
Definition precedes (a b : Match) : Prop := (m_end a <= m_start b)%Z.

Definition v_precedes (a b : ValidMatch) : Prop := (v_end a <= v_start b)%Z.

Section WithBuiltins.

Variable toLowerCase : jsstring -> jsstring.
Variable BETA_TERM_LEVELS : list jsstring.

(** A matcher whose automaton was only changed through its methods. *)
Definition matcher_ok (m : TermMatcher) : Prop :=
  reachable toLowerCase (automaton m).

(** The hits [findTerms] has accepted when it reaches the overlap
    resolution: the array [validMatches]. *)
Definition candidates (text : jsstring) (m : TermMatcher) : option (list ValidMatch) :=
  m1 ← initialize toLowerCase m;
  if bool_decide (text = []) then Some []
  else
    ra ← search toLowerCase text (automaton m1);
    Some (validMatches BETA_TERM_LEVELS (set_automaton ra.2 (_initialized m1) m1) text ra.1).

(** The level of a term as the filter reads it: 'medschool' when none is
    recorded. *)
Definition recordedLevel (meta : TermMeta) : jsstring :=
  match level meta with
  | Some l => if bool_decide (l = []) then js "medschool" else l
  | None => js "medschool"
  end.

(** [LEVEL_HIERARCHY[lvl] ?? 1], the value the filter compares: what the
    object holds under the name [lvl], inherited members included. *)
Definition tier (lvl : jsstring) : propval := default (PNum 1) (LEVEL_HIERARCHY lvl).

(** The caller's level after 'all' is mapped to 'medschool'. *)
Definition effectiveLevel (m : TermMatcher) : jsval :=
  if bool_decide (userLevel m = VStr (js "all")) then VStr (js "medschool")
  else userLevel m.

(** The callback [keepTerm] read as a proposition, with the values the
    code looks up in [LEVEL_HIERARCHY]. *)
Definition keepTerm_holds (m : TermMatcher) (termId : jsstring) : Prop :=
  match terms (index m) ≫= (fun get => get termId) with
  | None => True
  | Some meta =>
      ~ (recordedLevel meta ∈ BETA_TERM_LEVELS /\ enableBetaFeatures m = false) /\
      tier (recordedLevel meta) = levelValue (effectiveLevel m)
  end.

(** The rule of the specification (section 4.4), in its own words. The
    levels are three ordered tiers, introductory, standard and
    comprehensive: 'premed', 'medschool' and 'all', numbered 0, 1 and 2. A
    level that names none of them counts as the standard tier. *)
Definition spec_tier (lvl : jsstring) : Z :=
  if bool_decide (lvl = js "premed") then 0
  else if bool_decide (lvl = js "medschool") then 1
  else if bool_decide (lvl = js "all") then 2
  else 1.

(** A term with no recorded level has the standard one. *)
Definition spec_termLevel (meta : TermMeta) : jsstring :=
  match level meta with
  | Some l => if bool_decide (l = []) then js "medschool" else l
  | None => js "medschool"
  end.

(** The comprehensive setting of the caller stands for the standard one. *)
Definition spec_callerLevel (callerLevel : jsstring) : jsstring :=
  if bool_decide (callerLevel = js "all") then js "medschool" else callerLevel.

(** A term without metadata is kept. Otherwise its level must not be an
    opt-in level while the flag is off, and its tier must equal the tier of
    the caller. *)
Definition spec_keeps (flag : bool) (callerLevel : jsstring) (meta : option TermMeta)
  : Prop :=
  match meta with
  | None => True
  | Some meta =>
      ~ (spec_termLevel meta ∈ BETA_TERM_LEVELS /\ flag = false) /\
      spec_tier (spec_termLevel meta) = spec_tier (spec_callerLevel callerLevel)
  end.

(** The index [idx] with the level of term [termId] set to [lvl]. *)
Definition with_level (termId lvl : jsstring) (idx : TermIndex) : TermIndex :=
  {| getAllPatterns := getAllPatterns idx;
     getTermIdsForPattern := getTermIdsForPattern idx;
     getPatternMetadata := getPatternMetadata idx;
     terms := Some (fun id => if bool_decide (id = termId)
                              then Some {| level := Some lvl |}
                              else terms idx ≫= (fun get => get id)) |}.

Definition set_index (idx : TermIndex) (m : TermMatcher) : TermMatcher :=
  {| index := idx; automaton := automaton m; _initialized := _initialized m;
     userLevel := userLevel m; enableBetaFeatures := enableBetaFeatures m |}.

(** The three tiers of [LEVEL_HIERARCHY]. *)
Definition knownLevels : list jsstring := map js ["premed"; "medschool"; "all"]%string.

End WithBuiltins.

(** A case-insensitive occurrence: the pattern [p], lowercased, stands in
    the lowercased text at index [i]. *)
Definition occurs_at (toLowerCase : jsstring -> jsstring) (p text : jsstring) (i : nat)
  : Prop :=
  take (length (toLowerCase p)) (drop i (toLowerCase text)) = toLowerCase p.

(** The hit [search] reports for that occurrence. *)
Definition hit_at (toLowerCase : jsstring -> jsstring) (p : jsstring) (i : nat)
  : RawMatch :=
  {| start := Z.of_nat i;
     end_ := Z.of_nat (i + length (toLowerCase p));
     pattern := toLowerCase p |}.

(** No lead surrogate of [s] is followed by a trail surrogate: the string
    iterator yields the code units of [s] one by one. *)
Fixpoint noSurrogatePair (s : jsstring) : bool :=
  match s with
  | c :: rest =>
      match rest with
      | d :: _ => negb (isLeadSurrogate c && isTrailSurrogate d) && noSurrogatePair rest
      | [] => true
      end
  | [] => true
  end.

(** U+1F600, one code point in two code units. *)
Definition grinningFace : jsstring := [55357; 56832]%Z.

(** The word characters of the specification (section 4.3): a Unicode
    letter, a Unicode digit or the underscore; the two Unicode classes are
    left open. *)
Definition spec_isWordChar (isLetter isDigit : Z -> bool) (c : Z) : bool :=
  isLetter c || isDigit c || (c =? 95)%Z.

(** The index of the unit tests of the matcher: two maps, looked up under
    the lowercased pattern, and no [terms]. *)
Definition alist_get {A} (l : list (jsstring * A)) (k : jsstring) : option A :=
  snd <$> find (fun kv => bool_decide (kv.1 = k)) l.

Definition mockIndex : TermIndex :=
  let patterns :=
    [(js "hypertension", [js "hypertension-001"]);
     (js "htn", [js "hypertension-001"]);
     (js "heart failure", [js "heart-failure-001"]);
     (js "chf", [js "heart-failure-001"]);
     (js "as", [js "aortic-stenosis"])] in
  let patternMetadata :=
    [(js "hypertension", {| isCaseSensitive := false; originalCase := None |});
     (js "htn", {| isCaseSensitive := true; originalCase := Some (js "HTN") |});
     (js "heart failure", {| isCaseSensitive := false; originalCase := None |});
     (js "chf", {| isCaseSensitive := true; originalCase := Some (js "CHF") |});
     (js "as", {| isCaseSensitive := false; originalCase := None |})] in
  {| getAllPatterns := patterns.*1;
     getTermIdsForPattern := fun p =>
       Some (default [] (alist_get patterns (ascii_toLowerCase p)));
     getPatternMetadata := fun p => alist_get patternMetadata (ascii_toLowerCase p);
     terms := None |}.

(** The second index of the unit tests: "heart" and "heart failure", no
    metadata. *)
Definition overlappingIndex : TermIndex :=
  let patterns :=
    [(js "heart", [js "heart"]); (js "heart failure", [js "heart-failure"])] in
  {| getAllPatterns := [js "heart failure"; js "heart"];
     getTermIdsForPattern := fun p =>
       Some (default [] (alist_get patterns (ascii_toLowerCase p)));
     getPatternMetadata := fun _ => None;
     terms := None |}.

(** An index with one pattern, its terms and its metadata. *)
Definition singleIndex (p : jsstring) (ids : list jsstring) (meta : option PatternMeta)
    (tm : option (jsstring -> option TermMeta)) : TermIndex :=
  {| getAllPatterns := [p];
     getTermIdsForPattern := fun q => if bool_decide (q = p) then Some ids else Some [];
     getPatternMetadata := fun q => if bool_decide (q = p) then meta else None;
     terms := tm |}.

End Props.

(** ** What the failure links and the merged outputs mean *)

Module Sem.
Import AC Inv.

Definition has_child (ns : list AhoCorasickNode) (j : nat) (char : jsstring) : Prop :=
  map_has char (children (ns !!! j)) = true.

(** The node [j] spells the longest suffix of the word [w] that the trie
    holds. *)
Definition longest_suffix (path : nat -> list jsstring) (ns : list AhoCorasickNode)
    (w : list jsstring) (j : nat) : Prop :=
  j < length ns /\ path j `suffix_of` w /\
  forall g, g < length ns -> path g `suffix_of` w -> length (path g) <= length (path j).

(** The failure link of [j] leads to the longest proper suffix of its path. *)
Definition fail_ok (path : nat -> list jsstring) (ns : list AhoCorasickNode)
    (j : nat) : Prop :=
  exists f, fail (ns !!! j) = Some f /\ longest_suffix path ns (tail (path j)) f.

(** The output of [j] holds what the outputs held in [ns0], before the
    build, at every node but the root whose path is a suffix of the path of
    [j]. *)
Definition out_ok (path : nat -> list jsstring) (ns0 ns : list AhoCorasickNode)
    (j : nat) : Prop :=
  forall g p, 0 < g < length ns -> path g `suffix_of` path j ->
    p ∈ output (ns0 !!! g) -> p ∈ output (ns !!! j).

Definition linked_ok (path : nat -> list jsstring) (ns0 ns : list AhoCorasickNode)
    (j : nat) : Prop :=
  fail_ok path ns j /\ out_ok path ns0 ns j.

(** The state of the breadth-first loop: beyond [bfs_inv], the queued and
    the dequeued nodes are the children of the root and of the dequeued
    nodes, they are linked, and they come in the order of their depths, the
    queue spanning at most two depths. *)
Definition bfs_ok (path : nat -> list jsstring) (ns0 : list AhoCorasickNode)
    (popped queue : list nat) (ns : list AhoCorasickNode) : Prop :=
  bfs_inv path ns0 popped queue ns /\
  fail (ns !!! 0) = None /\
  (forall j k x, j < length ns0 -> (k, x) ∈ children (ns0 !!! j) ->
     j = 0 \/ j ∈ popped -> x ∈ popped ++ queue) /\
  (forall x, x ∈ popped ++ queue -> linked_ok path ns0 ns x) /\
  StronglySorted (fun x y => depth (ns0 !!! x) <= depth (ns0 !!! y)) (popped ++ queue) /\
  (forall x y, x ∈ queue -> y ∈ queue -> depth (ns0 !!! y) <= depth (ns0 !!! x) + 1).

(** The state of the inner loop of [build] over the children of [cur],
    [ns] being the arena when the loop starts and [done] the children
    already linked. *)
Definition link_inv (path : nat -> list jsstring) (ns0 ns : list AhoCorasickNode)
    (done : list (jsstring * nat)) (ns' : list AhoCorasickNode) : Prop :=
  trie_inv path ns' /\ grows ns ns' /\
  (forall x, x ∈ done.*2 -> linked_ok path ns0 ns' x) /\
  (forall x, x ∉ done.*2 -> ns' !!! x = ns !!! x).

(** The string as the sequence of its code units, each a string. *)
Definition units (s : jsstring) : list jsstring := (fun c => [c]) <$> s.

Section WithLowerCase.

Variable toLowerCase : jsstring -> jsstring.

(** The automaton [a] was made by adding the patterns [ps], in this order,
    to a new automaton, with calls of [build] at any point. *)
Inductive built_from : list jsstring -> AhoCorasick -> Prop :=
| bf_new : built_from [] new_AhoCorasick
| bf_addPattern ps a p :
    built_from ps a -> built_from (ps ++ [p]) (addPattern toLowerCase p a)
| bf_build ps a a' : built_from ps a -> build a = Some a' -> built_from ps a'.

(** What holds of an automaton made from [ps]: every pattern stands in the
    output of the node that spells it; and once built, every node but the
    root is linked, and a pattern stands in the output of every node whose
    path ends with it. *)
Definition full_inv (ps : list jsstring) (a : AhoCorasick) : Prop :=
  exists path,
    trie_inv path (nodes a) /\
    fail (nodes a !!! 0) = None /\
    (forall p, p ∈ ps -> p <> [] -> toLowerCase p <> [] ->
       exists g, 0 < g < length (nodes a) /\ path g = codePoints (toLowerCase p) /\
                 toLowerCase p ∈ output (nodes a !!! g)) /\
    (_built a = true ->
       (forall j, 0 < j < length (nodes a) -> fail_ok path (nodes a) j) /\
       (forall p j, p ∈ ps -> p <> [] -> toLowerCase p <> [] -> j < length (nodes a) ->
          codePoints (toLowerCase p) `suffix_of` path j ->
          toLowerCase p ∈ output (nodes a !!! j))).

End WithLowerCase.

End Sem.

(** ** String and array operations used by the index and the highlighter *)

Module StringOps.

(** The class [\s] of a regular expression, which is also what [trim]
    strips: white space and line terminators. *)
Definition isWhiteSpace (c : Z) : bool :=
  bool_decide (c ∈ [9; 10; 11; 12; 13; 32; 160; 5760; 8232; 8233; 8239; 8287;
                    12288; 65279]%Z)
  || ((8192 <=? c)%Z && (c <=? 8202)%Z).

(** [s.replace(/\s+/g, '-')]: every maximal run of white space becomes one
    hyphen; [inRun] tells that the unit before was white space. *)
Fixpoint replace_runs (inRun : bool) (s : jsstring) : jsstring :=
  match s with
  | [] => []
  | c :: rest =>
      if isWhiteSpace c
      then (if inRun then replace_runs true rest else 45%Z :: replace_runs true rest)
      else c :: replace_runs false rest
  end.

Definition replaceWhiteSpace (s : jsstring) : jsstring := replace_runs false s.

(** [s.startsWith(q)] and [s.includes(q)]. *)
Definition startsWith (s q : jsstring) : bool :=
  bool_decide (take (length q) s = q).

Definition includes (s q : jsstring) : bool :=
  existsb (fun i => startsWith (drop i s) q) (seq 0 (S (length s))).

(** [array.slice(from, to)], with the clamping of [String.prototype.slice]. *)
Definition Array_slice {A} (l : list A) (from to : Z) : list A :=
  let len := Z.of_nat (length l) in
  let f := slice_index len from in
  let t := slice_index len to in
  take (Z.to_nat (t - f)) (drop (Z.to_nat f) l).

(** [array.join(sep)] on an array of strings. *)
Fixpoint join (sep : jsstring) (l : list jsstring) : jsstring :=
  match l with
  | [] => []
  | [x] => x
  | x :: rest => x ++ sep ++ join sep rest
  end.

(** [String.prototype.trim] as the language defines it. *)
Fixpoint trimStart (s : jsstring) : jsstring :=
  match s with
  | c :: rest => if isWhiteSpace c then trimStart rest else s
  | [] => []
  end.

Definition trim (s : jsstring) : jsstring :=
  reverse (trimStart (reverse (trimStart s))).

(** [v || d] for a string that may be [undefined]. *)
Definition or_str (v : option jsstring) (d : jsstring) : jsstring :=
  match v with
  | Some s => if bool_decide (s = []) then d else s
  | None => d
  end.

(** A [Map] with string keys, in insertion order. *)
Definition Map (V : Type) : Type := list (jsstring * V).

Fixpoint Map_get {V} (key : jsstring) (m : Map V) : option V :=
  match m with
  | [] => None
  | (k, v) :: m' => if bool_decide (k = key) then Some v else Map_get key m'
  end.

Definition Map_has {V} (key : jsstring) (m : Map V) : bool :=
  match Map_get key m with Some _ => true | None => false end.

(** [Map.prototype.set]: a present key keeps its place. *)
Fixpoint Map_set {V} (key : jsstring) (v : V) (m : Map V) : Map V :=
  match m with
  | [] => [(key, v)]
  | (k, v') :: m' =>
      if bool_decide (k = key) then (k, v) :: m' else (k, v') :: Map_set key v m'
  end.

Definition Map_keys {V} (m : Map V) : list jsstring := m.*1.

End StringOps.

(** ** [createHighlightedFragment] (highlighter.js) *)

Module Highlighter.
Import TM StringOps.

(** The [span] of a highlighted term with what the method sets on it;
    [multi] tells that [classList.add('ems-term--multi')] was called. *)
Record SpanElement := mkSpan {
  className : jsstring;
  dataset_termIds : jsstring;
  role : jsstring;
  tabindex : jsstring;
  aria_label : jsstring;
  aria_haspopup : jsstring;
  span_textContent : jsstring;
  multi : bool
}.

(** A child of the fragment: a text node or a span. *)
Inductive ChildNode :=
| TextNode (data : jsstring)
| Element (e : SpanElement).

Definition createSpan (highlightStyle text : jsstring) (x : Match) : SpanElement :=
  {| className := js "ems-term ems-term--" ++ highlightStyle;
     dataset_termIds := join (js ",") (m_termIds x);
     role := js "button";
     tabindex := js "0";
     aria_label := js "Medical term: " ++ slice text (m_start x) (m_end x)
                   ++ js ". Press Enter for definition.";
     aria_haspopup := js "dialog";
     span_textContent := slice text (m_start x) (m_end x);
     multi := (1 <? length (m_termIds x)) |}.

(** The loop over the matches: the children appended so far and
    [lastIndex]. *)
Fixpoint fragment_loop (highlightStyle text : jsstring) (matches : list Match)
    (lastIndex : Z) (fragment : list ChildNode) : Z * list ChildNode :=
  match matches with
  | [] => (lastIndex, fragment)
  | x :: matches' =>
      let fragment1 :=
        if (lastIndex <? m_start x)%Z
        then fragment ++ [TextNode (slice text lastIndex (m_start x))]
        else fragment in
      fragment_loop highlightStyle text matches' (m_end x)
        (fragment1 ++ [Element (createSpan highlightStyle text x)])
  end.

(** [createHighlightedFragment(text, matches)]: the children of the
    fragment in their order. *)
Definition createHighlightedFragment (highlightStyle text : jsstring)
    (matches : list Match) : list ChildNode :=
  let lf := fragment_loop highlightStyle text matches 0 [] in
  if (lf.1 <? Z.of_nat (length text))%Z
  then lf.2 ++ [TextNode (slice text lf.1 (Z.of_nat (length text)))]
  else lf.2.

(** [Node.textContent] of a child and of the fragment. *)
Definition nodeText (n : ChildNode) : jsstring :=
  match n with
  | TextNode data => data
  | Element e => span_textContent e
  end.

Definition textContent (fragment : list ChildNode) : jsstring :=
  concat (nodeText <$> fragment).

Definition spans (fragment : list ChildNode) : list SpanElement :=
  omap (fun n => match n with Element e => Some e | TextNode _ => None end) fragment.

End Highlighter.

(** ** [GlossaryIndex] and the loading of terms (the index loader) *)

Module Glossary.
Import StringOps.

(** A term of the bundled data; a field that is absent is [None]. *)
Module TermData.
Record t := mk {
  id : option jsstring;
  names : option (list jsstring);
  patterns : option (list jsstring);
  aliases : option (list jsstring);
  abbr : option (list jsstring);
  primary_tag : option jsstring;
  tags : option (list jsstring);
  definition : option jsstring;
  level : option jsstring
}.
End TermData.

(** The metadata [loadTerm] stores for a term. *)
Module Term.
Record t := mk {
  id : jsstring;
  name : jsstring;
  primaryTag : jsstring;
  tags : list jsstring;
  definition : jsstring;
  level : jsstring;
  fullContent : TermData.t
}.
End Term.

Record TagInfo := mkTagInfo {
  accent : jsstring;
  icon : jsstring
}.

(** [class GlossaryIndex]. *)
Record GlossaryIndex := mkGlossaryIndex {
  patterns : Map (list jsstring);
  patternMetadata : Map TM.PatternMeta;
  terms : Map Term.t;
  tags : Map TagInfo;
  allPatterns : list jsstring;
  _loaded : bool
}.

Definition new_GlossaryIndex : GlossaryIndex :=
  {| patterns := []; patternMetadata := []; terms := []; tags := [];
     allPatterns := []; _loaded := false |}.

(** An element of the array [extractPatternsFromTerm] returns. *)
Record Extracted := mkExtracted {
  pattern : jsstring;
  original : jsstring;
  isFromAbbr : bool
}.

Definition set_patterns (ps : Map (list jsstring)) (g : GlossaryIndex) : GlossaryIndex :=
  {| patterns := ps; patternMetadata := patternMetadata g; terms := terms g;
     tags := tags g; allPatterns := allPatterns g; _loaded := _loaded g |}.

Definition set_patternMetadata (pm : Map TM.PatternMeta) (g : GlossaryIndex)
  : GlossaryIndex :=
  {| patterns := patterns g; patternMetadata := pm; terms := terms g;
     tags := tags g; allPatterns := allPatterns g; _loaded := _loaded g |}.

Definition set_terms (ts : Map Term.t) (g : GlossaryIndex) : GlossaryIndex :=
  {| patterns := patterns g; patternMetadata := patternMetadata g; terms := ts;
     tags := tags g; allPatterns := allPatterns g; _loaded := _loaded g |}.

(** The comparator [(a, b) => b.length - a.length]. *)
Definition byLengthDesc (a b : jsstring) : Z :=
  (Z.of_nat (length b) - Z.of_nat (length a))%Z.

Section WithBuiltins.

Variable toLowerCase toUpperCase trim : jsstring -> jsstring.

Definition isLoaded (g : GlossaryIndex) : bool := _loaded g.

Definition getAllPatterns (g : GlossaryIndex) : list jsstring := allPatterns g.

(** [this.patterns.get(pattern.toLowerCase()) || []]. *)
Definition getTermIdsForPattern (g : GlossaryIndex) (pattern : jsstring)
  : list jsstring :=
  default [] (Map_get (toLowerCase pattern) (patterns g)).

(** [this.patternMetadata.get(pattern.toLowerCase()) || null]. *)
Definition getPatternMetadata (g : GlossaryIndex) (pattern : jsstring)
  : option TM.PatternMeta :=
  Map_get (toLowerCase pattern) (patternMetadata g).

Definition getTermMetadata (g : GlossaryIndex) (termId : jsstring) : option Term.t :=
  Map_get termId (terms g).

Definition getTermContent (g : GlossaryIndex) (termId : jsstring)
  : option TermData.t :=
  Term.fullContent <$> Map_get termId (terms g).

(** The step the three loops of [searchTerms] share: the term of [termId]
    is pushed unless it was seen or is not stored. *)
Definition push_term (g : GlossaryIndex) (rs : list Term.t * list jsstring)
    (termId : jsstring) : list Term.t * list jsstring :=
  if bool_decide (termId ∈ rs.2) then rs
  else match Map_get termId (terms g) with
       | Some term => (rs.1 ++ [term], rs.2 ++ [termId])
       | None => rs
       end.

(** [searchTerms(query, limit)]; the limit is 50 where none is given. *)
Definition searchTerms (g : GlossaryIndex) (query : jsstring) (limit : option Z)
  : list Term.t :=
  let queryLower := trim (toLowerCase query) in
  if bool_decide (queryLower = []) then []
  else
    let exact := foldl (push_term g) ([], []) (getTermIdsForPattern g queryLower) in
    let prefixed :=
      foldl (fun rs pt =>
               if startsWith pt.1 queryLower then foldl (push_term g) rs pt.2 else rs)
            exact (patterns g) in
    let named :=
      foldl (fun rs it =>
               if bool_decide (it.1 ∈ rs.2) then rs
               else if includes (toLowerCase (or_str (Some (Term.name it.2)) [])) queryLower
                    then (rs.1 ++ [it.2], rs.2 ++ [it.1])
                    else rs)
            prefixed (terms g) in
    Array_slice named.1 0 (default 50%Z limit).

Definition getAllTerms (g : GlossaryIndex) : list Term.t := (terms g).*2.

Definition getTermsByTag (g : GlossaryIndex) (tagId : jsstring) : list Term.t :=
  filter (fun term => Term.primaryTag term = tagId) (terms g).*2.

Definition normalizePattern (pattern : jsstring) : jsstring :=
  trim (toLowerCase pattern).

Definition isPatternExcluded (pattern : jsstring) : bool :=
  bool_decide (trim (toLowerCase pattern) ∈ EXCLUDED_PATTERNS).

(** The body of the four loops of [extractPatternsFromTerm]; [atLeastTwo]
    is set for the loops that ask [normalized.length >= 2] (the patterns
    and the abbreviations), [fromAbbr] for the abbreviations. The state is
    the array [patterns] and the set [seen]. *)
Definition extract_step (atLeastTwo fromAbbr : bool)
    (st : list Extracted * list jsstring) (p : jsstring)
  : list Extracted * list jsstring :=
  let normalized := normalizePattern p in
  if negb (bool_decide (normalized = []))
     && (negb atLeastTwo || (2 <=? length normalized))
     && negb (bool_decide (normalized ∈ st.2))
  then
    if negb (isPatternExcluded normalized)
    then (st.1 ++ [ {| pattern := normalized; original := trim p;
                       isFromAbbr := fromAbbr |} ],
          st.2 ++ [normalized])
    else st
  else st.

(** [if (termData.field) { for (const p of termData.field) ... }]. *)
Definition extract_field (atLeastTwo fromAbbr : bool) (field : option (list jsstring))
    (st : list Extracted * list jsstring) : list Extracted * list jsstring :=
  match field with
  | Some items => foldl (extract_step atLeastTwo fromAbbr) st items
  | None => st
  end.

Definition extractPatternsFromTerm (termData : TermData.t) : list Extracted :=
  (extract_field true true (TermData.abbr termData)
     (extract_field false false (TermData.aliases termData)
        (extract_field false false (TermData.names termData)
           (extract_field true false (TermData.patterns termData) ([], []))))).1.

(** [termData.names?.[0]?.toLowerCase().replace(/\s+/g, '-')]; [None] where
    the value is [undefined] or the empty string. *)
Definition derivedId (termData : TermData.t) : option jsstring :=
  match TermData.names termData with
  | Some (n :: _) =>
      let derived := replaceWhiteSpace (toLowerCase n) in
      if bool_decide (derived = []) then None else Some derived
  | _ => None
  end.

(** [termData.id || ...]; [None] where the value is falsy. *)
Definition termIdOf (termData : TermData.t) : option jsstring :=
  match TermData.id termData with
  | Some i => if bool_decide (i = []) then derivedId termData else Some i
  | None => derivedId termData
  end.

(** The metadata object [loadTerm] stores. *)
Definition termMetadata (termId : jsstring) (termData : TermData.t) : Term.t :=
  {| Term.id := termId;
     Term.name := or_str (TermData.names termData ≫= head) termId;
     Term.primaryTag := or_str (TermData.primary_tag termData) [];
     Term.tags := default [] (TermData.tags termData);
     Term.definition := or_str (TermData.definition termData) [];
     Term.level := or_str (TermData.level termData) (js "medschool");
     Term.fullContent := termData |}.

(** The body of the loop of [loadTerm] over the extracted patterns. *)
Definition loadTerm_step (termId : jsstring) (g : GlossaryIndex) (e : Extracted)
  : result GlossaryIndex :=
  let ps1 := if Map_has (pattern e) (patterns g) then patterns g
             else Map_set (pattern e) [] (patterns g) in
  let termIds := default [] (Map_get (pattern e) ps1) in
  let ps2 := if bool_decide (termId ∈ termIds) then ps1
             else Map_set (pattern e) (termIds ++ [termId]) ps1 in
  if Map_has (pattern e) (patternMetadata g) then Ok (set_patterns ps2 g)
  else
    match IndexLoader.shouldBeCaseSensitive toLowerCase toUpperCase trim
            (pattern e) (original e) (isFromAbbr e) with
    | Ok meta =>
        Ok (set_patternMetadata
              (Map_set (pattern e)
                 {| TM.isCaseSensitive := TM.isCaseSensitive meta;
                    TM.originalCase := TM.originalCase meta |}
                 (patternMetadata g))
              (set_patterns ps2 g))
    | TypeError => TypeError
    end.

Fixpoint loadTerm_loop (termId : jsstring) (es : list Extracted) (g : GlossaryIndex)
  : result GlossaryIndex :=
  match es with
  | [] => Ok g
  | e :: es' =>
      match loadTerm_step termId g e with
      | Ok g' => loadTerm_loop termId es' g'
      | TypeError => TypeError
      end
  end.

(** [loadTerm(index, termData)]: the index after the call. *)
Definition loadTerm (g : GlossaryIndex) (termData : TermData.t)
  : result GlossaryIndex :=
  match termIdOf termData with
  | None => Ok g
  | Some termId =>
      loadTerm_loop termId (extractPatternsFromTerm termData)
        (set_terms (Map_set termId (termMetadata termId termData) (terms g)) g)
  end.

Fixpoint loadTerms (ts : list TermData.t) (g : GlossaryIndex) : result GlossaryIndex :=
  match ts with
  | [] => Ok g
  | t :: ts' =>
      match loadTerm g t with
      | Ok g' => loadTerms ts' g'
      | TypeError => TypeError
      end
  end.

(** [loadAllTerms(index, terms)]. *)
Definition loadAllTerms (g : GlossaryIndex) (ts : list TermData.t)
  : result GlossaryIndex :=
  match loadTerms ts g with
  | Ok g' =>
      Ok {| patterns := patterns g'; patternMetadata := patternMetadata g';
            terms := terms g'; tags := tags g';
            allPatterns := TM.sort byLengthDesc (Map_keys (patterns g'));
            _loaded := true |}
  | TypeError => TypeError
  end.

(** The index as the matcher uses it. *)
Definition asTermIndex (g : GlossaryIndex) : TM.TermIndex :=
  {| TM.getAllPatterns := getAllPatterns g;
     TM.getTermIdsForPattern := fun p => Some (getTermIdsForPattern g p);
     TM.getPatternMetadata := getPatternMetadata g;
     TM.terms := Some (fun termId =>
       (fun term => {| TM.level := Some (Term.level term) |}) <$> Map_get termId (terms g)) |}.

End WithBuiltins.

End Glossary.

(** ** Notions used to state further properties *)

Module MoreProps.
Import AC Inv TM Props Sem.

(** What the outputs and the failure links hold: a pattern in the output of
    a node spells, code point by code point, a suffix of the path of the
    node, and a failure link leads to a node whose path is a suffix of the
    path of its source. *)
Definition sound_inv (path : nat -> list jsstring) (ns : list AhoCorasickNode) : Prop :=
  (forall j p, j < length ns -> p ∈ output (ns !!! j) -> codePoints p `suffix_of` path j) /\
  (forall j f, j < length ns -> fail (ns !!! j) = Some f -> path f `suffix_of` path j).

(** The match [x] covers the position. *)
Definition covers (position : Z) (x : Match) : Prop :=
  (m_start x <= position < m_end x)%Z.

(** What the scan of [_removeOverlaps] appends to its result. *)
Fixpoint kept (sorted : list ValidMatch) (lastEnd : Z) : list ValidMatch :=
  match sorted with
  | [] => []
  | m :: sorted' =>
      if (v_start m <? lastEnd)%Z then kept sorted' lastEnd
      else m :: kept sorted' (v_end m)
  end.

Section WithLowerCase.

Variable toLowerCase : jsstring -> jsstring.

(** The matchers a program can hold: before the first search the automaton
    is new, afterwards it was made from the patterns of the index. *)
Definition matcher_wf (m : TermMatcher) : Prop :=
  if _initialized m
  then built_from toLowerCase (getAllPatterns (index m)) (automaton m)
  else automaton m = new_AhoCorasick.

(** The patterns the automaton of the matcher holds once it is
    initialized. *)
Definition loaded_patterns (m : TermMatcher) (ps : list jsstring) : Prop :=
  if _initialized m then built_from toLowerCase ps (automaton m)
  else exists ps0, built_from toLowerCase ps0 (automaton m) /\
                   ps = ps0 ++ getAllPatterns (index m).

End WithLowerCase.

End MoreProps.

(** ** Notions used to state the properties of the index *)

Module IndexProps.
Import StringOps Glossary.

(** The two shapes of a pattern's metadata: no casing required, or a
    required casing. *)
Definition metadata_shape (meta : TM.PatternMeta) : Prop :=
  meta = IndexLoader.notCaseSensitive \/
  exists required, meta = IndexLoader.caseSensitive required.

(** What loading more terms keeps of an index: the metadata of the
    patterns it holds, and their identifiers, to which more may be
    appended. *)
Definition index_le (g g' : GlossaryIndex) : Prop :=
  (forall p meta, Map_get p (patternMetadata g) = Some meta ->
     Map_get p (patternMetadata g') = Some meta) /\
  (forall p ids, Map_get p (patterns g) = Some ids ->
     exists ids', Map_get p (patterns g') = Some ids' /\ ids `prefix_of` ids').

(** The identifiers of a pattern after [termId] was recorded for it. *)
Definition add_id (termId : jsstring) (old : list jsstring) : list jsstring :=
  if bool_decide (termId ∈ old) then old else old ++ [termId].

Section WithBuiltins.

Variable toLowerCase toUpperCase trim : jsstring -> jsstring.

(** What holds of every element [extractPatternsFromTerm] returns. *)
Definition extracted_ok (e : Extracted) : Prop :=
  pattern e <> [] /\
  isPatternExcluded toLowerCase trim (pattern e) = false /\
  (isFromAbbr e = true -> 2 <= length (pattern e)) /\
  exists raw, pattern e = normalizePattern toLowerCase trim raw /\ original e = trim raw.

(** The state of the loops of [extractPatternsFromTerm]. *)
Definition extract_inv (st : list Extracted * list jsstring) : Prop :=
  pattern <$> st.1 = st.2 /\ NoDup st.2 /\ forall e, e ∈ st.1 -> extracted_ok e.

(** What the loader keeps true of the index. *)
Record index_inv (g : GlossaryIndex) : Prop := mk_index_inv {
  ii_keys : Map_keys (patternMetadata g) = Map_keys (patterns g);
  ii_nodup : NoDup (Map_keys (patterns g));
  ii_terms_nodup : NoDup (Map_keys (terms g));
  ii_ids : forall p ids, Map_get p (patterns g) = Some ids ->
     ids <> [] /\ NoDup ids /\
     forall id, id ∈ ids -> exists t, Map_get id (terms g) = Some t;
  ii_term : forall id t, Map_get id (terms g) = Some t ->
     Term.id t = id /\ Term.level t <> [];
  ii_pattern : forall p, p ∈ Map_keys (patterns g) ->
     p <> [] /\ isPatternExcluded toLowerCase trim p = false /\
     exists raw, p = normalizePattern toLowerCase trim raw;
  ii_meta : forall p meta, Map_get p (patternMetadata g) = Some meta ->
     metadata_shape meta
}.

(** The state of the loops of [searchTerms]: the results are stored terms,
    [seen] holds their identifiers, each once. *)
Definition search_inv (g : GlossaryIndex) (rs : list Term.t * list jsstring) : Prop :=
  Term.id <$> rs.1 = rs.2 /\ NoDup rs.2 /\
  forall t, t ∈ rs.1 -> Map_get (Term.id t) (terms g) = Some t.

End WithBuiltins.

(** The terms of the examples. *)
Definition term_chf : TermData.t :=
  {| TermData.id := Some (js "heart-failure");
     TermData.names := Some [js "Heart Failure"];
     TermData.patterns := None;
     TermData.aliases := Some [js "cardiac failure"];
     TermData.abbr := Some [js "CHF"; js "HF"];
     TermData.primary_tag := Some (js "cardio");
     TermData.tags := None;
     TermData.definition := None;
     TermData.level := None |}.

Definition term_as : TermData.t :=
  {| TermData.id := None;
     TermData.names := Some [js "Aortic  Stenosis"];
     TermData.patterns := Some [js "as"];
     TermData.aliases := None;
     TermData.abbr := Some [js "AS"];
     TermData.primary_tag := None;
     TermData.tags := None;
     TermData.definition := None;
     TermData.level := Some (js "premed") |}.

End IndexProps.

(** * Properties
    ** The automaton keeps its invariants, and its methods return *)

Module ACFacts.
Import AC Inv.

Lemma map_get_elem key m v : map_get key m = Some v -> (key, v) ∈ m.
Proof.
  induction m as [|[k v'] m IH]; simpl; [done|].
  case_bool_decide as Hk.
  - intros [= <-]. subst. left.
  - intros H. right. auto.
Qed.

Lemma map_get_None key m : map_get key m = None -> key ∉ m.*1.
Proof.
  induction m as [|[k v'] m IH]; simpl.
  - intros _. apply not_elem_of_nil.
  - case_bool_decide as Hk; [done|]. intros H.
    apply not_elem_of_cons. split; [congruence | auto].
Qed.

Lemma map_has_true key m :
  map_has key m = true -> exists v, map_get key m = Some v /\ (key, v) ∈ m.
Proof.
  unfold map_has. destruct (map_get key m) eqn:E; [|done].
  intros _. eexists. split; [done|]. by apply map_get_elem.
Qed.

Lemma map_has_false key m : map_has key m = false -> key ∉ m.*1.
Proof.
  unfold map_has. destruct (map_get key m) eqn:E; [done|].
  intros _. by apply map_get_None.
Qed.

Lemma map_get_NoDup key v m : NoDup m.*1 -> (key, v) ∈ m -> map_get key m = Some v.
Proof.
  induction m as [|[k v'] m IH]; simpl.
  - intros _ H. by apply elem_of_nil in H.
  - intros Hnd Hin. apply NoDup_cons in Hnd as [Hk Hnd].
    apply elem_of_cons in Hin as [[= -> ->]|Hin].
    + by rewrite bool_decide_eq_true_2.
    + case_bool_decide as Hkk.
      * subst. exfalso. apply Hk. apply list_elem_of_fmap. exists (key, v). done.
      * auto.
Qed.

Lemma map_set_fresh key v m : key ∉ m.*1 -> map_set key v m = m ++ [(key, v)].
Proof.
  induction m as [|[k v'] m IH]; simpl; [done|].
  intros H. apply not_elem_of_cons in H as [Hne H].
  rewrite bool_decide_eq_false_2; [|congruence]. by rewrite IH.
Qed.

Lemma set_output_length i o ns : length (set_output i o ns) = length ns.
Proof. apply length_insert. Qed.
Lemma set_fail_length i f ns : length (set_fail i f ns) = length ns.
Proof. apply length_insert. Qed.
Lemma set_children_length i cs ns : length (set_children i cs ns) = length ns.
Proof. apply length_insert. Qed.

Lemma set_output_fields i o ns j :
  children (set_output i o ns !!! j) = children (ns !!! j) /\
  fail (set_output i o ns !!! j) = fail (ns !!! j) /\
  depth (set_output i o ns !!! j) = depth (ns !!! j) /\
  output (set_output i o ns !!! j) =
    if decide (i = j /\ i < length ns) then o else output (ns !!! j).
Proof.
  unfold set_output. rewrite list_lookup_total_insert.
  case_decide as H; [destruct H as [-> _]|]; done.
Qed.

Lemma set_fail_fields i f ns j :
  children (set_fail i f ns !!! j) = children (ns !!! j) /\
  output (set_fail i f ns !!! j) = output (ns !!! j) /\
  depth (set_fail i f ns !!! j) = depth (ns !!! j) /\
  fail (set_fail i f ns !!! j) =
    if decide (i = j /\ i < length ns) then f else fail (ns !!! j).
Proof.
  unfold set_fail. rewrite list_lookup_total_insert.
  case_decide as H; [destruct H as [-> _]|]; done.
Qed.

Lemma set_children_fields i cs ns j :
  fail (set_children i cs ns !!! j) = fail (ns !!! j) /\
  output (set_children i cs ns !!! j) = output (ns !!! j) /\
  depth (set_children i cs ns !!! j) = depth (ns !!! j) /\
  children (set_children i cs ns !!! j) =
    if decide (i = j /\ i < length ns) then cs else children (ns !!! j).
Proof.
  unfold set_children. rewrite list_lookup_total_insert.
  case_decide as H; [destruct H as [-> _]|]; done.
Qed.

Lemma same_shape_refl ns : same_shape ns ns.
Proof. by split. Qed.

Lemma same_shape_trans ns1 ns2 ns3 :
  same_shape ns1 ns2 -> same_shape ns2 ns3 -> same_shape ns1 ns3.
Proof.
  intros [L1 H1] [L2 H2]. split; [congruence|].
  intros j. destruct (H1 j), (H2 j). split; congruence.
Qed.

Lemma same_shape_set_output i o ns : same_shape ns (set_output i o ns).
Proof.
  split; [apply set_output_length|]. intros j.
  destruct (set_output_fields i o ns j) as (?&?&?&?). done.
Qed.

Lemma same_shape_set_fail i f ns : same_shape ns (set_fail i f ns).
Proof.
  split; [apply set_fail_length|]. intros j.
  destruct (set_fail_fields i f ns j) as (?&?&?&?). done.
Qed.

Lemma trie_inv_same_shape path ns ns' :
  trie_inv path ns -> same_shape ns ns' ->
  (forall j f, j < length ns' -> fail (ns' !!! j) = Some f ->
     f < length ns' /\ depth (ns' !!! f) < depth (ns' !!! j)) ->
  trie_inv path ns'.
Proof.
  intros [] [L S] Hf. split; try done.
  - lia.
  - intros j k c Hj Hin. rewrite L in *. destruct (S j) as [Hc _].
    rewrite Hc in Hin. eauto.
  - intros c Hc. rewrite L in Hc. destruct (ti_parent0 c Hc) as (j&k&?&?).
    exists j, k. destruct (S j) as [-> _]. done.
  - intros i j. rewrite L. auto.
  - intros j Hj. rewrite L in Hj. destruct (S j) as [-> _]. auto.
  - intros j Hj. rewrite L in Hj. destruct (S j) as [_ ->]. auto.
Qed.

Lemma trie_inv_set_output path ns i o :
  trie_inv path ns -> trie_inv path (set_output i o ns).
Proof.
  intros H. eapply trie_inv_same_shape; [done|apply same_shape_set_output|].
  intros j f. rewrite set_output_length.
  destruct (set_output_fields i o ns j) as (_&->&->&_).
  destruct (set_output_fields i o ns f) as (_&_&->&_).
  apply H.
Qed.

Lemma trie_inv_set_fail path ns i f :
  trie_inv path ns -> f < length ns -> depth (ns !!! f) < depth (ns !!! i) ->
  trie_inv path (set_fail i (Some f) ns).
Proof.
  intros H Hf Hd. eapply trie_inv_same_shape; [done|apply same_shape_set_fail|].
  intros j g. rewrite set_fail_length.
  destruct (set_fail_fields i (Some f) ns j) as (_&_&->&->).
  destruct (set_fail_fields i (Some f) ns g) as (_&_&->&_).
  case_decide as E.
  - destruct E as [-> _]. intros _ [= <-]. done.
  - apply H.
Qed.

Lemma trie_inv_depth_le path ns j :
  trie_inv path ns -> j < length ns -> depth (ns !!! j) <= j.
Proof.
  intros H. induction (lt_wf j) as [j _ IH]. intros Hj.
  destruct (decide (j = 0)) as [->|Hne].
  - rewrite (ti_depth _ _ H) by done. by rewrite (ti_root _ _ H).
  - destruct (ti_parent _ _ H j) as (p&k&Hp&Hin); [lia|].
    destruct (ti_child _ _ H p k j) as [? Hpath]; [lia|done|].
    rewrite (ti_depth _ _ H) by done. rewrite Hpath, length_app. simpl.
    rewrite <- (ti_depth _ _ H) by lia. specialize (IH p Hp). lia.
Qed.

Lemma trie_inv_new : trie_inv (fun _ => []) (nodes new_AhoCorasick).
Proof.
  split; simpl; try done.
  - lia.
  - intros j k c Hj. assert (j = 0) as -> by lia. simpl. by intros ?%elem_of_nil.
  - intros c ?. lia.
  - intros i j ? ? _. lia.
  - intros j Hj. assert (j = 0) as -> by lia. simpl. constructor.
  - intros j Hj. assert (j = 0) as -> by lia. done.
  - intros j f Hj. assert (j = 0) as -> by lia. done.
Qed.

Lemma extend_length ns node char : length (extend ns node char) = S (length ns).
Proof. unfold extend. rewrite set_children_length, length_app. simpl. lia. Qed.

Lemma extend_old ns node char j :
  node < length ns -> map_has char (children (ns !!! node)) = false ->
  j < length ns ->
  fail (extend ns node char !!! j) = fail (ns !!! j) /\
  output (extend ns node char !!! j) = output (ns !!! j) /\
  depth (extend ns node char !!! j) = depth (ns !!! j) /\
  children (extend ns node char !!! j) =
    if decide (j = node) then children (ns !!! node) ++ [(char, length ns)]
    else children (ns !!! j).
Proof.
  intros Hn Hh Hj. unfold extend.
  destruct (set_children_fields node
    (map_set char (length ns) (children ((ns ++ [ {| children := []; fail := None; output := [];
                        depth := depth (ns !!! node) + 1 |} ]) !!! node)))
    (ns ++ [ {| children := []; fail := None; output := [];
                        depth := depth (ns !!! node) + 1 |} ]) j) as (->&->&->&->).
  rewrite !lookup_total_app_l by done.
  split_and!; try done.
  rewrite length_app. simpl.
  destruct (decide (j = node)) as [->|Hne].
  - rewrite decide_True by (split; [done|lia]).
    apply map_set_fresh. by apply map_has_false.
  - rewrite decide_False by (intros [? _]; congruence). done.
Qed.

Lemma extend_new ns node char :
  node < length ns ->
  extend ns node char !!! length ns =
    {| children := []; fail := None; output := []; depth := depth (ns !!! node) + 1 |}.
Proof.
  intros Hn. unfold extend, set_children.
  rewrite list_lookup_total_insert_ne by lia.
  by apply list_lookup_total_middle.
Qed.

Lemma trie_inv_extend path ns node char :
  trie_inv path ns -> node < length ns ->
  map_has char (children (ns !!! node)) = false ->
  trie_inv (fun j => if decide (j = length ns) then path node ++ [char] else path j)
           (extend ns node char).
Proof.
  intros H Hn Hh.
  pose proof (extend_length ns node char) as L.
  pose proof (extend_new ns node char Hn) as New.
  assert (Old := extend_old ns node char).
  assert (Hfresh : forall j, j < length ns -> path j <> path node ++ [char]).
  { intros j Hj Hp.
    assert (j <> 0) as Hj0.
    { intros ->. rewrite (ti_root _ _ H) in Hp. by destruct (path node). }
    destruct (ti_parent _ _ H j) as (p&k&Hpj&Hin); [lia|].
    destruct (ti_child _ _ H p k j) as [_ Hpath]; [lia|done|].
    rewrite Hp in Hpath. apply app_inj_tail in Hpath as [Hpp ->].
    apply (ti_inj _ _ H) in Hpp; [|lia..]. subst p.
    apply map_has_false in Hh. apply Hh.
    apply list_elem_of_fmap. by exists (k, j). }
  split.
  - lia.
  - rewrite decide_False; [apply H|]. pose proof (ti_nonempty _ _ H). lia.
  - intros j k c Hj Hin. rewrite L in *.
    destruct (decide (j = length ns)) as [->|Hjn].
    { rewrite New in Hin. simpl in Hin. by apply elem_of_nil in Hin. }
    destruct (Old j Hn Hh) as (_&_&_&Hc); [lia|]. rewrite Hc in Hin.
    destruct (decide (j = node)) as [->|Hne].
    + apply elem_of_app in Hin as [Hin|Hin].
      * destruct (ti_child _ _ H node k c) as [? ?]; [done..|].
        rewrite decide_False by lia. split; [lia|done].
      * apply list_elem_of_singleton in Hin as [= -> ->].
        rewrite decide_True by done. split; [lia|done].
    + destruct (ti_child _ _ H j k c) as [? ?]; [lia|done|].
      rewrite decide_False by lia. split; [lia|done].
  - intros c Hc. rewrite L in Hc.
    destruct (decide (c = length ns)) as [->|Hcn].
    + exists node, char. split; [done|].
      destruct (Old node Hn Hh Hn) as (_&_&_&->). rewrite decide_True by done.
      apply elem_of_app. right. apply list_elem_of_singleton. done.
    + destruct (ti_parent _ _ H c) as (j&k&Hj&Hin); [lia|].
      exists j, k. split; [done|].
      destruct (Old j Hn Hh) as (_&_&_&->); [lia|].
      case_decide; [subst; apply elem_of_app; by left|done].
  - intros i j Hi Hj. rewrite L in *.
    repeat case_decide; subst; try done.
    + intros Hp. symmetry in Hp. apply Hfresh in Hp; [done|lia].
    + intros Hp. apply Hfresh in Hp; [done|lia].
    + apply (ti_inj _ _ H); lia.
  - intros j Hj. rewrite L in Hj.
    destruct (decide (j = length ns)) as [->|Hjn].
    { rewrite New. simpl. constructor. }
    destruct (Old j Hn Hh) as (_&_&_&->); [lia|].
    case_decide; [subst|apply H; lia].
    rewrite fmap_app. apply NoDup_app. split_and!.
    + by apply H.
    + intros x Hx ?%list_elem_of_singleton. simpl in *. subst.
      by apply map_has_false in Hh.
    + apply NoDup_singleton.
  - intros j Hj. rewrite L in Hj.
    destruct (decide (j = length ns)) as [->|Hjn].
    { rewrite New. simpl. rewrite length_app. simpl.
      by rewrite (ti_depth _ _ H). }
    destruct (Old j Hn Hh) as (_&_&->&_); [lia|].
    apply (ti_depth _ _ H). lia.
  - intros j f Hj. rewrite L in *.
    destruct (decide (j = length ns)) as [->|Hjn].
    { by rewrite New. }
    destruct (Old j Hn Hh) as (->&_&->&_); [lia|].
    intros Hf. destruct (ti_fail _ _ H j f) as [? ?]; [lia|done|].
    destruct (Old f Hn Hh) as (_&_&->&_); [lia|]. split; [lia|done].
Qed.

Lemma addPattern_walk_inv chars : forall node ns path,
  trie_inv path ns -> node < length ns ->
  exists path',
    trie_inv path' (addPattern_walk chars node ns).2 /\
    (addPattern_walk chars node ns).1 < length (addPattern_walk chars node ns).2 /\
    path' (addPattern_walk chars node ns).1 = path node ++ chars /\
    length ns <= length (addPattern_walk chars node ns).2 /\
    (forall j, j < length ns ->
       path' j = path j /\
       output ((addPattern_walk chars node ns).2 !!! j) = output (ns !!! j) /\
       fail ((addPattern_walk chars node ns).2 !!! j) = fail (ns !!! j)) /\
    (forall j, length ns <= j < length (addPattern_walk chars node ns).2 ->
       output ((addPattern_walk chars node ns).2 !!! j) = [] /\
       fail ((addPattern_walk chars node ns).2 !!! j) = None).
Proof.
  induction chars as [|char chars IH]; intros node ns path H Hn; simpl.
  - exists path. rewrite app_nil_r. split_and!; try done. intros j ?. lia.
  - destruct (map_has char (children (ns !!! node))) eqn:Hh.
    + apply map_has_true in Hh as (c&Hg&Hin). rewrite Hg. simpl.
      destruct (ti_child _ _ H node char c Hn Hin) as [Hc Hp].
      destruct (IH c ns path H) as (path'&?&?&Hp'&?&?&?); [lia|].
      exists path'. split_and!; try done.
      rewrite Hp', Hp, <- app_assoc. done.
    + fold (extend ns node char).
      pose proof (trie_inv_extend path ns node char H Hn Hh) as H'.
      pose proof (extend_length ns node char) as L.
      destruct (IH (length ns) (extend ns node char) _ H')
        as (path'&?&?&Hp'&?&Hold&Hnew); [lia|].
      exists path'. split_and!; try done.
      * rewrite Hp'. rewrite decide_True by done. by rewrite <- app_assoc.
      * lia.
      * intros j Hj. destruct (Hold j) as (->&->&->); [lia|].
        rewrite decide_False by lia.
        destruct (extend_old ns node char j Hn Hh Hj) as (->&->&_). done.
      * intros j Hj.
        destruct (decide (j = length ns)) as [->|Hne].
        -- destruct (Hold (length ns)) as (_&->&->); [lia|].
           by rewrite extend_new.
        -- apply Hnew. lia.
Qed.

Lemma follow_fail_null fuel ns char : follow_fail fuel ns char None = Some None.
Proof. by destruct fuel. Qed.

Lemma follow_fail_total path ns char :
  trie_inv path ns ->
  forall fuel node,
    (forall x, node = Some x -> x < length ns /\ depth (ns !!! x) < fuel) ->
    exists r, follow_fail fuel ns char node = Some r /\
      forall y, r = Some y ->
        y < length ns /\ map_has char (children (ns !!! y)) = true /\
        forall x, node = Some x -> depth (ns !!! y) <= depth (ns !!! x).
Proof.
  intros H fuel. induction fuel as [|fuel IH]; intros [x|] Hx; simpl;
    try (by exists None).
  - destruct (Hx x eq_refl). lia.
  - destruct (Hx x eq_refl) as [Hxn Hd].
    destruct (map_has char (children (ns !!! x))) eqn:Hh.
    + exists (Some x). split; [done|]. intros y [= <-]. split_and!; try done.
      by intros ? [= <-].
    + destruct (IH (fail (ns !!! x))) as (r&Hr&Hy).
      { intros f Hf. destruct (ti_fail _ _ H x f Hxn Hf). split; [done|lia]. }
      exists r. split; [done|]. intros y ->.
      destruct (Hy y eq_refl) as (?&?&Hle). split_and!; try done.
      intros ? [= <-]. destruct (fail (ns !!! x)) as [f|] eqn:Hf.
      * specialize (Hle f eq_refl). destruct (ti_fail _ _ H x f Hxn Hf). lia.
      * simpl in Hr. destruct fuel; done.
Qed.

Lemma grows_refl ns : grows ns ns.
Proof. split_and!; [apply same_shape_refl|done|eauto]. Qed.

Lemma grows_trans ns1 ns2 ns3 : grows ns1 ns2 -> grows ns2 ns3 -> grows ns1 ns3.
Proof.
  intros (S1&O1&P1) (S2&O2&P2). split_and!; [by eapply same_shape_trans|auto|].
  intros j p Hp. destruct (P2 j p Hp) as [j' Hp']. eauto.
Qed.

Lemma grows_set_fail i f ns : grows ns (set_fail i f ns).
Proof.
  split_and!; [apply same_shape_set_fail|..]; intros j p;
    destruct (set_fail_fields i f ns j) as (_&->&_); eauto.
Qed.

Lemma build_depth1_inv path cs : forall queue ns,
  trie_inv path ns ->
  (forall kc, kc ∈ cs -> kc ∈ children (ns !!! root)) ->
  trie_inv path (build_depth1 cs queue ns).2 /\
  grows ns (build_depth1 cs queue ns).2 /\
  (build_depth1 cs queue ns).1 = queue ++ cs.*2.
Proof.
  induction cs as [|[k c] cs IH]; intros queue ns H Hcs; simpl.
  - rewrite app_nil_r. split_and!; [done|apply grows_refl|done].
  - assert (Hin : (k, c) ∈ children (ns !!! root)) by (apply Hcs; left).
    destruct (ti_child _ _ H root k c (ti_nonempty _ _ H) Hin) as [Hc Hp].
    assert (Hd : depth (ns !!! root) < depth (ns !!! c)).
    { rewrite !(ti_depth _ _ H) by (unfold root; lia).
      rewrite Hp, length_app. simpl. lia. }
    pose proof (trie_inv_set_fail path ns c root H (ti_nonempty _ _ H) Hd) as H'.
    destruct (IH (queue ++ [c]) (set_fail c (Some root) ns) H') as (?&?&->).
    { intros kc ?. destruct (set_fail_fields c (Some root) ns root) as (->&_).
      apply Hcs. by right. }
    split_and!; [done| |by rewrite <- app_assoc].
    eapply grows_trans; [apply grows_set_fail|done].
Qed.

Lemma build_link_inv path ns current char child :
  trie_inv path ns -> current < length ns ->
  (char, child) ∈ children (ns !!! current) ->
  exists ns', build_link current char child ns = Some ns' /\
    trie_inv path ns' /\ grows ns ns'.
Proof.
  intros H Hc Hin. unfold build_link.
  destruct (ti_child _ _ H current char child Hc Hin) as [Hch Hp].
  assert (Hdc : depth (ns !!! child) = depth (ns !!! current) + 1).
  { rewrite !(ti_depth _ _ H) by lia. rewrite Hp, length_app. simpl. lia. }
  destruct (follow_fail_total path ns char H (length ns) (fail (ns !!! current)))
    as (r&Hff&Hr).
  { intros f Hf. destruct (ti_fail _ _ H current f Hc Hf) as [Hfn ?].
    split; [done|]. pose proof (trie_inv_depth_le path ns f H Hfn). lia. }
  rewrite Hff. simpl.
  set (target := default root (match r with
                               | Some fl => map_get char (children (ns !!! fl))
                               | None => Some root end)).
  assert (Ht : target < length ns /\ depth (ns !!! target) < depth (ns !!! child)).
  { subst target. destruct r as [fl|]; simpl.
    - destruct (Hr fl eq_refl) as (Hfl&Hh&Hle).
      apply map_has_true in Hh as (t&->&Ht). simpl.
      destruct (ti_child _ _ H fl char t Hfl Ht) as [? Hpt].
      split; [lia|]. rewrite (ti_depth _ _ H t) by lia.
      rewrite Hpt, length_app. simpl. rewrite <- (ti_depth _ _ H) by lia.
      destruct (fail (ns !!! current)) as [f|] eqn:Hf.
      + specialize (Hle f eq_refl).
        destruct (ti_fail _ _ H current f Hc Hf). lia.
      + by rewrite follow_fail_null in Hff.
    - split; [apply H|]. rewrite (ti_depth _ _ H root) by apply H.
      unfold root. rewrite (ti_root _ _ H). simpl. lia. }
  destruct Ht as [Htn Htd].
  eexists. split; [done|]. split.
  - apply trie_inv_set_output. by apply trie_inv_set_fail.
  - split_and!.
    + eapply same_shape_trans; [apply same_shape_set_fail|apply same_shape_set_output].
    + intros j p Hj.
      destruct (set_output_fields child
        (output (set_fail child (Some target) ns !!! child) ++
         output (set_fail child (Some target) ns !!! target))
        (set_fail child (Some target) ns) j) as (_&_&_&->).
      case_decide as E.
      * destruct E as [-> _]. apply elem_of_app. left.
        by destruct (set_fail_fields j (Some target) ns j) as (_&->&_).
      * by destruct (set_fail_fields child (Some target) ns j) as (_&->&_).
    + intros j p.
      destruct (set_output_fields child
        (output (set_fail child (Some target) ns !!! child) ++
         output (set_fail child (Some target) ns !!! target))
        (set_fail child (Some target) ns) j) as (_&_&_&->).
      destruct (set_fail_fields child (Some target) ns child) as (_&->&_).
      destruct (set_fail_fields child (Some target) ns target) as (_&->&_).
      destruct (set_fail_fields child (Some target) ns j) as (_&->&_).
      case_decide as E; [|eauto].
      intros [?|?]%elem_of_app; eauto.
Qed.

Lemma build_children_rule current cs0
    (J : list (jsstring * nat) -> list AhoCorasickNode -> Prop) :
  (forall done char child todo ns,
     cs0 = done ++ (char, child) :: todo -> J done ns ->
     exists ns', build_link current char child ns = Some ns' /\
                 J (done ++ [(char, child)]) ns') ->
  forall todo done queue ns,
    cs0 = done ++ todo -> J done ns ->
    exists ns', build_children current todo queue ns = Some (queue ++ todo.*2, ns') /\
                J cs0 ns'.
Proof.
  intros Hstep todo. induction todo as [|[char child] todo IH];
    intros done queue ns Hcs HJ; simpl.
  - rewrite app_nil_r in *. subst. eauto.
  - destruct (Hstep done char child todo ns Hcs HJ) as (ns1&->&HJ1). simpl.
    destruct (IH (done ++ [(char, child)]) (queue ++ [child]) ns1) as (ns2&->&HJ2);
      [by rewrite <- app_assoc|done|].
    exists ns2. by rewrite <- app_assoc.
Qed.

Lemma NoDup_bounded (l : list nat) n :
  0 < n -> NoDup l -> (forall x, x ∈ l -> 0 < x < n) -> S (length l) <= n.
Proof.
  intros Hn Hnd Hl.
  assert (l ⊆+ seq 1 (n - 1)) as Hsub.
  { apply NoDup_submseteq; [done|]. intros x Hx. apply elem_of_seq.
    specialize (Hl x Hx). lia. }
  apply submseteq_length in Hsub. rewrite length_seq in Hsub. lia.
Qed.

Lemma build_bfs_rule n (I : list nat -> list nat -> list AhoCorasickNode -> Prop) :
  0 < n ->
  (forall popped queue ns, I popped queue ns ->
     NoDup (popped ++ queue) /\ forall x, x ∈ popped ++ queue -> 0 < x < n) ->
  (forall popped cur rest ns, I popped (cur :: rest) ns ->
     exists qn, build_children cur (children (ns !!! cur)) rest ns = Some qn /\
                I (popped ++ [cur]) qn.1 qn.2) ->
  forall fuel popped queue ns,
    I popped queue ns -> n <= fuel + length popped + 1 ->
    exists ns' popped', build_bfs fuel queue ns = Some ns' /\ I popped' [] ns'.
Proof.
  intros Hn Hbound Hstep fuel.
  induction fuel as [|fuel IH]; intros popped [|cur rest] ns HI Hfuel; simpl;
    try (by exists ns, popped).
  - destruct (Hbound _ _ _ HI) as [Hnd Hr].
    pose proof (NoDup_bounded _ n Hn Hnd Hr) as Hb.
    rewrite length_app in Hb. simpl in Hb. lia.
  - destruct (Hstep _ _ _ _ HI) as (qn&->&HI'). simpl.
    apply (IH (popped ++ [cur])); [done|].
    rewrite length_app. simpl. lia.
Qed.

Lemma queue_reassoc {A} (popped rest l : list A) cur :
  (popped ++ [cur]) ++ rest ++ l = (popped ++ cur :: rest) ++ l.
Proof. by rewrite <- !app_assoc. Qed.

Lemma unique_parent path ns j j' k k' c :
  trie_inv path ns -> j < length ns -> j' < length ns ->
  (k, c) ∈ children (ns !!! j) -> (k', c) ∈ children (ns !!! j') ->
  j = j' /\ k = k'.
Proof.
  intros H Hj Hj' Hin Hin'.
  destruct (ti_child _ _ H j k c Hj Hin) as [_ Hp].
  destruct (ti_child _ _ H j' k' c Hj' Hin') as [_ Hp'].
  rewrite Hp in Hp'. apply app_inj_tail in Hp' as [Hpp ->].
  split; [|done]. by apply (ti_inj _ _ H).
Qed.

Lemma children_addr_NoDup path ns j :
  trie_inv path ns -> j < length ns -> NoDup (children (ns !!! j)).*2.
Proof.
  intros H Hj. pose proof (ti_keys _ _ H j Hj) as Hk.
  assert (Hu : forall k k' c, (k, c) ∈ children (ns !!! j) ->
                 (k', c) ∈ children (ns !!! j) -> k = k').
  { intros k k' c Hin Hin'.
    by destruct (unique_parent path ns j j k k' c H Hj Hj Hin Hin'). }
  induction (children (ns !!! j)) as [|[k c] l IH]; simpl; [constructor|].
  simpl in Hk. apply NoDup_cons in Hk as [Hk Hnd].
  apply NoDup_cons. split.
  - intros Hc. apply list_elem_of_fmap in Hc as ([k' c']&Hcc&Hin). simpl in Hcc. subst c'.
    apply Hk. assert (k = k') as ->.
    { apply (Hu k k' c); [left|by right]. }
    apply list_elem_of_fmap. by exists (k', c).
  - apply IH; [done|]. intros k1 k2 c' ? ?. apply (Hu k1 k2 c'); by right.
Qed.

Lemma bfs_inv_step path ns0 popped cur rest ns :
  trie_inv path ns0 ->
  bfs_inv path ns0 popped (cur :: rest) ns ->
  exists qn, build_children cur (children (ns !!! cur)) rest ns = Some qn /\
             bfs_inv path ns0 (popped ++ [cur]) qn.1 qn.2.
Proof.
  intros H0 (H&[[L S] G]&Hnd&Hpar).
  assert (Hcur : 0 < cur < length ns0).
  { destruct (Hpar cur) as (j&k&Hj&Hin&_); [apply elem_of_app; right; left|].
    destruct (ti_child _ _ H0 j k cur Hj Hin). lia. }
  assert (Hcs : children (ns !!! cur) = children (ns0 !!! cur)) by apply S.
  destruct (build_children_rule cur (children (ns !!! cur))
              (fun _ ns' => trie_inv path ns' /\ grows ns ns')) with
    (todo := children (ns !!! cur)) (done := @nil (jsstring * nat))
    (queue := rest) (ns := ns) as (ns'&Hb&H'&G'); [|done|split; [done|apply grows_refl]|].
  { intros done char child todo ns1 Hsplit [H1 G1].
    destruct (build_link_inv path ns1 cur char child H1) as (ns2&->&H2&G2).
    - destruct G1 as [[-> _] _]. lia.
    - destruct G1 as [[_ S1] _]. destruct (S1 cur) as [-> _].
      rewrite Hsplit. apply elem_of_app. right. left.
    - exists ns2. split_and!; [done..|]. by eapply grows_trans. }
  eexists. split; [done|]. simpl.
  split_and!; [done| |..].
  - eapply grows_trans; [|done]. done.
  - rewrite queue_reassoc. apply NoDup_app. split_and!; [done| |].
    + intros x Hx Hxc. rewrite Hcs in Hxc.
      apply list_elem_of_fmap in Hxc as ([k' x']&Hxx&Hin'). simpl in Hxx. subst x'.
      destruct (Hpar x Hx) as (j&k&Hj&Hin&Hjp).
      destruct (unique_parent path ns0 j cur k k' x H0) as [-> _]; [done|lia|done..|].
      destruct Hjp as [->|Hjp]; [lia|].
      apply NoDup_app in Hnd as (_&Hd&_). apply (Hd cur Hjp). left.
    + rewrite Hcs. eapply children_addr_NoDup; [done|lia].
  - intros x Hx. rewrite queue_reassoc in Hx.
    apply elem_of_app in Hx as [Hx|Hx].
    + destruct (Hpar x Hx) as (j&k&Hj&Hin&Hjp). exists j, k. split_and!; [done..|].
      destruct Hjp; [by left|right]. apply elem_of_app. by left.
    + rewrite Hcs in Hx.
      apply list_elem_of_fmap in Hx as ([k' x']&Hxx&Hin'). simpl in Hxx. subst x'.
      exists cur, k'. split_and!; [lia|done|]. right. apply elem_of_app. right. left.
Qed.

Lemma bfs_inv_bound path ns0 popped queue ns :
  trie_inv path ns0 -> bfs_inv path ns0 popped queue ns ->
  NoDup (popped ++ queue) /\ forall x, x ∈ popped ++ queue -> 0 < x < length ns0.
Proof.
  intros H0 (_&_&Hnd&Hpar). split; [done|]. intros x Hx.
  destruct (Hpar x Hx) as (j&k&Hj&Hin&_).
  destruct (ti_child _ _ H0 j k x Hj Hin). lia.
Qed.

Lemma build_bfs_inv path ns :
  trie_inv path ns ->
  exists ns',
    build_bfs (length ns) (build_depth1 (children (ns !!! root)) [] ns).1
                          (build_depth1 (children (ns !!! root)) [] ns).2 = Some ns' /\
    trie_inv path ns' /\ grows ns ns'.
Proof.
  intros H.
  destruct (build_depth1_inv path (children (ns !!! root)) [] ns H) as (H1&G1&Hq);
    [done|].
  rewrite Hq. simpl.
  destruct (build_bfs_rule (length ns) (bfs_inv path ns)) with
    (fuel := length ns) (popped := @nil nat) (queue := (children (ns !!! root)).*2)
    (ns := (build_depth1 (children (ns !!! root)) [] ns).2) as (ns'&popped'&Hb&HI).
  - apply H.
  - intros. by eapply bfs_inv_bound.
  - intros. by eapply bfs_inv_step.
  - split_and!; [done..| |].
    + simpl. eapply children_addr_NoDup; [done|apply H].
    + simpl. intros x Hx.
      apply list_elem_of_fmap in Hx as ([k x']&Hxx&Hin). simpl in Hxx. subst x'.
      exists 0, k. split_and!; [apply H|done|by left].
  - simpl. lia.
  - exists ns'. split; [done|]. by destruct HI as (?&?&_).
Qed.

Section WithLowerCase.
Variable toLowerCase : jsstring -> jsstring.

Lemma addPattern_inv p a : ac_inv a -> ac_inv (addPattern toLowerCase p a).
Proof.
  intros [path H]. unfold addPattern. case_bool_decide; [by exists path|].
  destruct (addPattern_walk_inv (codePoints (toLowerCase p)) root (nodes a) path H)
    as (path'&H'&_); [apply H|].
  destruct (addPattern_walk _ _ _) as [node ns]. simpl in *.
  exists path'. by apply trie_inv_set_output.
Qed.

Lemma build_total a :
  ac_inv a -> exists a', build a = Some a' /\ ac_inv a' /\ _built a' = true /\
                         (_built a = true -> a' = a) /\
                         grows (nodes a) (nodes a').
Proof.
  intros [path H]. unfold build. destruct (_built a) eqn:Hb.
  - exists a. split_and!; [done|by exists path|done..|apply grows_refl].
  - destruct (build_bfs_inv path (nodes a) H) as (ns'&->&H'&G). simpl.
    eexists. split_and!; [done|by exists path|done..].
Qed.

Lemma reachable_inv a : reachable toLowerCase a -> ac_inv a.
Proof.
  induction 1 as [|a p _ IH|a a' _ IH Hb].
  - eexists. apply trie_inv_new.
  - by apply addPattern_inv.
  - destruct (build_total a IH) as (a''&Hb'&?&_). congruence.
Qed.

Lemma addPatterns_reachable ps : forall a,
  reachable toLowerCase a -> reachable toLowerCase (addPatterns toLowerCase ps a).
Proof.
  induction ps as [|p ps IH]; intros a Ha; simpl; [done|].
  apply IH. by constructor.
Qed.

Lemma search_loop_total path ns : trie_inv path ns ->
  forall rest i node acc, node < length ns ->
    exists r, search_loop ns rest i node acc = Some r.
Proof.
  intros H rest. induction rest as [|c rest IH]; intros i node acc Hn; simpl.
  - eauto.
  - destruct (follow_fail_total path ns [c] H (length ns) (Some node)) as (r&->&Hr).
    { intros x [= <-]. split; [done|].
      pose proof (trie_inv_depth_le path ns node H Hn). lia. }
    simpl. destruct r as [n|].
    + destruct (Hr n eq_refl) as (Hnn&Hh&_).
      apply map_has_true in Hh as (t&->&Hin). simpl.
      apply IH. destruct (ti_child _ _ H n [c] t Hnn Hin). lia.
    + apply IH. apply H.
Qed.

Lemma search_total text a :
  reachable toLowerCase a ->
  exists r a', search toLowerCase text a = Some (r, a') /\ reachable toLowerCase a'.
Proof.
  intros Ha. unfold search.
  destruct (build_total a (reachable_inv a Ha)) as (a'&Hb&[path H']&_).
  rewrite Hb. simpl.
  destruct (search_loop_total path (nodes a') H' (toLowerCase text) 0 root [])
    as [r ->]; [apply H'|].
  simpl. exists r, a'. split; [done|]. by econstructor.
Qed.

Lemma search_loop_spec ns rest : forall i node acc r,
  search_loop ns rest i node acc = Some r ->
  exists new, r = acc ++ new /\
    (forall x, x ∈ new ->
       (exists j, pattern x ∈ output (ns !!! j)) /\
       start x = (end_ x - Z.of_nat (length (pattern x)))%Z /\
       (Z.of_nat i < end_ x <= Z.of_nat (i + length rest))%Z) /\
    StronglySorted (fun a b => (end_ a <= end_ b)%Z) new.
Proof.
  induction rest as [|c rest IH]; intros i node acc r; simpl.
  - intros [= <-]. exists []. rewrite app_nil_r. split_and!; [done| |constructor].
    by intros x ?%elem_of_nil.
  - destruct (follow_fail (length ns) ns [c] (Some node)) as [[n|]|]; simpl; [| |done].
    + intros Hr. apply IH in Hr as (new&->&Hnew&Hs).
      set (node' := default root (map_get [c] (children (ns !!! n)))) in *.
      exists (report i (output (ns !!! node')) ++ new).
      split; [by rewrite app_assoc|]. split.
      * intros x [Hx|Hx]%elem_of_app.
        -- unfold report in Hx. apply list_elem_of_fmap in Hx as (p&->&Hp). simpl.
           split_and!; [by exists node'|lia..].
        -- destruct (Hnew x Hx) as (?&?&?). split_and!; [done..|lia|lia].
      * apply StronglySorted_app_2; [| |done].
        -- intros x y Hx Hy. unfold report in Hx.
           apply list_elem_of_fmap in Hx as (p&->&Hp). simpl.
           destruct (Hnew y Hy) as (_&_&?). lia.
        -- unfold report. induction (output (ns !!! node')) as [|p l IHl]; simpl;
             constructor; [done|].
           apply Forall_forall. intros y (q&->&_)%list_elem_of_fmap. simpl. lia.
    + intros Hr. apply IH in Hr as (new&->&Hnew&Hs).
      exists new. split_and!; [done| |done].
      intros x Hx. destruct (Hnew x Hx) as (?&?&?). split_and!; [done..|lia|lia].
Qed.

Lemma reachable_outputs_nonempty a :
  (forall s, s <> [] -> toLowerCase s <> []) ->
  reachable toLowerCase a -> outputs_nonempty (nodes a).
Proof.
  intros Hlow. induction 1 as [|a p Ha IH|a a' Ha IH Hb].
  - intros [|j] q; simpl; by intros ?%elem_of_nil.
  - unfold addPattern. case_bool_decide as Hp; [done|].
    destruct (reachable_inv a Ha) as [path H].
    destruct (addPattern_walk_inv (codePoints (toLowerCase p)) root (nodes a) path H)
      as (path'&H'&Hnode&_&_&Hold&Hnew); [apply H|].
    destruct (addPattern_walk _ _ _) as [node ns]. simpl in *.
    assert (Hns : outputs_nonempty ns).
    { intros j q Hq. destruct (decide (j < length (nodes a))) as [Hj|Hj].
      - destruct (Hold j Hj) as (_&Ho&_). rewrite Ho in Hq. by eapply IH.
      - destruct (decide (j < length ns)) as [Hj'|Hj'].
        + destruct (Hnew j) as [Ho _]; [lia|]. rewrite Ho in Hq.
          by apply elem_of_nil in Hq.
        + rewrite list_lookup_total_alt, lookup_ge_None_2 in Hq by lia.
          by apply elem_of_nil in Hq. }
    intros j q.
    destruct (set_output_fields node (output (ns !!! node) ++ [toLowerCase p]) ns j)
      as (_&_&_&->).
    case_decide; [|apply Hns].
    intros [Hq| ->%list_elem_of_singleton]%elem_of_app; [by eapply Hns|by apply Hlow].
  - destruct (build_total a (reachable_inv a Ha)) as (a''&Hb'&_&_&_&(_&_&Hprov)).
    assert (a'' = a') as -> by congruence.
    intros j q Hq. destruct (Hprov j q Hq) as [j' Hq']. by eapply IH.
Qed.

End WithLowerCase.

End ACFacts.

(** ** The failure links lead to the longest suffix, the outputs are merged *)

Module SemFacts.
Import AC Inv TM Props Sem ACFacts.

Lemma suffix_of_shorter {A} (p q w : list A) :
  p `suffix_of` w -> q `suffix_of` w -> length p <= length q -> p `suffix_of` q.
Proof.
  intros Hp Hq Hle. destruct (suffix_weak_total p q w Hp Hq) as [?|Hqp]; [done|].
  pose proof (suffix_length _ _ Hqp).
  assert (q = p) as -> by (apply suffix_length_eq; [done|lia]). done.
Qed.

Lemma suffix_proper_tail {A} (p w : list A) :
  p `suffix_of` w -> p <> w -> p `suffix_of` tail w.
Proof.
  intros [[|x k] ->] Hne; [done|]. simpl. by apply suffix_app_r.
Qed.

Lemma suffix_tail {A} (p w : list A) : p `suffix_of` tail w -> p `suffix_of` w.
Proof. destruct w; [done|]. simpl. apply suffix_cons_r. Qed.

Lemma suffix_tail_length {A} (p w : list A) :
  p `suffix_of` tail w -> w <> [] -> length p < length w.
Proof.
  intros Hp Hw. apply suffix_length in Hp. destruct w; [done|]. simpl in *. lia.
Qed.

Lemma suffix_snoc_cases {A} (p w : list A) c :
  p `suffix_of` w ++ [c] -> p = [] \/ exists q, p = q ++ [c] /\ q `suffix_of` w.
Proof.
  intros Hp. destruct (decide (length p = 0)) as [Hl|Hl].
  - left. by destruct p.
  - right. destruct (exists_last (l := p)) as (q&c'&->); [by destruct p|].
    pose proof (suffix_snoc_inv_1 _ _ _ _ Hp) as ->.
    exists q. split; [done|]. by apply suffix_snoc_inv_2 in Hp.
Qed.

Lemma tail_snoc {A} (w : list A) c : w <> [] -> tail (w ++ [c]) = tail w ++ [c].
Proof. by destruct w. Qed.

Lemma has_child_get ns j char :
  has_child ns j char ->
  exists t, map_get char (children (ns !!! j)) = Some t /\ (char, t) ∈ children (ns !!! j).
Proof. apply map_has_true. Qed.

Lemma child_has_child path ns j char t :
  trie_inv path ns -> j < length ns -> (char, t) ∈ children (ns !!! j) ->
  has_child ns j char.
Proof.
  intros H Hj Hin. unfold has_child, map_has.
  by rewrite (map_get_NoDup char t _ (ti_keys _ _ H j Hj) Hin).
Qed.

(** The path of every node but the root is the path of its parent, which
    has the edge, followed by the label. *)
Lemma node_snoc path ns g q c :
  trie_inv path ns -> g < length ns -> path g = q ++ [c] ->
  exists j, j < length ns /\ path j = q /\ has_child ns j c /\ (c, g) ∈ children (ns !!! j).
Proof.
  intros H Hg Hp.
  assert (g <> 0) as Hg0.
  { intros ->. rewrite (ti_root _ _ H) in Hp. by destruct q. }
  destruct (ti_parent _ _ H g) as (j&k&Hj&Hin); [lia|].
  destruct (ti_child _ _ H j k g) as [_ Hpath]; [lia|done|].
  rewrite Hp in Hpath. apply app_inj_tail in Hpath as [-> ->].
  exists j. split_and!; [lia|done| |done].
  eapply child_has_child; [done|lia|done].
Qed.

Lemma longest_suffix_root_nil path ns :
  trie_inv path ns -> longest_suffix path ns [] root.
Proof.
  intros H. unfold root. split_and!; [apply H|by rewrite (ti_root _ _ H)|].
  intros g _ Hg%suffix_nil_inv. rewrite Hg. simpl. lia.
Qed.

(** The loop over the failure links, started on a node below which all
    links are right, ends on the longest suffix of [w] that has an edge
    labelled [char], or on [null] when there is none. *)
Lemma follow_fail_sem path ns char w d :
  trie_inv path ns ->
  fail (ns !!! 0) = None ->
  (forall x, 0 < x < length ns -> depth (ns !!! x) <= d -> fail_ok path ns x) ->
  forall fuel s,
    s < length ns -> depth (ns !!! s) <= d -> depth (ns !!! s) < fuel ->
    path s `suffix_of` w ->
    (forall g, g < length ns -> path g `suffix_of` w -> has_child ns g char ->
               path g `suffix_of` path s) ->
    exists r, follow_fail fuel ns char (Some s) = Some r /\
      match r with
      | Some y => y < length ns /\ has_child ns y char /\ path y `suffix_of` w /\
                  forall g, g < length ns -> path g `suffix_of` w ->
                            has_child ns g char -> length (path g) <= length (path y)
      | None => forall g, g < length ns -> path g `suffix_of` w -> ~ has_child ns g char
      end.
Proof.
  intros H Hroot Hfail fuel. induction fuel as [|fuel IH];
    intros s Hs Hd Hfuel Hsw Hcand; [lia|]. simpl.
  destruct (map_has char (children (ns !!! s))) eqn:Hh.
  - exists (Some s). split; [done|]. split_and!; [done..|].
    intros g Hg Hgw Hgc. apply suffix_length. by apply Hcand.
  - assert (Hns : forall g, g < length ns -> path g `suffix_of` w ->
                    has_child ns g char -> path g `suffix_of` tail (path s)).
    { intros g Hg Hgw Hgc. apply suffix_proper_tail; [by apply Hcand|].
      intros Heq. apply (ti_inj _ _ H) in Heq; [|done..]. subst g.
      unfold has_child in Hgc. congruence. }
    destruct (decide (s = 0)) as [->|Hs0].
    + rewrite Hroot, follow_fail_null. exists None. split; [done|].
      intros g Hg Hgw Hgc. specialize (Hns g Hg Hgw Hgc).
      rewrite (ti_root _ _ H) in Hns. simpl in Hns. apply suffix_nil_inv in Hns.
      rewrite <- (ti_root _ _ H) in Hns. apply (ti_inj _ _ H) in Hns; [|done|apply H].
      subst g. unfold has_child in Hgc. congruence.
    + destruct (Hfail s) as (f&Hf&Hfn&Hfs&Hfmax); [lia|done|].
      rewrite Hf.
      destruct (ti_fail _ _ H s f Hs Hf) as [_ Hdf].
      apply IH; [done|lia|lia| |].
      * transitivity (path s); [by apply suffix_tail|done].
      * intros g Hg Hgw Hgc. specialize (Hns g Hg Hgw Hgc).
        apply (suffix_of_shorter _ _ (tail (path s))); [done..|]. by apply Hfmax.
Qed.

(** The node reached after the loop spells the longest suffix of the word
    extended by [char]. *)
Lemma advance_longest path ns char w r :
  trie_inv path ns ->
  match r with
  | Some y => y < length ns /\ has_child ns y char /\ path y `suffix_of` w /\
              forall g, g < length ns -> path g `suffix_of` w ->
                        has_child ns g char -> length (path g) <= length (path y)
  | None => forall g, g < length ns -> path g `suffix_of` w -> ~ has_child ns g char
  end ->
  longest_suffix path ns (w ++ [char])
    (default root (match r with
                   | Some y => map_get char (children (ns !!! y))
                   | None => Some root
                   end)) /\
  (forall y, r = Some y ->
     exists t, map_get char (children (ns !!! y)) = Some t /\ path t = path y ++ [char]).
Proof.
  intros H Hr. destruct r as [y|].
  - destruct Hr as (Hy&Hc&Hyw&Hmax).
    apply has_child_get in Hc as (t&Hg&Hin). rewrite Hg. simpl.
    destruct (ti_child _ _ H y char t Hy Hin) as [Ht Hpt].
    split; [|intros ? [= <-]; eauto].
    split_and!; [lia|rewrite Hpt; by apply suffix_snoc|].
    intros g Hg' Hgw. rewrite Hpt, length_app. simpl.
    apply suffix_snoc_cases in Hgw as [->|(q&Hq&Hqw)]; [simpl; lia|].
    destruct (node_snoc path ns g q char H Hg' Hq) as (j&Hj&Hpj&Hjc&_).
    rewrite Hq, length_app. simpl.
    specialize (Hmax j Hj). rewrite Hpj in Hmax. specialize (Hmax Hqw Hjc). lia.
  - simpl. split; [|done]. unfold root.
    split_and!; [apply H|rewrite (ti_root _ _ H); apply suffix_nil|].
    intros g Hg Hgw.
    apply suffix_snoc_cases in Hgw as [->|(q&Hq&Hqw)]; [simpl; lia|].
    destruct (node_snoc path ns g q char H Hg Hq) as (j&Hj&Hpj&Hjc&_).
    exfalso. apply (Hr j Hj); [by rewrite Hpj|done].
Qed.


Lemma longest_suffix_length path ns ns' w j :
  length ns' = length ns -> longest_suffix path ns w j -> longest_suffix path ns' w j.
Proof. unfold longest_suffix. by intros ->. Qed.

Lemma path_nonroot path ns j :
  trie_inv path ns -> 0 < j < length ns -> path j <> [].
Proof.
  intros H Hj Hp. rewrite <- (ti_root _ _ H) in Hp.
  apply (ti_inj _ _ H) in Hp; [lia|lia|apply H].
Qed.

Lemma child_depth path ns j k c :
  trie_inv path ns -> j < length ns -> (k, c) ∈ children (ns !!! j) ->
  depth (ns !!! c) = depth (ns !!! j) + 1.
Proof.
  intros H Hj Hin. destruct (ti_child _ _ H j k c Hj Hin) as [Hc Hp].
  rewrite !(ti_depth _ _ H) by lia. rewrite Hp, length_app. simpl. lia.
Qed.

(** Linking one child, when every node up to the depth of its parent is
    linked, links the child and touches no other node. *)
Lemma build_link_ok path ns0 ns1 cur char c :
  trie_inv path ns1 -> grows ns0 ns1 -> fail (ns1 !!! 0) = None ->
  0 < cur < length ns1 -> (char, c) ∈ children (ns1 !!! cur) ->
  (forall x, 0 < x < length ns1 -> depth (ns1 !!! x) <= depth (ns1 !!! cur) ->
             linked_ok path ns0 ns1 x) ->
  exists ns2, build_link cur char c ns1 = Some ns2 /\
    trie_inv path ns2 /\ grows ns1 ns2 /\ linked_ok path ns0 ns2 c /\
    (forall x, x <> c -> ns2 !!! x = ns1 !!! x).
Proof.
  intros H G Hroot Hcur Hin Hshallow.
  destruct (build_link_inv path ns1 cur char c H) as (ns2&Hb&H2&G2); [lia|done|].
  exists ns2. split_and!; [done..| |].
  all: destruct (ti_child _ _ H cur char c) as [Hc Hpc]; [lia|done|].
  all: pose proof (child_depth path ns1 cur char c H) as Hdc.
  all: destruct (Hshallow cur) as [(s&Hs&Hls) _]; [lia|lia|].
  all: destruct (ti_fail _ _ H cur s) as [Hsn Hsd]; [lia|done|].
  all: destruct (follow_fail_sem path ns1 char (tail (path cur)) (depth (ns1 !!! cur)) H Hroot)
        with (fuel := length ns1) (s := s) as (r&Hr&Hrspec);
        [intros x Hx Hd; by apply Hshallow|done|lia|
         pose proof (trie_inv_depth_le path ns1 s H Hsn); lia|apply Hls|
         intros g Hg Hgw _; eapply suffix_of_shorter; [done|apply Hls|by apply Hls]|].
  all: destruct (advance_longest path ns1 char (tail (path cur)) r H Hrspec) as [Hlong _].
  all: rewrite <- tail_snoc, <- Hpc in Hlong by (apply (path_nonroot path ns1); [done|lia]).
  all: unfold build_link in Hb; rewrite Hs, Hr in Hb; simpl in Hb.
  all: set (t := default root (match r with
                              | Some fl => map_get char (children (ns1 !!! fl))
                              | None => Some root end)) in *.
  all: injection Hb as <-.
  all: assert (Htc : t <> c) by
        (intros ->; destruct Hlong as (_&Hsuf&_);
         apply suffix_tail_length in Hsuf;
           [lia|apply (path_nonroot path ns1); [done|lia]]).
  - split.
    + exists t. split.
      * destruct (set_output_fields c
          (output (set_fail c (Some t) ns1 !!! c) ++ output (set_fail c (Some t) ns1 !!! t))
          (set_fail c (Some t) ns1) c) as (_&->&_).
        destruct (set_fail_fields c (Some t) ns1 c) as (_&_&_&->).
        rewrite decide_True; [done|]. split; [done|lia].
      * eapply longest_suffix_length; [|done].
        by rewrite set_output_length, set_fail_length.
    + intros g p Hg Hgs Hp.
      rewrite set_output_length, set_fail_length in Hg.
      destruct (set_output_fields c
          (output (set_fail c (Some t) ns1 !!! c) ++ output (set_fail c (Some t) ns1 !!! t))
          (set_fail c (Some t) ns1) c) as (_&_&_&->).
      rewrite decide_True by (split; [done|rewrite set_fail_length; lia]).
      destruct (set_fail_fields c (Some t) ns1 c) as (_&->&_).
      destruct (set_fail_fields c (Some t) ns1 t) as (_&->&_).
      apply elem_of_app.
      destruct (decide (g = c)) as [->|Hgc].
      * left. by apply G.
      * right.
        assert (Hgt : path g `suffix_of` path t).
        { destruct Hlong as (Ht&Hts&Htmax).
          assert (path g `suffix_of` tail (path c)).
          { apply suffix_proper_tail; [done|].
            intros Heq. apply (ti_inj _ _ H) in Heq; [done|lia..]. }
          eapply suffix_of_shorter; [done..|]. apply Htmax; [lia|done]. }
        destruct (decide (t = 0)) as [Ht0|Ht0].
        -- exfalso. rewrite Ht0, (ti_root _ _ H) in Hgt. apply suffix_nil_inv in Hgt.
           by apply (path_nonroot path ns1 g H).
        -- destruct Hlong as (Ht&Hts&_).
           destruct (Hshallow t) as [_ Hto]; [lia| |].
           { apply suffix_tail_length in Hts;
               [|apply (path_nonroot path ns1); [done|lia]].
             rewrite !(ti_depth _ _ H) by lia.
             rewrite (ti_depth _ _ H) in Hdc by lia.
             rewrite (ti_depth _ _ H cur) in Hdc by lia. specialize (Hdc ltac:(lia) Hin). lia. }
           by apply (Hto g p).
  - intros x Hx. unfold set_output, set_fail.
    by rewrite !list_lookup_total_insert_ne.
Qed.


Lemma linked_ok_same path ns0 ns ns' x :
  length ns' = length ns -> ns' !!! x = ns !!! x ->
  linked_ok path ns0 ns x -> linked_ok path ns0 ns' x.
Proof.
  intros L E [(f&Hf&Hl) Ho]. split.
  - exists f. rewrite E. split; [done|]. by eapply longest_suffix_length.
  - intros g p Hg. rewrite L in Hg. rewrite E. by apply Ho.
Qed.

Lemma grows_depth ns ns' x : grows ns ns' -> depth (ns' !!! x) = depth (ns !!! x).
Proof. intros [[_ S] _]. apply S. Qed.

Lemma grows_children ns ns' x : grows ns ns' -> children (ns' !!! x) = children (ns !!! x).
Proof. intros [[_ S] _]. apply S. Qed.

Lemma grows_length ns ns' : grows ns ns' -> length ns' = length ns.
Proof. by intros [[L _] _]. Qed.

Lemma sorted_same_depth (f : nat -> nat) l d :
  (forall x, x ∈ l -> f x = d) -> StronglySorted (fun x y => f x <= f y) l.
Proof.
  induction l as [|x l IH]; intros Hl; constructor.
  - apply IH. intros y Hy. apply Hl. by right.
  - apply Forall_forall. intros y Hy.
    rewrite (Hl x) by left. rewrite (Hl y) by (by right). done.
Qed.

(** While a node waits in the queue, every node at most as deep has been
    queued. *)
Lemma bfs_ok_shallow path ns0 popped cur rest ns :
  trie_inv path ns0 -> bfs_ok path ns0 popped (cur :: rest) ns ->
  forall x, 0 < x < length ns0 -> depth (ns0 !!! x) <= depth (ns0 !!! cur) ->
            x ∈ popped ++ cur :: rest.
Proof.
  intros H0 (_&_&Hall&_&Hsorted&_) x.
  induction (lt_wf x) as [x _ IH]. intros Hx Hd.
  destruct (ti_parent _ _ H0 x Hx) as (j&k&Hj&Hin).
  pose proof (child_depth path ns0 j k x H0 ltac:(lia) Hin) as Hdx.
  apply (Hall j k x); [lia|done|].
  destruct (decide (j = 0)) as [->|Hj0]; [by left|right].
  assert (Hjq : j ∈ popped ++ cur :: rest) by (apply IH; [done|lia|lia]).
  apply elem_of_app in Hjq as [Hp|Hq]; [done|].
  exfalso. apply StronglySorted_app_1_r in Hsorted.
  apply StronglySorted_inv in Hsorted as [_ Hc]. rewrite Forall_forall in Hc.
  apply elem_of_cons in Hq as [->|Hq]; [lia|]. specialize (Hc j Hq). lia.
Qed.

Lemma bfs_ok_step path ns0 popped cur rest ns :
  trie_inv path ns0 ->
  bfs_ok path ns0 popped (cur :: rest) ns ->
  exists qn, build_children cur (children (ns !!! cur)) rest ns = Some qn /\
             bfs_ok path ns0 (popped ++ [cur]) qn.1 qn.2.
Proof.
  intros H0 Hok. pose proof Hok as (Hinv&Hroot&Hall&Hlinked&Hsorted&Hspan).
  pose proof Hinv as (H&G&Hnd&Hpar).
  destruct (bfs_inv_step path ns0 popped cur rest ns H0 Hinv) as (qn&Hqn&Hinv').
  pose proof (grows_length _ _ G) as L.
  assert (Hd0 : depth (ns0 !!! 0) = 0).
  { rewrite (ti_depth _ _ H0) by apply H0. by rewrite (ti_root _ _ H0). }
  assert (Hcur : 0 < cur < length ns0).
  { destruct (bfs_inv_bound path ns0 _ _ ns H0 Hinv) as [_ Hb].
    apply Hb. apply elem_of_app. right. left. }
  assert (Hcs : children (ns !!! cur) = children (ns0 !!! cur)) by by apply grows_children.
  assert (Hchild : forall k x, (k, x) ∈ children (ns !!! cur) ->
            cur < x < length ns0 /\ depth (ns0 !!! x) = depth (ns0 !!! cur) + 1).
  { intros k x Hin. rewrite Hcs in Hin.
    destruct (ti_child _ _ H0 cur k x) as [? _]; [lia|done|].
    split; [done|]. eapply child_depth; [done| |done]. lia. }
  destruct (build_children_rule cur (children (ns !!! cur)) (link_inv path ns0 ns))
    with (todo := children (ns !!! cur)) (done := @nil (jsstring * nat))
         (queue := rest) (ns := ns) as (ns'&Hb&H'&G'&Hdone&Hrest).
  { intros done char child todo ns1 Hsplit (H1&G1&Hd1&Hr1).
    assert (Hin : (char, child) ∈ children (ns !!! cur)).
    { rewrite Hsplit. apply elem_of_app. right. left. }
    assert (Hndc : NoDup (children (ns !!! cur)).*2).
    { eapply children_addr_NoDup; [done|lia]. }
    rewrite Hsplit, fmap_app, fmap_cons in Hndc. simpl in Hndc.
    apply NoDup_app in Hndc as (_&Hdis&_).
    assert (Hfresh : forall y, y ∈ done.*2 -> y <> child).
    { intros y Hy ->. apply (Hdis child Hy). left. }
    assert (Hdd : forall y, y ∈ done.*2 -> depth (ns0 !!! y) = depth (ns0 !!! cur) + 1).
    { intros y ([k y']&->&Hy)%list_elem_of_fmap. simpl.
      apply (Hchild k y'). rewrite Hsplit. apply elem_of_app. by left. }
    pose proof (grows_length _ _ G1) as L1.
    destruct (build_link_ok path ns0 ns1 cur char child H1) as (ns2&Hb2&H2&G2&Hl2&Hu2).
    - by eapply grows_trans.
    - rewrite Hr1; [done|]. intros Hy. apply Hdd in Hy. lia.
    - lia.
    - by rewrite (grows_children _ _ cur G1).
    - intros x Hx Hdx.
      rewrite !(grows_depth ns ns1), !(grows_depth ns0 ns) in Hdx by done.
      apply (linked_ok_same path ns0 ns); [done| |].
      + apply Hr1. intros Hy. apply Hdd in Hy. lia.
      + apply Hlinked.
        apply (bfs_ok_shallow path ns0 popped cur rest ns H0 Hok); [lia|done].
    - exists ns2. split; [done|]. split_and!; [done|by eapply grows_trans| |].
      + intros x. rewrite fmap_app. simpl.
        intros [Hx| ->%list_elem_of_singleton]%elem_of_app; [|done].
        apply (linked_ok_same path ns0 ns1);
          [by rewrite (grows_length _ _ G2)|apply Hu2; by apply Hfresh|by apply Hd1].
      + intros x Hx. rewrite fmap_app in Hx. simpl in Hx.
        apply not_elem_of_app in Hx as [Hx1 Hx2].
        rewrite Hu2; [by apply Hr1|]. intros ->. apply Hx2. left. }
  { done. }
  { split_and!; [done|apply grows_refl|by intros x ?%elem_of_nil|done]. }
  rewrite Hqn in Hb. injection Hb as ->. simpl in *.
  exists (rest ++ (children (ns !!! cur)).*2, ns'). split; [done|]. simpl.
  pose proof Hinv' as (_&_&Hnd'&_).
  rewrite queue_reassoc in Hnd'. apply NoDup_app in Hnd' as (_&Hdis&_).
  assert (Hdc : forall y, y ∈ (children (ns !!! cur)).*2 ->
            depth (ns0 !!! y) = depth (ns0 !!! cur) + 1).
  { intros y ([k y']&->&Hy)%list_elem_of_fmap. simpl. by apply (Hchild k y'). }
  assert (Hdold : forall x, x ∈ popped ++ cur :: rest ->
            depth (ns0 !!! x) <= depth (ns0 !!! cur) + 1).
  { intros x [Hx|Hx]%elem_of_app.
    - pose proof (StronglySorted_app_1_elem_of _ _ _ x cur Hsorted Hx ltac:(left)) as Hle.
      simpl in Hle. lia.
    - apply (Hspan cur x); [left|done]. }
  split_and!.
  - done.
  - rewrite Hrest; [done|]. intros Hy. apply Hdc in Hy. lia.
  - intros j k x Hj Hin Hjp. rewrite queue_reassoc. apply elem_of_app.
    destruct Hjp as [->|[Hjp| ->%list_elem_of_singleton]%elem_of_app].
    + left. apply (Hall 0 k x); [done..|by left].
    + left. apply (Hall j k x); [done..|by right].
    + right. rewrite Hcs. apply list_elem_of_fmap. by exists (k, x).
  - intros x Hx. rewrite queue_reassoc in Hx. apply elem_of_app in Hx as [Hx|Hx].
    + apply (linked_ok_same path ns0 ns); [by apply grows_length| |by apply Hlinked].
      apply Hrest. by apply Hdis.
    + by apply Hdone.
  - rewrite queue_reassoc. apply StronglySorted_app_2; [|done|].
    + intros x y Hx Hy. rewrite (Hdc y Hy). by apply Hdold.
    + by eapply sorted_same_depth.
  - intros x y [Hx|Hx]%elem_of_app [Hy|Hy]%elem_of_app.
    + apply Hspan; by right.
    + rewrite (Hdc y Hy).
      apply StronglySorted_app_1_r in Hsorted.
      apply StronglySorted_inv in Hsorted as [_ Hc]. rewrite Forall_forall in Hc.
      specialize (Hc x Hx). lia.
    + rewrite (Hdc x Hx).
      assert (y ∈ popped ++ cur :: rest) as Hy'%Hdold; [|lia].
      apply elem_of_app. right. by right.
    + rewrite (Hdc x Hx), (Hdc y Hy). lia.
Qed.


Lemma build_depth1_spec path cs : forall queue ns,
  trie_inv path ns ->
  (forall kc, kc ∈ cs -> kc ∈ children (ns !!! root)) ->
  (forall x, x ∈ cs.*2 -> fail ((build_depth1 cs queue ns).2 !!! x) = Some root) /\
  (forall x, x ∉ cs.*2 -> (build_depth1 cs queue ns).2 !!! x = ns !!! x) /\
  (forall x, output ((build_depth1 cs queue ns).2 !!! x) = output (ns !!! x)).
Proof.
  induction cs as [|[k c] cs IH]; intros queue ns H Hcs; simpl.
  - split_and!; [by intros x ?%elem_of_nil|done..].
  - assert (Hin : (k, c) ∈ children (ns !!! root)) by (apply Hcs; left).
    destruct (ti_child _ _ H root k c (ti_nonempty _ _ H) Hin) as [Hc Hp].
    assert (Hd : depth (ns !!! root) < depth (ns !!! c)).
    { rewrite (child_depth path ns root k c H (ti_nonempty _ _ H) Hin). lia. }
    pose proof (trie_inv_set_fail path ns c root H (ti_nonempty _ _ H) Hd) as H'.
    destruct (IH (queue ++ [c]) (set_fail c (Some root) ns) H') as (Hf&Hu&Ho).
    { intros kc ?. destruct (set_fail_fields c (Some root) ns root) as (->&_).
      apply Hcs. by right. }
    split_and!.
    + intros x Hx. destruct (decide (x ∈ cs.*2)) as [Hxc|Hxc]; [by apply Hf|].
      apply elem_of_cons in Hx as [->|?]; [|done].
      rewrite Hu by done.
      destruct (set_fail_fields c (Some root) ns c) as (_&_&_&->).
      rewrite decide_True; [done|]. split; [done|lia].
    + intros x Hx. apply not_elem_of_cons in Hx as [Hxc Hx].
      rewrite Hu by done. unfold set_fail. by rewrite list_lookup_total_insert_ne.
    + intros x. rewrite Ho. by destruct (set_fail_fields c (Some root) ns x) as (_&->&_).
Qed.

(** [build] links every node but the root. *)
Lemma build_bfs_ok path ns :
  trie_inv path ns -> fail (ns !!! 0) = None ->
  exists ns',
    build_bfs (length ns) (build_depth1 (children (ns !!! root)) [] ns).1
                          (build_depth1 (children (ns !!! root)) [] ns).2 = Some ns' /\
    trie_inv path ns' /\ grows ns ns' /\ fail (ns' !!! 0) = None /\
    forall x, 0 < x < length ns -> linked_ok path ns ns' x.
Proof.
  intros H Hroot.
  destruct (build_depth1_inv path (children (ns !!! root)) [] ns H) as (H1&G1&Hq);
    [done|].
  destruct (build_depth1_spec path (children (ns !!! root)) [] ns H) as (Hf1&Hu1&Ho1);
    [done|].
  rewrite Hq. simpl.
  set (ns1 := (build_depth1 (children (ns !!! root)) [] ns).2) in *.
  assert (Hkids : forall x, x ∈ (children (ns !!! root)).*2 ->
            exists k, (k, x) ∈ children (ns !!! root) /\ 0 < x < length ns /\
                      path x = [k]).
  { intros x ([k x']&->&Hin)%list_elem_of_fmap. simpl. exists k.
    destruct (ti_child _ _ H root k x' (ti_nonempty _ _ H) Hin) as [? Hp].
    split_and!; [done|unfold root in *; lia..|].
    rewrite Hp. unfold root. by rewrite (ti_root _ _ H). }
  destruct (build_bfs_rule (length ns) (bfs_ok path ns)) with
    (fuel := length ns) (popped := @nil nat) (queue := (children (ns !!! root)).*2)
    (ns := ns1) as (ns'&popped'&Hb&HI).
  - apply H.
  - intros popped queue ns2 (Hinv&_). by eapply bfs_inv_bound.
  - intros. by eapply bfs_ok_step.
  - split_and!.
    + split_and!; [done..| |].
      * simpl. eapply children_addr_NoDup; [done|apply H].
      * simpl. intros x (k&Hin&_)%Hkids.
        exists 0, k. split_and!; [apply H|done|by left].
    + rewrite Hu1; [done|]. intros (k&_&?&_)%Hkids. lia.
    + intros j k x Hj Hin [->|Hj']; [|by apply elem_of_nil in Hj'].
      simpl. apply list_elem_of_fmap. by exists (k, x).
    + simpl. intros x Hx. pose proof Hx as (k&Hin&Hxn&Hp)%Hkids. split.
      * exists root. split; [by apply Hf1|]. rewrite Hp. simpl.
        apply (longest_suffix_length path ns);
          [by apply grows_length|by apply longest_suffix_root_nil].
      * intros g p Hg Hgs Hpo. rewrite Ho1.
        rewrite (grows_length _ _ G1) in Hg.
        assert (g = x) as ->; [|done].
        apply (ti_inj _ _ H); [lia..|]. rewrite Hp in *.
        apply suffix_length_eq; [done|]. simpl.
        pose proof (path_nonroot path ns g H Hg). destruct (path g); [done|simpl; lia].
    + simpl. apply (sorted_same_depth _ _ 1). intros x (k&Hin&Hxn&Hp)%Hkids.
      rewrite (ti_depth _ _ H) by lia. by rewrite Hp.
    + simpl. intros x y (k&_&Hxn&Hp)%Hkids (k'&_&Hyn&Hp')%Hkids.
      rewrite !(ti_depth _ _ H) by lia. rewrite Hp, Hp'. simpl. lia.
  - simpl. lia.
  - destruct HI as ((H'&G'&_)&Hroot'&Hall&Hlinked&_).
    exists ns'. split_and!; [done..|].
    assert (Hpopped : forall x, 0 < x < length ns -> x ∈ popped').
    { intros x. induction (lt_wf x) as [x _ IH]. intros Hx.
      destruct (ti_parent _ _ H x Hx) as (j&k&Hj&Hin).
      specialize (Hall j k x ltac:(lia) Hin). rewrite app_nil_r in Hall. apply Hall.
      destruct (decide (j = 0)) as [->|Hj0]; [by left|right].
      apply IH; [done|lia]. }
    intros x Hx. apply Hlinked. rewrite app_nil_r. by apply Hpopped.
Qed.


Lemma codePoints_nonempty s : s <> [] -> codePoints s <> [].
Proof.
  destruct s as [|c [|d rest]]; [done|done|]. intros _. simpl.
  by destruct (isLeadSurrogate c && isTrailSurrogate d).
Qed.

Lemma codePoints_units s : noSurrogatePair s = true -> codePoints s = units s.
Proof.
  induction s as [|c [|d rest] IH]; [done|done|].
  intros Hs. change (noSurrogatePair (c :: d :: rest)) with
    (negb (isLeadSurrogate c && isTrailSurrogate d) && noSurrogatePair (d :: rest)) in Hs.
  apply andb_true_iff in Hs as [Hp Hs]. apply negb_true_iff in Hp.
  change (codePoints (c :: d :: rest)) with
    (if isLeadSurrogate c && isTrailSurrogate d
     then [c; d] :: codePoints rest else [c] :: codePoints (d :: rest)).
  rewrite Hp, IH by done. done.
Qed.

Section WithLowerCase.

Variable toLowerCase : jsstring -> jsstring.

Lemma built_from_inv ps a : built_from toLowerCase ps a -> full_inv toLowerCase ps a.
Proof.
  induction 1 as [|ps a p _ IH|ps a a' _ IH Hb].
  - exists (fun _ => []). split_and!; [apply trie_inv_new|done| |done].
    by intros p ?%elem_of_nil.
  - destruct IH as (path&H&Hroot&Hpat&Hbuilt).
    unfold addPattern. case_bool_decide as Hp.
    { exists path. split_and!; [done..| |].
      - intros q [Hq| ->%list_elem_of_singleton]%elem_of_app; [by apply Hpat|done].
      - intros Hb. destruct (Hbuilt Hb) as [Hf Ho]. split; [done|].
        intros q j [Hq| ->%list_elem_of_singleton]%elem_of_app; [by apply Ho|done]. }
    destruct (addPattern_walk_inv (codePoints (toLowerCase p)) root (nodes a) path H)
      as (path'&H'&Hnode&Hpn&Hlen&Hold&Hnew); [apply H|].
    destruct (addPattern_walk _ _ _) as [node ns]. simpl in *.
    exists path'. cbn [nodes _built].
    split_and!; [by apply trie_inv_set_output| | |done].
    + destruct (set_output_fields node (output (ns !!! node) ++ [toLowerCase p]) ns 0)
        as (_&->&_).
      destruct (Hold 0 (ti_nonempty _ _ H)) as (_&_&->). done.
    + assert (Hout : forall g q, q ∈ output (ns !!! g) ->
                q ∈ output (set_output node (output (ns !!! node) ++ [toLowerCase p]) ns !!! g)).
      { intros g q Hq.
        destruct (set_output_fields node (output (ns !!! node) ++ [toLowerCase p]) ns g)
          as (_&_&_&->).
        case_decide as E; [|done]. destruct E as [-> _]. apply elem_of_app. by left. }
      intros q [Hq| ->%list_elem_of_singleton]%elem_of_app Hne Hlne.
      * destruct (Hpat q Hq Hne Hlne) as (g&Hg&Hpg&Hog).
        destruct (Hold g) as (Hp'&Ho'&_); [lia|].
        exists g. rewrite set_output_length. split; [lia|]. split; [congruence|].
        apply Hout. by rewrite Ho'.
      * exists node. rewrite set_output_length.
        unfold root in Hpn. rewrite (ti_root _ _ H) in Hpn. simpl in Hpn.
        split; [|split; [done|]].
        -- split; [|done]. destruct (decide (node = 0)) as [->|]; [|lia].
           rewrite (ti_root _ _ H') in Hpn. symmetry in Hpn.
           by apply codePoints_nonempty in Hpn.
        -- destruct (set_output_fields node (output (ns !!! node) ++ [toLowerCase p]) ns node)
             as (_&_&_&->).
           rewrite decide_True by done. apply elem_of_app. right. left.
  - destruct IH as (path&H&Hroot&Hpat&Hbuilt).
    unfold build in Hb. destruct (_built a) eqn:Hba.
    { injection Hb as <-. exists path. rewrite Hba. done. }
    destruct (build_bfs_ok path (nodes a) H Hroot) as (ns'&Hbfs&H'&G&Hroot'&Hlinked).
    rewrite Hbfs in Hb. simpl in Hb. injection Hb as <-. simpl.
    pose proof (grows_length _ _ G) as L.
    exists path. cbn [nodes _built]. split_and!; [done..| |].
    + intros p Hp Hne Hlne. destruct (Hpat p Hp Hne Hlne) as (g&Hg&Hpg&Hog).
      exists g. split; [lia|]. split; [done|]. by apply G.
    + intros _. split.
      * intros j Hj. apply Hlinked. lia.
      * intros p j Hp Hne Hlne Hj Hsuf.
        destruct (Hpat p Hp Hne Hlne) as (g&Hg&Hpg&Hog).
        destruct (decide (j = 0)) as [->|Hj0].
        { rewrite (ti_root _ _ H) in Hsuf. apply suffix_nil_inv in Hsuf.
          by apply codePoints_nonempty in Hsuf. }
        destruct (Hlinked j) as [_ Ho]; [lia|].
        apply (Ho g); [lia|by rewrite Hpg|done].
Qed.

Lemma search_loop_mono ns rest i node acc r x :
  search_loop ns rest i node acc = Some r -> x ∈ acc -> x ∈ r.
Proof.
  intros (new&->&_)%search_loop_spec Hx. apply elem_of_app. by left.
Qed.

Lemma units_nil_inv s : units s = [] -> s = [].
Proof. by destruct s. Qed.

(** The scan keeps the current node on the longest suffix of the text read
    so far, and reports a pattern where the text read ends with it. *)
Lemma search_loop_complete path ns lp :
  trie_inv path ns -> fail (ns !!! 0) = None ->
  (forall j, 0 < j < length ns -> fail_ok path ns j) ->
  lp <> [] ->
  (exists g, g < length ns /\ path g = units lp) ->
  (forall j, j < length ns -> units lp `suffix_of` path j -> lp ∈ output (ns !!! j)) ->
  forall rest i node acc w r k,
    longest_suffix path ns w node ->
    search_loop ns rest i node acc = Some r ->
    k < length rest ->
    units lp `suffix_of` w ++ units (take (S k) rest) ->
    {| start := Z.of_nat (i + k) - Z.of_nat (length lp) + 1;
       end_ := Z.of_nat (i + k) + 1; pattern := lp |} ∈ r.
Proof.
  intros H Hroot Hfail Hne (g&Hg&Hpg) Hout rest.
  induction rest as [|c rest IH]; intros i node acc w r k Hnode Hloop Hk Hsuf;
    [simpl in Hk; lia|].
  simpl in Hloop.
  destruct Hnode as (Hn&Hnw&Hnmax).
  destruct (follow_fail_sem path ns [c] w (length ns) H Hroot)
    with (fuel := length ns) (s := node) as (r0&Hr0&Hspec).
  { intros x Hx _. by apply Hfail. }
  { done. }
  { pose proof (trie_inv_depth_le path ns node H Hn). lia. }
  { pose proof (trie_inv_depth_le path ns node H Hn). lia. }
  { done. }
  { intros x Hx Hxw _. eapply suffix_of_shorter; [done..|]. by apply Hnmax. }
  rewrite Hr0 in Hloop. simpl in Hloop.
  destruct (advance_longest path ns [c] w r0 H Hspec) as [Hlong _].
  assert (Hrec : forall k' X, units (take (S (S k')) (c :: rest)) = X ->
            w ++ X = (w ++ [[c]]) ++ units (take (S k') rest)).
  { intros k' X <-. simpl. by rewrite <- app_assoc. }
  destruct k as [|k].
  - assert (Hlps : units lp `suffix_of` w ++ [[c]]) by done.
    assert (Hlpn : forall t, longest_suffix path ns (w ++ [[c]]) t ->
              units lp `suffix_of` path t).
    { intros t (Ht&Htw&Htmax). eapply suffix_of_shorter; [done..|].
      rewrite <- Hpg. by apply Htmax; [|rewrite Hpg]. }
    destruct r0 as [n|].
    + set (node' := default root (map_get [c] (children (ns !!! n)))) in *.
      eapply search_loop_mono; [done|]. apply elem_of_app. right.
      unfold report. apply list_elem_of_fmap. exists lp.
      split; [by rewrite Nat.add_0_r|].
      apply Hout; [apply Hlong|by apply Hlpn].
    + exfalso. simpl in Hlong. specialize (Hlpn _ Hlong). unfold root in Hlpn.
      rewrite (ti_root _ _ H) in Hlpn. apply suffix_nil_inv, units_nil_inv in Hlpn. done.
  - replace (i + S k) with (S i + k) by lia.
    simpl in Hk.
    destruct r0 as [n|];
      (eapply (IH (S i)); [exact Hlong|exact Hloop|lia|]);
      by rewrite <- (Hrec k _ eq_refl).
Qed.

Lemma occurs_suffix (lp lt : jsstring) i :
  lp <> [] -> take (length lp) (drop i lt) = lp ->
  i + length lp <= length lt /\
  units lp `suffix_of` units (take (i + length lp) lt).
Proof.
  intros Hne Hocc.
  assert (Hlen : i + length lp <= length lt).
  { assert (0 < length lp) by (destruct lp; [done|simpl; lia]).
    apply (f_equal length) in Hocc. rewrite length_take, length_drop in Hocc. lia. }
  split; [done|].
  exists (units (take i lt)). unfold units. rewrite <- fmap_app. f_equal.
  rewrite <- take_take_drop. by rewrite Hocc.
Qed.

End WithLowerCase.

End SemFacts.

(** ** Overlap resolution *)

Module OverlapFacts.
Import AC Inv TM Props.

Lemma sort_insert_perm {A} (cmp : A -> A -> Z) x l : sort_insert cmp x l ≡ₚ x :: l.
Proof.
  induction l as [|y l IH]; simpl; [done|].
  destruct (cmp x y <=? 0)%Z; [done|].
  rewrite IH. apply perm_swap.
Qed.

Lemma sort_perm {A} (cmp : A -> A -> Z) l : sort cmp l ≡ₚ l.
Proof.
  induction l as [|x l IH]; simpl; [done|].
  rewrite sort_insert_perm. by rewrite IH.
Qed.

Lemma sort_elem_of {A} (cmp : A -> A -> Z) l x : x ∈ sort cmp l <-> x ∈ l.
Proof. by rewrite sort_perm. Qed.

Lemma sortsBefore_iff a b :
  sortsBefore a b <->
  (v_start a < v_start b)%Z \/
  (v_start a = v_start b /\ (v_end b - v_start b <= v_end a - v_start a)%Z).
Proof.
  unfold sortsBefore, compareMatches. case_bool_decide; lia.
Qed.

Lemma sortsBefore_trans a b c : sortsBefore a b -> sortsBefore b c -> sortsBefore a c.
Proof. rewrite !sortsBefore_iff. lia. Qed.

Lemma sortsBefore_total a b : ~ sortsBefore a b -> sortsBefore b a.
Proof. rewrite !sortsBefore_iff. lia. Qed.

Lemma sort_insert_sorted x l :
  StronglySorted sortsBefore l ->
  StronglySorted sortsBefore (sort_insert compareMatches x l).
Proof.
  induction 1 as [|y l Hl IH Hy]; simpl.
  - repeat constructor.
  - destruct (Z.leb_spec (compareMatches x y) 0) as [Hle|Hgt].
    + constructor; [by constructor|]. constructor; [done|].
      eapply Forall_impl; [done|]. intros z Hz. by eapply sortsBefore_trans.
    + constructor; [done|].
      assert (sortsBefore y x) as Hyx by (apply sortsBefore_total; unfold sortsBefore; lia).
      rewrite sort_insert_perm. by constructor.
Qed.

Lemma sort_sorted l : StronglySorted sortsBefore (sort compareMatches l).
Proof.
  induction l as [|x l IH]; simpl; [constructor|]. by apply sort_insert_sorted.
Qed.

(** The greedy scan keeps a chain: each kept hit starts at or after the end
    of the one kept before. *)
Lemma removeOverlaps_loop_chain sorted : forall lastEnd acc,
  (forall x, x ∈ sorted -> (v_start x < v_end x)%Z) ->
  (forall a, a ∈ acc -> (v_end a <= lastEnd)%Z) ->
  StronglySorted v_precedes acc ->
  StronglySorted v_precedes (removeOverlaps_loop sorted lastEnd acc).
Proof.
  induction sorted as [|m sorted IH]; intros lastEnd acc Hpos Hacc Hch; simpl; [done|].
  destruct (Z.ltb_spec (v_start m) lastEnd) as [Hlt|Hge].
  - apply IH; [|done..]. intros x Hx. apply Hpos. by right.
  - assert (Hm : (v_start m < v_end m)%Z) by (apply Hpos; left).
    apply IH.
    + intros x Hx. apply Hpos. by right.
    + intros a [Ha| ->%list_elem_of_singleton]%elem_of_app; [|lia].
      specialize (Hacc a Ha). lia.
    + apply StronglySorted_app_2; [|done|repeat constructor].
      intros a b Ha ->%list_elem_of_singleton. specialize (Hacc a Ha).
      unfold v_precedes. lia.
Qed.

(** Every hit the scan keeps is in its input, and no hit of the input with
    the same start is longer. *)
Lemma removeOverlaps_loop_longest sorted : forall lastEnd acc m,
  StronglySorted sortsBefore sorted ->
  (forall x, x ∈ sorted -> (v_start x < v_end x)%Z) ->
  m ∈ removeOverlaps_loop sorted lastEnd acc ->
  m ∈ acc \/
  (m ∈ sorted /\ (lastEnd <= v_start m)%Z /\
   forall c, c ∈ sorted -> v_start c = v_start m -> (v_end c <= v_end m)%Z).
Proof.
  induction sorted as [|x sorted IH]; intros lastEnd acc m Hs Hpos Hm; simpl in Hm;
    [by left|].
  apply StronglySorted_inv in Hs as [Hs Hx].
  assert (Hpos' : forall y, y ∈ sorted -> (v_start y < v_end y)%Z).
  { intros y Hy. apply Hpos. by right. }
  assert (Hxpos : (v_start x < v_end x)%Z) by (apply Hpos; left).
  destruct (Z.ltb_spec (v_start x) lastEnd) as [Hlt|Hge].
  - destruct (IH _ _ _ Hs Hpos' Hm) as [?|(Hin&Hle&Hlong)]; [by left|right].
    split_and!; [by right|done|].
    intros c [-> |Hc]%elem_of_cons Hst; [lia|auto].
  - destruct (IH _ _ _ Hs Hpos' Hm) as [Hin|(Hin&Hle&Hlong)].
    + apply elem_of_app in Hin as [?| ->%list_elem_of_singleton]; [by left|right].
      split_and!; [left|done|].
      intros c [-> |Hc]%elem_of_cons Hst; [lia|].
      rewrite Forall_forall in Hx. specialize (Hx c Hc).
      apply sortsBefore_iff in Hx. lia.
    + right. split_and!; [by right|lia|].
      intros c [-> |Hc]%elem_of_cons Hst; [lia|auto].
Qed.

Lemma removeOverlaps_chain matches :
  (forall x, x ∈ matches -> (v_start x < v_end x)%Z) ->
  StronglySorted v_precedes (_removeOverlaps matches).
Proof.
  intros Hpos. unfold _removeOverlaps. case_bool_decide; [constructor|].
  apply removeOverlaps_loop_chain.
  - intros x Hx. apply Hpos. by apply sort_elem_of in Hx.
  - by intros a ?%elem_of_nil.
  - constructor.
Qed.

Lemma removeOverlaps_longest matches m :
  (forall x, x ∈ matches -> (v_start x < v_end x)%Z) ->
  m ∈ _removeOverlaps matches ->
  m ∈ matches /\
  forall c, c ∈ matches -> v_start c = v_start m -> (v_end c <= v_end m)%Z.
Proof.
  intros Hpos. unfold _removeOverlaps. case_bool_decide; [by intros ?%elem_of_nil|].
  intros Hm. apply removeOverlaps_loop_longest in Hm as [Hm|(Hin&_&Hlong)].
  - by apply elem_of_nil in Hm.
  - split; [by apply sort_elem_of in Hin|].
    intros c Hc. apply Hlong. by apply sort_elem_of.
  - apply sort_sorted.
  - intros x Hx. apply Hpos. by apply sort_elem_of in Hx.
Qed.

(** Without any assumption on the spans, what the scan keeps is in its
    input. *)
Lemma removeOverlaps_loop_subset sorted : forall lastEnd acc m,
  m ∈ removeOverlaps_loop sorted lastEnd acc -> m ∈ acc \/ m ∈ sorted.
Proof.
  induction sorted as [|x sorted IH]; intros lastEnd acc m Hm; simpl in Hm; [by left|].
  destruct (v_start x <? lastEnd)%Z.
  - destruct (IH _ _ _ Hm); [by left|right; by right].
  - destruct (IH _ _ _ Hm) as [[?| ->%list_elem_of_singleton]%elem_of_app|?];
      [by left|right; left|right; by right].
Qed.

Lemma removeOverlaps_subset matches m : m ∈ _removeOverlaps matches -> m ∈ matches.
Proof.
  unfold _removeOverlaps. case_bool_decide; [by intros ?%elem_of_nil|].
  intros [?%elem_of_nil|?%sort_elem_of]%removeOverlaps_loop_subset; done.
Qed.

End OverlapFacts.

(** ** [findTerms] *)

Module MatcherFacts.
Import AC Inv TM Props ACFacts OverlapFacts.

Section WithBuiltins.

Variable toLowerCase : jsstring -> jsstring.
Variable BETA_TERM_LEVELS : list jsstring.

Lemma initialize_total m :
  matcher_ok toLowerCase m ->
  exists m1, initialize toLowerCase m = Some m1 /\ matcher_ok toLowerCase m1 /\
    index m1 = index m /\ userLevel m1 = userLevel m /\
    enableBetaFeatures m1 = enableBetaFeatures m.
Proof.
  intros Hm. unfold initialize. destruct (_initialized m); [by exists m|].
  pose proof (addPatterns_reachable toLowerCase (getAllPatterns (index m)) _ Hm) as Hr.
  destruct (build_total _ (reachable_inv _ _ Hr)) as (a&Hb&_). rewrite Hb. simpl.
  eexists. split_and!; [done| |done..].
  unfold matcher_ok. simpl. by econstructor.
Qed.

Lemma keepTerm_ext m m' termId :
  index m' = index m -> userLevel m' = userLevel m ->
  enableBetaFeatures m' = enableBetaFeatures m ->
  keepTerm BETA_TERM_LEVELS m' termId = keepTerm BETA_TERM_LEVELS m termId.
Proof. unfold keepTerm. by intros -> -> ->. Qed.

Lemma accept_ext m m' text r :
  index m' = index m -> userLevel m' = userLevel m ->
  enableBetaFeatures m' = enableBetaFeatures m ->
  accept BETA_TERM_LEVELS m' text r = accept BETA_TERM_LEVELS m text r.
Proof.
  intros Hi Hu He. unfold accept, _isValidCaseMatch, _filterByLevel, keepTerm.
  by rewrite Hi, Hu, He.
Qed.

(** The shape of every run of [findTerms]: it returns, and its result is
    the overlap resolution of the accepted hits, each of which passed
    [accept] on a raw hit of the search. *)
Lemma findTerms_structure text m :
  matcher_ok toLowerCase m ->
  exists m' cands,
    findTerms toLowerCase BETA_TERM_LEVELS text m
      = Some (toOutput <$> _removeOverlaps cands, m') /\
    candidates toLowerCase BETA_TERM_LEVELS text m = Some cands /\
    matcher_ok toLowerCase m' /\
    forall v, v ∈ cands ->
      exists r a j, accept BETA_TERM_LEVELS m text r = Some v /\
        reachable toLowerCase a /\ pattern r ∈ output (nodes a !!! j) /\
        start r = (end_ r - Z.of_nat (length (pattern r)))%Z.
Proof.
  intros Hm. unfold findTerms, candidates.
  destruct (initialize_total m Hm) as (m1&->&Hm1&Hi&Hu&He). simpl.
  case_bool_decide as Ht.
  { exists m1, []. split_and!; [done..|]. by intros v ?%elem_of_nil. }
  destruct (search_total toLowerCase text (automaton m1) Hm1) as (raw&a'&Hs&Ha').
  rewrite Hs. simpl.
  set (m2 := set_automaton a' (_initialized m1) m1).
  exists m2, (validMatches BETA_TERM_LEVELS m2 text raw).
  split_and!; [|done|done|].
  - case_bool_decide as Hraw; [|done]. by rewrite Hraw.
  - intros v Hv. unfold validMatches in Hv.
    apply list_elem_of_omap in Hv as (r&Hr&Hacc).
    unfold search in Hs.
    destruct (build (automaton m1)) as [a1|] eqn:Hb; simpl in Hs; [|done].
    destruct (search_loop (nodes a1) (toLowerCase text) 0 root []) as [res|] eqn:Hl;
      simpl in Hs; [|done].
    injection Hs as <- <-.
    apply search_loop_spec in Hl as (new&->&Hnew&_). simpl in Hr.
    destruct (Hnew r Hr) as ([j Hj]&Hst&_).
    exists r, a1, j. split_and!; [|done..].
    rewrite <- Hacc. symmetry. apply accept_ext; simpl; congruence.
Qed.

Lemma accept_fields m text r v :
  accept BETA_TERM_LEVELS m text r = Some v ->
  v_start v = start r /\ v_end v = end_ r /\ v_pattern v = pattern r /\
  (pattern r ∉ EXCLUDED_PATTERNS) /\
  _isWordBoundaryMatch text (start r) (end_ r) = true /\
  _isValidCaseMatch m text (start r) (end_ r) (pattern r) = true /\
  v_termIds v <> [] /\
  exists ids, getTermIdsForPattern (index m) (pattern r) = Some ids /\
              v_termIds v = _filterByLevel BETA_TERM_LEVELS m ids.
Proof.
  unfold accept. case_bool_decide as He; [done|].
  destruct (_isWordBoundaryMatch text (start r) (end_ r)); [|done].
  destruct (_isValidCaseMatch m text (start r) (end_ r) (pattern r)); [|done].
  simpl. destruct (getTermIdsForPattern (index m) (pattern r)) as [[|t ts]|]; [done| |done].
  case_bool_decide as Hf; [done|]. intros [= <-]. simpl.
  split_and!; try done. by eexists.
Qed.

Lemma chain_out l :
  StronglySorted v_precedes l -> StronglySorted precedes (toOutput <$> l).
Proof.
  induction 1 as [|v l Hl IH Hv]; simpl; constructor; [done|].
  apply Forall_fmap. eapply Forall_impl; [done|]. by intros [].
Qed.

Lemma chain_out_strict l :
  StronglySorted v_precedes l ->
  (forall v, v ∈ l -> (v_start v < v_end v)%Z) ->
  StronglySorted (fun a b => (m_start a < m_start b)%Z) (toOutput <$> l).
Proof.
  induction 1 as [|v l Hl IH Hv]; intros Hpos; simpl; constructor.
  - apply IH. intros w Hw. apply Hpos. by right.
  - apply Forall_fmap. rewrite Forall_forall in Hv. apply Forall_forall.
    intros w Hw. specialize (Hv w Hw). unfold v_precedes in Hv. simpl.
    assert (v_start v < v_end v)%Z by (apply Hpos; left). lia.
Qed.

Lemma elem_of_out x cands :
  x ∈ (toOutput <$> _removeOverlaps cands) ->
  exists v, v ∈ cands /\ v ∈ _removeOverlaps cands /\ x = toOutput v.
Proof.
  intros (v&->&Hv)%list_elem_of_fmap. exists v. split_and!; [|done..].
  by apply removeOverlaps_subset.
Qed.

End WithBuiltins.

End MatcherFacts.

(** ** The claims on [findTerms] *)

Module MatcherClaims.
Import AC Inv TM Props ACFacts OverlapFacts MatcherFacts.

Lemma ascii_toLowerCase_nonempty s : s <> [] -> ascii_toLowerCase s <> [].
Proof. by destruct s. Qed.

Section WithBuiltins.

Variable toLowerCase : jsstring -> jsstring.
Variable BETA_TERM_LEVELS : list jsstring.

(** C3, as the code has it. A match returned by [findTerms] has no ASCII
    letter or digit right before its start or right at its end, where the
    text has a character there: the word characters of the code are those
    of [/[a-zA-Z0-9]/]. *)
Theorem word_boundary_ascii (text : jsstring) (m : TermMatcher) :
  matcher_ok toLowerCase m ->
  exists out m',
    findTerms toLowerCase BETA_TERM_LEVELS text m = Some (out, m') /\
    forall x, x ∈ out ->
      ((0 < m_start x)%Z ->
         exists u, text !! Z.to_nat (m_start x - 1) = Some u /\ is_ascii_alnum u = false) /\
      ((m_end x < Z.of_nat (length text))%Z ->
         exists u, text !! Z.to_nat (m_end x) = Some u /\ is_ascii_alnum u = false).
Proof.
  intros Hm.
  destruct (findTerms_structure toLowerCase BETA_TERM_LEVELS text m Hm)
    as (m'&cands&Hf&_&_&Hcands).
  eexists _, m'. split; [done|].
  intros x (v&Hv&_&->)%elem_of_out. simpl.
  destruct (Hcands v Hv) as (r&a&j&Hacc&_).
  apply accept_fields in Hacc as (->&->&_&_&Hwb&_).
  unfold _isWordBoundaryMatch in Hwb.
  assert (Hchar : forall i, _isWordChar (charAt text i) = false ->
            exists u, text !! Z.to_nat i = Some u /\ is_ascii_alnum u = false).
  { intros i. unfold charAt, _isWordChar. destruct (i <? 0)%Z; [done|].
    destruct (text !! Z.to_nat i) as [u|]; [|done]. simpl.
    rewrite orb_false_r. eauto. }
  split; intros Hlt.
  - apply Hchar. apply Z.ltb_lt in Hlt. rewrite Hlt in Hwb. simpl in Hwb.
    by destruct (_isWordChar _).
  - apply Hchar. apply Z.ltb_lt in Hlt. rewrite Hlt in Hwb. simpl in Hwb.
    destruct ((0 <? start r)%Z && _isWordChar (charAt text (start r - 1))); [done|].
    by destruct (_isWordChar (charAt text (end_ r))).
Qed.

(** C6, as the code has it. Every hit that [findTerms] accepts for a
    pattern whose metadata is case sensitive with a required casing that is
    neither [null] nor the empty string spans exactly that casing:
    [text.slice(start, end)] equals it unit for unit; and the returned
    matches are among the accepted hits. With the index of the unit tests,
    "patient with CHF" has one match and "patient with chf" none. *)
Theorem case_sensitive_match (text : jsstring) (m : TermMatcher) :
  matcher_ok toLowerCase m ->
  (exists out m' cands,
    findTerms toLowerCase BETA_TERM_LEVELS text m = Some (out, m') /\
    candidates toLowerCase BETA_TERM_LEVELS text m = Some cands /\
    (forall x, x ∈ out -> exists v, v ∈ cands /\ x = toOutput v) /\
    forall v meta required, v ∈ cands ->
      getPatternMetadata (index m) (v_pattern v) = Some meta ->
      isCaseSensitive meta = true ->
      originalCase meta = Some required -> required <> [] ->
      slice text (v_start v) (v_end v) = required) /\
  fst <$> findTerms ascii_toLowerCase BETA_TERM_LEVELS (js "patient with CHF")
            (createTermMatcher mockIndex)
    = Some [ {| m_start := 13; m_end := 16; m_termIds := [js "heart-failure-001"] |} ] /\
  fst <$> findTerms ascii_toLowerCase BETA_TERM_LEVELS (js "patient with chf")
            (createTermMatcher mockIndex)
    = Some [].
Proof.
  intros Hm. split_and!; [|by vm_compute..].
  destruct (findTerms_structure toLowerCase BETA_TERM_LEVELS text m Hm)
    as (m'&cands&Hf&Hc&_&Hcands).
  eexists _, m', cands. split_and!; [done..| |].
  - intros x (v&Hv&_&->)%elem_of_out. eauto.
  - intros v meta required Hv Hmeta Hcs Hoc Hne.
    destruct (Hcands v Hv) as (r&a&j&Hacc&_).
    apply accept_fields in Hacc as (->&->&Hp&_&_&Hcase&_). rewrite Hp in Hmeta.
    unfold _isValidCaseMatch in Hcase. rewrite Hmeta, Hcs, Hoc in Hcase. simpl in Hcase.
    rewrite bool_decide_eq_false_2 in Hcase by done.
    by apply bool_decide_eq_true in Hcase.
Qed.

(** C7. No hit that [findTerms] accepts is for a pattern of
    [EXCLUDED_PATTERNS] ("an", "as", "be", "he", "is"), whatever the text
    and the index, and the returned matches are among the accepted hits.
    With the index of the unit tests, which maps "as" to a term,
    "Diagnosed as severe" has no match. *)
Theorem excluded_never_accepted (text : jsstring) (m : TermMatcher) :
  matcher_ok toLowerCase m ->
  (exists out m' cands,
    findTerms toLowerCase BETA_TERM_LEVELS text m = Some (out, m') /\
    candidates toLowerCase BETA_TERM_LEVELS text m = Some cands /\
    (forall x, x ∈ out -> exists v, v ∈ cands /\ x = toOutput v) /\
    forall v, v ∈ cands -> v_pattern v ∉ EXCLUDED_PATTERNS) /\
  EXCLUDED_PATTERNS = [js "an"; js "as"; js "be"; js "he"; js "is"] /\
  fst <$> findTerms ascii_toLowerCase BETA_TERM_LEVELS (js "Diagnosed as severe")
            (createTermMatcher mockIndex)
    = Some [].
Proof.
  intros Hm. split_and!; [|done|by vm_compute].
  destruct (findTerms_structure toLowerCase BETA_TERM_LEVELS text m Hm)
    as (m'&cands&Hf&Hc&_&Hcands).
  eexists _, m', cands. split_and!; [done..| |].
  - intros x (v&Hv&_&->)%elem_of_out. eauto.
  - intros v Hv. destruct (Hcands v Hv) as (r&a&j&Hacc&_).
    by apply accept_fields in Hacc as (_&_&->&?&_).
Qed.

End WithBuiltins.

End MatcherClaims.

(** ** The level and feature filter *)

Module FilterClaims.
Import AC Inv TM Props.

Section WithBuiltins.

Variable BETA_TERM_LEVELS : list jsstring.

Lemma keepTerm_reflect m termId :
  keepTerm BETA_TERM_LEVELS m termId = true <-> keepTerm_holds BETA_TERM_LEVELS m termId.
Proof.
  unfold keepTerm, keepTerm_holds, recordedLevel, tier, effectiveLevel.
  destruct (terms (index m) ≫= _) as [meta|]; [|done].
  set (lvl := match level meta with
              | Some l => if bool_decide (l = []) then js "medschool" else l
              | None => js "medschool" end).
  destruct (enableBetaFeatures m); simpl.
  - rewrite andb_false_r. case_bool_decide as Hne; split; try done.
    + intros [_ ?]. done.
    + intros _. split; [by intros [_ ?]|].
      by destruct (decide (default (PNum 1) (LEVEL_HIERARCHY lvl)
                    = levelValue (if bool_decide (userLevel m = VStr (js "all"))
                                  then VStr (js "medschool") else userLevel m))).
  - rewrite andb_true_r. case_bool_decide as Hb.
    + split; [done|]. intros [Hn _]. by destruct Hn.
    + case_bool_decide as Hne; split; try done.
      * intros [_ ?]. done.
      * intros _. split; [by intros [? _]|].
        by destruct (decide (default (PNum 1) (LEVEL_HIERARCHY lvl)
                      = levelValue (if bool_decide (userLevel m = VStr (js "all"))
                                    then VStr (js "medschool") else userLevel m))).
Qed.

(** Outside the names of the inherited members, the value the code
    looks up is the number of the tier. *)
Lemma LEVEL_HIERARCHY_spec_tier lvl :
  lvl ∉ Object_prototype_names ->
  default (PNum 1) (LEVEL_HIERARCHY lvl) = PNum (spec_tier lvl).
Proof.
  intros Hp. unfold LEVEL_HIERARCHY, spec_tier. by repeat case_bool_decide.
Qed.

Lemma levelValue_spec_tier u :
  u ∉ Object_prototype_names ->
  levelValue (if bool_decide (VStr u = VStr (js "all")) then VStr (js "medschool")
              else VStr u)
  = PNum (spec_tier (spec_callerLevel u)).
Proof.
  intros Hp. unfold spec_callerLevel.
  destruct (decide (u = js "all")) as [-> |Hne]; [done|].
  rewrite (bool_decide_eq_false_2 (VStr u = _)) by congruence.
  rewrite (bool_decide_eq_false_2 (u = _)) by done.
  by apply LEVEL_HIERARCHY_spec_tier.
Qed.

(** For a caller level and a term level that name no inherited member,
    the callback decides the rule of the specification. *)
Lemma keepTerm_spec_keeps m u termId :
  userLevel m = VStr u ->
  u ∉ Object_prototype_names ->
  (forall meta, terms (index m) ≫= (fun get => get termId) = Some meta ->
                spec_termLevel meta ∉ Object_prototype_names) ->
  keepTerm BETA_TERM_LEVELS m termId = true <->
  spec_keeps BETA_TERM_LEVELS (enableBetaFeatures m) u
    (terms (index m) ≫= (fun get => get termId)).
Proof.
  intros Hu Hp Hmeta. unfold keepTerm, spec_keeps.
  destruct (terms (index m) ≫= _) as [meta|]; [|done].
  specialize (Hmeta meta eq_refl).
  change (match level meta with
          | Some l => if bool_decide (l = []) then js "medschool" else l
          | None => js "medschool" end) with (spec_termLevel meta).
  rewrite Hu, (levelValue_spec_tier u Hp).
  rewrite (LEVEL_HIERARCHY_spec_tier _ Hmeta).
  destruct (enableBetaFeatures m); simpl.
  - rewrite andb_false_r. case_bool_decide as Hne; split; try done.
    + intros [_ Heq]. destruct Hne. by rewrite Heq.
    + intros _. split; [by intros [_ ?]|]. by injection Hne.
  - rewrite andb_true_r. case_bool_decide as Hb.
    + split; [done|]. intros [Hn _]. by destruct Hn.
    + case_bool_decide as Hne; split; try done.
      * intros [_ Heq]. destruct Hne. by rewrite Heq.
      * intros _. split; [by intros [? _]|]. by injection Hne.
Qed.

(** C5. The filter departs from the rule of the specification at a level
    that is the name of a member every object inherits. The index holds
    one term, 't1', with the recorded level 'constructor'; the caller's
    level is 'medschool' and beta features are on. By the rule the term is
    kept: 'constructor' names no tier, so it counts as the standard tier,
    which is the caller's. [_filterByLevel] drops it, whatever the beta
    list: [LEVEL_HIERARCHY['constructor']] is the inherited member, a value
    that is not nullish, and it differs from the caller's 1. *)
Theorem inherited_level_dropped :
  let meta := {| level := Some (js "constructor") |} in
  let idx := singleIndex (js "mi") [js "t1"] None (Some (fun _ => Some meta)) in
  let m := setBetaFeatures true
             (setUserLevel (VStr (js "medschool")) (createTermMatcher idx)) in
  terms (index m) ≫= (fun get => get (js "t1")) = Some meta /\
  userLevel m = VStr (js "medschool") /\
  spec_keeps BETA_TERM_LEVELS (enableBetaFeatures m) (js "medschool") (Some meta) /\
  keepTerm BETA_TERM_LEVELS m (js "t1") = false /\
  _filterByLevel BETA_TERM_LEVELS m [js "t1"] = [].
Proof.
  intros meta idx m.
  assert (Hk : keepTerm BETA_TERM_LEVELS m (js "t1") = false).
  { unfold keepTerm. simpl. by rewrite andb_false_r. }
  split_and!; [done|done| |done|].
  - split; [by intros [_ ?]|done].
  - unfold _filterByLevel. rewrite filter_cons_False; [done|]. by rewrite Hk.
Qed.

Lemma LEVEL_HIERARCHY_unknown lvl :
  lvl ∉ knownLevels -> lvl ∉ Object_prototype_names -> LEVEL_HIERARCHY lvl = None.
Proof.
  intros Hk Hp. unfold LEVEL_HIERARCHY.
  repeat case_bool_decide; try done; exfalso; apply Hk; subst lvl; compute_done.
Qed.

(** C10, as the code has it. [setUserLevel] with [null], [undefined] or the
    empty string sets the level to 'medschool'. A level string that is none
    of the three tiers and no name of a member of [Object.prototype] has the
    value 1 of 'medschool': as the caller's level it filters as 'medschool'
    does, and as the level of a term it makes the term kept exactly when it
    would be with the level 'medschool', provided beta features are on or
    the beta list holds both levels or neither. *)
Theorem unknown_levels_default (m : TermMatcher) (lvl : jsstring) :
  lvl ∉ knownLevels -> lvl ∉ Object_prototype_names ->
  userLevel (setUserLevel VNull m) = VStr (js "medschool") /\
  userLevel (setUserLevel VUndefined m) = VStr (js "medschool") /\
  userLevel (setUserLevel (VStr []) m) = VStr (js "medschool") /\
  tier lvl = PNum 1 /\ tier (js "medschool") = PNum 1 /\
  levelValue (VStr lvl) = levelValue (VStr (js "medschool")) /\
  (forall termIds,
     _filterByLevel BETA_TERM_LEVELS (setUserLevel (VStr lvl) m) termIds =
     _filterByLevel BETA_TERM_LEVELS (setUserLevel (VStr (js "medschool")) m) termIds) /\
  (forall termId,
     enableBetaFeatures m = true \/
       (lvl ∈ BETA_TERM_LEVELS <-> js "medschool" ∈ BETA_TERM_LEVELS) ->
     keepTerm BETA_TERM_LEVELS (set_index (with_level termId lvl (index m)) m) termId =
     keepTerm BETA_TERM_LEVELS
       (set_index (with_level termId (js "medschool") (index m)) m) termId).
Proof.
  intros Hk Hp. pose proof (LEVEL_HIERARCHY_unknown lvl Hk Hp) as Hl.
  assert (Hv : levelValue (VStr lvl) = levelValue (VStr (js "medschool"))).
  { unfold levelValue. by rewrite Hl. }
  split_and!; try done.
  - intros termIds. unfold _filterByLevel.
    apply list_filter_iff. intros termId.
    assert (keepTerm BETA_TERM_LEVELS (setUserLevel (VStr lvl) m) termId =
            keepTerm BETA_TERM_LEVELS (setUserLevel (VStr (js "medschool")) m) termId)
      as ->; [|done].
    unfold keepTerm, setUserLevel. simpl.
    destruct (terms (index m) ≫= _) as [meta|]; [|done].
    destruct (_ && _); [done|].
    destruct (decide (lvl = [])) as [->|Hne]; [done|].
    rewrite (bool_decide_eq_false_2 (lvl = [])) by done. simpl.
    rewrite (bool_decide_eq_false_2 (VStr lvl = VStr (js "all"))).
    2:{ intros [= ->]. apply Hk. compute_done. }
    by rewrite Hv.
  - intros termId Hbeta. unfold keepTerm. simpl.
    rewrite !bool_decide_eq_true_2 by done. simpl.
    destruct (decide (lvl = [])) as [->|Hne]; [done|].
    rewrite (bool_decide_eq_false_2 (lvl = [])) by done.
    unfold tier in *. rewrite Hl. simpl.
    destruct (enableBetaFeatures m); simpl.
    + by rewrite !andb_false_r.
    + destruct Hbeta as [?|Hbeta]; [done|].
      rewrite !andb_true_r.
      destruct (decide (lvl ∈ BETA_TERM_LEVELS)) as [Hin|Hin].
      * rewrite !bool_decide_eq_true_2; [done|by apply Hbeta|done].
      * rewrite !(bool_decide_eq_false_2 (_ ∈ _)); [done| |done].
        by rewrite <- Hbeta.
Qed.

End WithBuiltins.

End FilterClaims.

(** ** The classification of patterns *)

Module LoaderClaims.
Import TM IndexLoader.

Section WithBuiltins.

Variable toLowerCase toUpperCase trim : jsstring -> jsstring.

(** C4. [shouldBeCaseSensitive] never throws and returns what the ordered
    cascade of the specification gives for the normalized pattern
    [pattern.toLowerCase().trim()] and the original form [original.trim()]:
    an excluded pattern is not case sensitive; a pattern from an
    abbreviation of length at most 6 requires the original uppercased; a
    pattern of length at most 4 whose original equals its uppercase form
    requires the original; a pattern of length at most 6 whose original has
    a letter A-Z and is not in sentence case requires the original; a pattern
    of 2 to 4 letters a-z outside the common words requires its uppercase
    form; any other pattern is not case sensitive. *)
Theorem shouldBeCaseSensitive_cascade (pattern original : jsstring) (isFromAbbr : bool) :
  shouldBeCaseSensitive toLowerCase toUpperCase trim pattern original isFromAbbr =
  Ok (classify_spec toLowerCase toUpperCase
        (trim (toLowerCase pattern)) (trim original) isFromAbbr).
Proof.
  unfold shouldBeCaseSensitive, classify_spec, entirelyUppercase,
    containsUppercaseLetter, sentenceCase, onlyLowercaseLetters.
  generalize (trim (toLowerCase pattern)) (trim original).
  intros normalized originalStripped.
  destruct (bool_decide (normalized ∈ EXCLUDED_PATTERNS)); [done|].
  destruct originalStripped as [|c rest].
  - by destruct isFromAbbr, (length normalized <=? 6), (length normalized <=? 4),
      (bool_decide ([] = toUpperCase [])), (2 <=? length normalized),
      (test_all_a_z normalized), (bool_decide (normalized ∈ commonWords)).
  - by destruct isFromAbbr, (length normalized <=? 6), (length normalized <=? 4),
      (bool_decide (c :: rest = toUpperCase (c :: rest))),
      (test_A_Z (c :: rest)), (2 <=? length normalized),
      (test_all_a_z normalized), (bool_decide (normalized ∈ commonWords)),
      (bool_decide ([c] = toUpperCase [c])), (bool_decide (rest = toLowerCase rest)).
Qed.

End WithBuiltins.

(** The rules on examples, with the built-ins on ASCII and nothing to trim. *)
Example classify_HbA1c :
  shouldBeCaseSensitive ascii_toLowerCase ascii_toUpperCase id (js "hba1c") (js "HbA1c") false
  = Ok (caseSensitive (js "HbA1c")).
Proof. by vm_compute. Qed.

Example classify_abbreviation :
  shouldBeCaseSensitive ascii_toLowerCase ascii_toUpperCase id (js "chf") (js "chf") true
  = Ok (caseSensitive (js "CHF")).
Proof. by vm_compute. Qed.

Example classify_sentence_case_short :
  shouldBeCaseSensitive ascii_toLowerCase ascii_toUpperCase id (js "mi") (js "Mi") false
  = Ok (caseSensitive (js "MI")).
Proof. by vm_compute. Qed.

Example classify_common_word :
  shouldBeCaseSensitive ascii_toLowerCase ascii_toUpperCase id (js "arm") (js "arm") false
  = Ok notCaseSensitive.
Proof. by vm_compute. Qed.

Example classify_excluded :
  shouldBeCaseSensitive ascii_toLowerCase ascii_toUpperCase id (js "as") (js "AS") true
  = Ok notCaseSensitive.
Proof. by vm_compute. Qed.

End LoaderClaims.

(** ** The claims on the automaton *)

Module AutomatonClaims.
Import AC Inv TM Props Sem ACFacts SemFacts MatcherFacts.

Section WithBuiltins.

Variable toLowerCase : jsstring -> jsstring.
Variable BETA_TERM_LEVELS : list jsstring.

(** C8. [build] returns on every automaton; on the automaton it returns, a
    second [build] changes nothing; and [search] on the automaton as it was
    gives the hits, and leaves the automaton, that [search] gives after the
    explicit [build]. *)
Theorem build_idempotent (a : AhoCorasick) :
  reachable toLowerCase a ->
  exists a1,
    build a = Some a1 /\ _built a1 = true /\ build a1 = Some a1 /\
    forall text, exists r,
      search toLowerCase text a = Some (r, a1) /\
      search toLowerCase text a1 = Some (r, a1).
Proof.
  intros Ha.
  destruct (build_total a (reachable_inv _ a Ha)) as (a1&Hb&_&Hbuilt&_).
  assert (Hb1 : build a1 = Some a1) by (unfold build; by rewrite Hbuilt).
  exists a1. split_and!; [done..|].
  intros text.
  destruct (search_total toLowerCase text a Ha) as (r&a'&Hs&_).
  exists r. unfold search in *. rewrite Hb in Hs. rewrite Hb, Hb1. simpl in *.
  destruct (search_loop _ _ _ _ _); simpl in *; [|done].
  by injection Hs as -> _.
Qed.

(** C9, as the code has it. [addPattern] returns at once, leaving the
    automaton as it is, for every falsy argument (the empty string, [null],
    [undefined], [false], 0), and inserts every other string; [search] and
    [findTerms] return no match on the empty text; and on strings none of
    [addPattern], [search] and [findTerms] throws or fails to return. *)
Theorem malformed_input (a : AhoCorasick) (m : TermMatcher) :
  toLowerCase [] = [] ->
  reachable toLowerCase a ->
  matcher_ok toLowerCase m ->
  (forall v, truthy v = false -> addPattern_any toLowerCase v a = Ok a) /\
  (forall s, addPattern_any toLowerCase (VStr s) a = Ok (addPattern toLowerCase s a)) /\
  (exists a', search toLowerCase [] a = Some ([], a')) /\
  (exists m', findTerms toLowerCase BETA_TERM_LEVELS [] m = Some ([], m')) /\
  (forall text, exists r a', search toLowerCase text a = Some (r, a')) /\
  (forall text, exists out m',
     findTerms toLowerCase BETA_TERM_LEVELS text m = Some (out, m')).
Proof.
  intros Hnil Ha Hm. split_and!.
  - intros v Hv. unfold addPattern_any. by rewrite Hv.
  - intros s. unfold addPattern_any, addPattern. simpl.
    by case_bool_decide.
  - destruct (build_total a (reachable_inv _ a Ha)) as (a1&Hb&_).
    exists a1. unfold search. rewrite Hb, Hnil. done.
  - destruct (initialize_total toLowerCase m Hm) as (m1&Hi&_).
    exists m1. unfold findTerms. rewrite Hi. done.
  - intros text. destruct (search_total toLowerCase text a Ha) as (r&a'&Hs&_). eauto.
  - intros text.
    destruct (findTerms_structure toLowerCase BETA_TERM_LEVELS text m Hm)
      as (m'&cands&Hf&_). eauto.
Qed.

(** X1. Completeness of [search] for patterns without surrogate pairs: whatever
    patterns were added, and whenever [build] was called, every occurrence
    of an added pattern in the text is among the hits, with its start and
    end. *)
Theorem search_complete ps a p text i :
  built_from toLowerCase ps a ->
  p ∈ ps -> p <> [] -> toLowerCase p <> [] ->
  noSurrogatePair (toLowerCase p) = true ->
  occurs_at toLowerCase p text i ->
  exists r a', search toLowerCase text a = Some (r, a') /\
               hit_at toLowerCase p i ∈ r.
Proof.
  intros Ha Hp Hne Hlne Hns Hocc.
  assert (Hreach : reachable toLowerCase a).
  { clear -Ha. induction Ha; [constructor|by constructor|by econstructor]. }
  destruct (search_total toLowerCase text a Hreach) as (r&a'&Hs&_).
  exists r, a'. split; [done|].
  unfold search in Hs. destruct (build a) as [a1|] eqn:Hb; simpl in Hs; [|done].
  destruct (search_loop (nodes a1) (toLowerCase text) 0 root []) as [r1|] eqn:Hl;
    simpl in Hs; [|done].
  injection Hs as <- <-.
  assert (Ha1 : built_from toLowerCase ps a1) by (by econstructor).
  assert (Hb1 : _built a1 = true).
  { unfold build in Hb. destruct (_built a) eqn:E; [by injection Hb as <-|].
    destruct (build_bfs _ _ _); simpl in Hb; [|done]. by injection Hb as <-. }
  destruct (built_from_inv toLowerCase ps a1 Ha1) as (path&H&Hroot&Hpat&Hbuilt).
  destruct (Hbuilt Hb1) as [Hfail Hout].
  destruct (Hpat p Hp Hne Hlne) as (g&Hg&Hpg&_).
  rewrite codePoints_units in Hpg by done.
  destruct (occurs_suffix (toLowerCase p) (toLowerCase text) i Hlne Hocc) as [Hlen Hsuf].
  assert (Hpos : 0 < length (toLowerCase p)) by (destruct (toLowerCase p); [done|simpl; lia]).
  assert (Hout' : forall j, j < length (nodes a1) ->
            units (toLowerCase p) `suffix_of` path j ->
            toLowerCase p ∈ output (nodes a1 !!! j)).
  { intros j Hj Hsufj. apply (Hout p j Hp Hne Hlne Hj). by rewrite codePoints_units. }
  pose proof (search_loop_complete path (nodes a1) (toLowerCase p) H Hroot Hfail Hlne
                ltac:(exists g; split; [lia|done]) Hout'
                (toLowerCase text) 0 root [] [] r1 (i + length (toLowerCase p) - 1)
                (longest_suffix_root_nil path (nodes a1) H) Hl) as Hcomp.
  unfold hit_at.
  replace (Z.of_nat i) with
    (Z.of_nat (0 + (i + length (toLowerCase p) - 1))
     - Z.of_nat (length (toLowerCase p)) + 1)%Z by lia.
  replace (Z.of_nat (i + length (toLowerCase p))) with
    (Z.of_nat (0 + (i + length (toLowerCase p) - 1)) + 1)%Z by lia.
  apply Hcomp; [lia|]. simpl.
  replace (S (i + length (toLowerCase p) - 1)) with (i + length (toLowerCase p)) by lia.
  done.
Qed.

(** X2. The records of [search]: each ends one past an index of the lowercased
    text and starts the length of its pattern before its end, and they come
    in ascending order of end. *)
Theorem search_records a text :
  reachable toLowerCase a ->
  exists r a', search toLowerCase text a = Some (r, a') /\
    (forall x, x ∈ r ->
       exists i, i < length (toLowerCase text) /\
         end_ x = (Z.of_nat i + 1)%Z /\
         start x = (Z.of_nat i - Z.of_nat (length (pattern x)) + 1)%Z) /\
    StronglySorted (fun x y => (end_ x <= end_ y)%Z) r.
Proof.
  intros Ha. destruct (search_total toLowerCase text a Ha) as (r&a'&Hs&_).
  exists r, a'. split; [done|].
  unfold search in Hs. destruct (build a) as [a1|]; simpl in Hs; [|done].
  destruct (search_loop (nodes a1) (toLowerCase text) 0 root []) as [r1|] eqn:Hl;
    simpl in Hs; [|done].
  injection Hs as <- <-.
  apply search_loop_spec in Hl as (new&->&Hnew&Hsorted). simpl. split; [|done].
  intros x Hx. destruct (Hnew x Hx) as (_&Hst&Hend).
  exists (Z.to_nat (end_ x - 1)). split_and!; lia.
Qed.

End WithBuiltins.

(** C1, where the code departs from it. The pattern U+1F600 is inserted
    as one edge labelled with its two code units, [search] looks the text
    up one code unit at a time: the pattern stands at index 0 of the text
    U+1F600, and [search] reports nothing. *)
Theorem astral_pattern_missed :
  occurs_at ascii_toLowerCase grinningFace grinningFace 0 /\
  codePoints (ascii_toLowerCase grinningFace) = [grinningFace] /\
  fst <$> search ascii_toLowerCase grinningFace
            (addPattern ascii_toLowerCase grinningFace new_AhoCorasick)
    = Some [].
Proof. by vm_compute. Qed.

End AutomatonClaims.

(** ** The theorems at concrete inputs *)

Module Instances.
Import AC Inv TM Props Sem ACFacts SemFacts MatcherFacts MatcherClaims FilterClaims
  AutomatonClaims.

(** Scenario 1 of the specification: the longer pattern wins. *)
Example heart_failure_wins :
  fst <$> findTerms ascii_toLowerCase [] (js "Diagnosed with heart failure")
            (createTermMatcher overlappingIndex)
  = Some [ {| m_start := 15; m_end := 28; m_termIds := [js "heart-failure"] |} ].
Proof. by vm_compute. Qed.

Lemma word_boundary_ascii_witness :
  matcher_ok ascii_toLowerCase (createTermMatcher mockIndex) /\
  exists out m',
    findTerms ascii_toLowerCase [] (js "Patient has hypertension")
      (createTermMatcher mockIndex) = Some (out, m') /\
    forall x, x ∈ out ->
      ((0 < m_start x)%Z ->
         exists u, js "Patient has hypertension" !! Z.to_nat (m_start x - 1) = Some u /\
                   is_ascii_alnum u = false) /\
      ((m_end x < Z.of_nat (length (js "Patient has hypertension")))%Z ->
         exists u, js "Patient has hypertension" !! Z.to_nat (m_end x) = Some u /\
                   is_ascii_alnum u = false).
Proof.
  split; [apply reach_new|].
  apply (word_boundary_ascii ascii_toLowerCase [] (js "Patient has hypertension")
           (createTermMatcher mockIndex)).
  apply reach_new.
Defined.

(** C3 as stated fails: the underscore is a word character of the
    specification, and the match of "mi" in "_mi_" is returned with an
    underscore on either side. *)
Lemma word_boundary_counterexample :
  fst <$> findTerms ascii_toLowerCase [] (js "_mi_")
            (createTermMatcher (singleIndex (js "mi") [js "t1"] None None))
    = Some [ {| m_start := 1; m_end := 3; m_termIds := [js "t1"] |} ] /\
  forall isLetter isDigit,
    (exists u, js "_mi_" !! 0 = Some u /\ spec_isWordChar isLetter isDigit u = true) /\
    (exists u, js "_mi_" !! 3 = Some u /\ spec_isWordChar isLetter isDigit u = true).
Proof.
  split; [by vm_compute|].
  intros isLetter isDigit.
  split; exists 95%Z; (split; [reflexivity|]);
    unfold spec_isWordChar; apply orb_true_r.
Qed.

Lemma case_sensitive_match_witness :
  matcher_ok ascii_toLowerCase (createTermMatcher mockIndex) /\
  exists out m' cands,
    findTerms ascii_toLowerCase [] (js "patient with CHF") (createTermMatcher mockIndex)
      = Some (out, m') /\
    candidates ascii_toLowerCase [] (js "patient with CHF") (createTermMatcher mockIndex)
      = Some cands /\
    (forall x, x ∈ out -> exists v, v ∈ cands /\ x = toOutput v) /\
    forall v meta required, v ∈ cands ->
      getPatternMetadata mockIndex (v_pattern v) = Some meta ->
      isCaseSensitive meta = true ->
      originalCase meta = Some required -> required <> [] ->
      slice (js "patient with CHF") (v_start v) (v_end v) = required.
Proof.
  split; [apply reach_new|].
  apply (case_sensitive_match ascii_toLowerCase [] (js "patient with CHF")
           (createTermMatcher mockIndex)).
  apply reach_new.
Defined.

(** C6 as stated fails on a required casing that is the empty string: it
    is not [null], no span of the text equals it, and the hit is accepted. *)
Lemma case_sensitive_counterexample :
  fst <$> findTerms ascii_toLowerCase [] (js "ab")
            (createTermMatcher
               (singleIndex (js "ab") [js "t1"]
                  (Some {| isCaseSensitive := true; originalCase := Some [] |}) None))
    = Some [ {| m_start := 0; m_end := 2; m_termIds := [js "t1"] |} ] /\
  slice (js "ab") 0 2 <> [].
Proof. split; by vm_compute. Qed.

Lemma excluded_never_accepted_witness :
  matcher_ok ascii_toLowerCase (createTermMatcher mockIndex) /\
  exists out m' cands,
    findTerms ascii_toLowerCase [] (js "Diagnosed as severe") (createTermMatcher mockIndex)
      = Some (out, m') /\
    candidates ascii_toLowerCase [] (js "Diagnosed as severe") (createTermMatcher mockIndex)
      = Some cands /\
    (forall x, x ∈ out -> exists v, v ∈ cands /\ x = toOutput v) /\
    forall v, v ∈ cands -> v_pattern v ∉ EXCLUDED_PATTERNS.
Proof.
  split; [apply reach_new|].
  apply (excluded_never_accepted ascii_toLowerCase [] (js "Diagnosed as severe")
           (createTermMatcher mockIndex)).
  apply reach_new.
Defined.

(** Scenario 4 of the specification: nested and overlapping hits. *)
Example ushers_hits :
  fst <$> search ascii_toLowerCase (js "ushers")
            (addPatterns ascii_toLowerCase [js "he"; js "she"; js "his"; js "hers"]
               new_AhoCorasick)
  = Some [ {| start := 1; end_ := 4; pattern := js "she" |};
           {| start := 2; end_ := 4; pattern := js "he" |};
           {| start := 2; end_ := 6; pattern := js "hers" |} ].
Proof. by vm_compute. Qed.

(** [search_complete] at "she" in "ushers". *)
Lemma search_complete_witness :
  built_from ascii_toLowerCase [js "he"; js "she"; js "his"; js "hers"]
    (addPatterns ascii_toLowerCase [js "he"; js "she"; js "his"; js "hers"]
       new_AhoCorasick) /\
  occurs_at ascii_toLowerCase (js "she") (js "ushers") 1 /\
  exists r a',
    search ascii_toLowerCase (js "ushers")
      (addPatterns ascii_toLowerCase [js "he"; js "she"; js "his"; js "hers"]
         new_AhoCorasick) = Some (r, a') /\
    hit_at ascii_toLowerCase (js "she") 1 ∈ r.
Proof.
  assert (Hb : built_from ascii_toLowerCase [js "he"; js "she"; js "his"; js "hers"]
    (addPatterns ascii_toLowerCase [js "he"; js "she"; js "his"; js "hers"]
       new_AhoCorasick)).
  { apply (bf_addPattern _ [js "he"; js "she"; js "his"]).
    apply (bf_addPattern _ [js "he"; js "she"]).
    apply (bf_addPattern _ [js "he"]).
    apply (bf_addPattern _ []). apply bf_new. }
  split; [exact Hb|]. split; [reflexivity|].
  apply (search_complete ascii_toLowerCase _ _ (js "she") (js "ushers") 1 Hb).
  - right. left.
  - discriminate.
  - discriminate.
  - reflexivity.
  - reflexivity.
Defined.

Lemma build_idempotent_witness :
  reachable ascii_toLowerCase
    (addPatterns ascii_toLowerCase [js "he"; js "she"; js "his"; js "hers"]
       new_AhoCorasick) /\
  exists a1,
    build (addPatterns ascii_toLowerCase [js "he"; js "she"; js "his"; js "hers"]
             new_AhoCorasick) = Some a1 /\
    build a1 = Some a1.
Proof.
  assert (Hr : reachable ascii_toLowerCase
    (addPatterns ascii_toLowerCase [js "he"; js "she"; js "his"; js "hers"]
       new_AhoCorasick)).
  { repeat apply reach_addPattern. apply reach_new. }
  split; [exact Hr|].
  destruct (build_idempotent ascii_toLowerCase _ Hr) as (a1&Hb&_&Hb1&_).
  exists a1. split; [exact Hb|exact Hb1].
Defined.

Lemma malformed_input_witness :
  ascii_toLowerCase [] = [] /\
  reachable ascii_toLowerCase new_AhoCorasick /\
  matcher_ok ascii_toLowerCase (createTermMatcher mockIndex) /\
  addPattern_any ascii_toLowerCase VNull new_AhoCorasick = Ok new_AhoCorasick /\
  exists m', findTerms ascii_toLowerCase [] [] (createTermMatcher mockIndex)
             = Some ([], m').
Proof.
  split; [reflexivity|]. split; [apply reach_new|]. split; [apply reach_new|].
  destruct (malformed_input ascii_toLowerCase [] new_AhoCorasick
              (createTermMatcher mockIndex) eq_refl (reach_new _) (reach_new _))
    as (Hfalsy&_&_&Hempty&_).
  split; [apply Hfalsy; reflexivity|exact Hempty].
Defined.

(** C9 as stated fails on a truthy argument that is no string: the number
    42 passes the guard and has no [toLowerCase]. *)
Lemma malformed_input_counterexample :
  truthy (VNum 42) = true /\
  addPattern_any ascii_toLowerCase (VNum 42) new_AhoCorasick = TypeError.
Proof. split; reflexivity. Qed.

Lemma unknown_levels_default_witness :
  (js "resident" ∉ knownLevels) /\ (js "resident" ∉ Object_prototype_names) /\
  levelValue (VStr (js "resident")) = levelValue (VStr (js "medschool")).
Proof.
  assert (H1 : js "resident" ∉ knownLevels) by compute_done.
  assert (H2 : js "resident" ∉ Object_prototype_names) by compute_done.
  split; [exact H1|]. split; [exact H2|].
  destruct (unknown_levels_default [] (createTermMatcher mockIndex) (js "resident") H1 H2)
    as (_&_&_&_&_&Hv&_).
  exact Hv.
Defined.

(** C10 as stated fails twice. A level named after a member of
    [Object.prototype] does not get the value 1: with the caller's level
    'constructor' a 'medschool' term is dropped. And a term whose unknown
    level is in the beta list is dropped while beta features are off, where
    a 'medschool' term is kept. *)
Lemma unknown_levels_counterexample :
  let idx lvl := singleIndex (js "mi") [js "t1"] None
                   (Some (fun _ => Some {| level := Some lvl |})) in
  (js "constructor" ∉ knownLevels) /\
  levelValue (VStr (js "constructor")) <> levelValue (VStr (js "medschool")) /\
  _filterByLevel [] (setUserLevel (VStr (js "medschool"))
                       (createTermMatcher (idx (js "medschool")))) [js "t1"] = [js "t1"] /\
  _filterByLevel [] (setUserLevel (VStr (js "constructor"))
                       (createTermMatcher (idx (js "medschool")))) [js "t1"] = [] /\
  (js "beta" ∉ knownLevels) /\
  _filterByLevel [js "beta"] (createTermMatcher (idx (js "medschool"))) [js "t1"]
    = [js "t1"] /\
  _filterByLevel [js "beta"] (createTermMatcher (idx (js "beta"))) [js "t1"] = [].
Proof. split_and!; first [compute_done | by vm_compute]. Qed.

End Instances.

(** ** [slice] between two indices in order *)

Module SliceFacts.

Lemma slice_take_drop (s : jsstring) (a b : Z) :
  (0 <= a <= b)%Z ->
  slice s a b = take (Z.to_nat b - Z.to_nat a) (drop (Z.to_nat a) s).
Proof.
  intros Hab. unfold slice, slice_index.
  rewrite (proj2 (Z.ltb_ge a 0)), (proj2 (Z.ltb_ge b 0)) by lia.
  destruct (decide (a <= Z.of_nat (length s))%Z) as [Ha|Ha].
  - rewrite (Z.min_l a) by lia.
    destruct (decide (b <= Z.of_nat (length s))%Z) as [Hb|Hb].
    + rewrite Z.min_l by lia. f_equal. lia.
    + rewrite Z.min_r by lia.
      rewrite !take_ge; [done|rewrite length_drop; lia..].
  - rewrite !drop_ge by lia. by rewrite !take_nil.
Qed.

Lemma slice_join (s : jsstring) (a b : Z) :
  (0 <= a <= b)%Z -> take (Z.to_nat a) s ++ slice s a b = take (Z.to_nat b) s.
Proof.
  intros Hab. rewrite slice_take_drop by done.
  replace (Z.to_nat b) with (Z.to_nat a + (Z.to_nat b - Z.to_nat a)) at 2 by lia.
  by rewrite take_take_drop.
Qed.

End SliceFacts.

(** ** [search] reports nothing but occurrences *)

Module SoundFacts.
Import AC Inv TM Props Sem MoreProps ACFacts SemFacts SliceFacts.

Lemma suffix_app_same {A} (p w k : list A) :
  p `suffix_of` w -> (p ++ k) `suffix_of` (w ++ k).
Proof. intros [q ->]. exists q. by rewrite app_assoc. Qed.

Lemma concat_codePoints_aux s :
  concat (codePoints s) = s /\ forall c, concat (codePoints (c :: s)) = c :: s.
Proof.
  induction s as [|d rest [IH1 IH2]]; [done|].
  split; [apply IH2|]. intros c.
  change (codePoints (c :: d :: rest)) with
    (if isLeadSurrogate c && isTrailSurrogate d
     then [c; d] :: codePoints rest else [c] :: codePoints (d :: rest)).
  destruct (isLeadSurrogate c && isTrailSurrogate d); rewrite concat_cons.
  - by rewrite IH1.
  - by rewrite IH2.
Qed.

Lemma concat_codePoints s : concat (codePoints s) = s.
Proof. apply concat_codePoints_aux. Qed.

Lemma concat_units s : concat (units s) = s.
Proof. induction s as [|c s IH]; [done|]. simpl. by rewrite IH. Qed.

Lemma codePoints_suffix_units p w :
  codePoints p `suffix_of` units w -> p `suffix_of` w.
Proof.
  intros [k Hk]. exists (concat k).
  rewrite <- (concat_units w), Hk, concat_app. by rewrite concat_codePoints.
Qed.

Lemma sound_inv_set_fail path ns c f :
  sound_inv path ns -> path f `suffix_of` path c -> sound_inv path (set_fail c (Some f) ns).
Proof.
  intros [Ho Hf] Hs. split.
  - intros j p. rewrite set_fail_length.
    destruct (set_fail_fields c (Some f) ns j) as (_&->&_). apply Ho.
  - intros j g. rewrite set_fail_length.
    destruct (set_fail_fields c (Some f) ns j) as (_&_&_&->).
    case_decide as E; [|apply Hf]. destruct E as [-> _]. by intros _ [= <-].
Qed.

Lemma sound_inv_set_output path ns c o :
  sound_inv path ns -> (forall p, p ∈ o -> codePoints p `suffix_of` path c) ->
  sound_inv path (set_output c o ns).
Proof.
  intros [Ho Hf] Hs. split.
  - intros j p. rewrite set_output_length.
    destruct (set_output_fields c o ns j) as (_&_&_&->).
    case_decide as E; [|apply Ho]. destruct E as [-> _]. intros _. apply Hs.
  - intros j g. rewrite set_output_length.
    destruct (set_output_fields c o ns j) as (_&->&_). apply Hf.
Qed.

Lemma follow_fail_suffix path ns char :
  trie_inv path ns -> sound_inv path ns ->
  forall fuel x y, x < length ns ->
    follow_fail fuel ns char (Some x) = Some (Some y) ->
    y < length ns /\ path y `suffix_of` path x /\
    map_has char (children (ns !!! y)) = true.
Proof.
  intros H [_ Hf] fuel. induction fuel as [|fuel IH]; intros x y Hx; simpl.
  - destruct (map_has char (children (ns !!! x))) eqn:Hh; [|done].
    by intros [= <-].
  - destruct (map_has char (children (ns !!! x))) eqn:Hh.
    + by intros [= <-].
    + destruct (fail (ns !!! x)) as [f|] eqn:Hfx.
      * destruct (ti_fail _ _ H x f Hx Hfx) as [Hfn _].
        intros Hff. destruct (IH f y Hfn Hff) as (?&?&?).
        split_and!; [done| |done]. etrans; [done|]. by apply Hf.
      * by rewrite follow_fail_null.
Qed.

Lemma build_link_sound path ns cur char child ns' :
  trie_inv path ns -> sound_inv path ns -> cur < length ns ->
  (char, child) ∈ children (ns !!! cur) ->
  build_link cur char child ns = Some ns' -> sound_inv path ns'.
Proof.
  intros H Hs Hc Hin. unfold build_link.
  destruct (ti_child _ _ H cur char child Hc Hin) as [Hch Hp].
  destruct (follow_fail (length ns) ns char (fail (ns !!! cur))) as [r|] eqn:Hff;
    simpl; [|done].
  set (target := default root (match r with
                               | Some fl => map_get char (children (ns !!! fl))
                               | None => Some root end)).
  assert (Ht : target < length ns /\ path target `suffix_of` path child).
  { subst target. destruct r as [fl|]; simpl.
    - destruct (fail (ns !!! cur)) as [f|] eqn:Hf;
        [|by rewrite follow_fail_null in Hff].
      destruct (ti_fail _ _ H cur f Hc Hf) as [Hfn _].
      destruct (follow_fail_suffix path ns char H Hs _ f fl Hfn Hff) as (Hfl&Hsuf&Hh).
      apply map_has_true in Hh as (t&->&Ht). simpl.
      destruct (ti_child _ _ H fl char t Hfl Ht) as [? Hpt].
      split; [lia|]. rewrite Hpt, Hp. apply suffix_app_same.
      etrans; [done|]. by apply Hs.
    - split; [apply H|]. unfold root. rewrite (ti_root _ _ H). apply suffix_nil. }
  destruct Ht as [Htn Hts]. intros [= <-].
  apply sound_inv_set_output; [by apply sound_inv_set_fail|].
  intros p.
  destruct (set_fail_fields child (Some target) ns child) as (_&->&_).
  destruct (set_fail_fields child (Some target) ns target) as (_&->&_).
  destruct Hs as [Ho _].
  intros [Hp1|Hp2]%elem_of_app.
  - apply Ho; [lia|done].
  - etrans; [|done]. by apply Ho.
Qed.

Lemma build_children_sound path cur cs : forall queue ns qn,
  trie_inv path ns -> sound_inv path ns -> cur < length ns ->
  (forall kc, kc ∈ cs -> kc ∈ children (ns !!! cur)) ->
  build_children cur cs queue ns = Some qn ->
  trie_inv path qn.2 /\ sound_inv path qn.2 /\ qn.1 = queue ++ cs.*2.
Proof.
  induction cs as [|[char child] cs IH]; intros queue ns qn H Hs Hc Hcs; simpl.
  - intros [= <-]. by rewrite app_nil_r.
  - assert (Hin : (char, child) ∈ children (ns !!! cur)) by (apply Hcs; left).
    destruct (build_link_inv path ns cur char child H Hc Hin) as (ns1&Hb&H1&G1).
    rewrite Hb. simpl. intros Hrest.
    pose proof (build_link_sound path ns cur char child ns1 H Hs Hc Hin Hb) as Hs1.
    destruct (IH (queue ++ [child]) ns1 qn H1 Hs1) as (?&?&->); [| |done|].
    + rewrite (grows_length _ _ G1). done.
    + intros kc Hkc. rewrite (grows_children _ _ cur G1). apply Hcs. by right.
    + split_and!; [done..|]. by rewrite <- app_assoc.
Qed.

Lemma build_children_length cur cs : forall queue ns qn,
  build_children cur cs queue ns = Some qn -> length qn.2 = length ns.
Proof.
  induction cs as [|[char child] cs IH]; intros queue ns qn; simpl.
  - by intros [= <-].
  - unfold build_link.
    destruct (follow_fail _ _ _ _); simpl; [|done].
    intros Hx%IH. rewrite Hx, set_output_length, set_fail_length. done.
Qed.

Lemma build_bfs_sound path : forall fuel queue ns ns',
  trie_inv path ns -> sound_inv path ns ->
  (forall x, x ∈ queue -> x < length ns) ->
  build_bfs fuel queue ns = Some ns' ->
  trie_inv path ns' /\ sound_inv path ns'.
Proof.
  induction fuel as [|fuel IH]; intros [|cur rest] ns ns' H Hs Hq; simpl;
    try (by intros [= <-]).
  destruct (build_children cur (children (ns !!! cur)) rest ns) as [qn|] eqn:Hb;
    simpl; [|done].
  assert (Hcur : cur < length ns) by (apply Hq; left).
  destruct (build_children_sound path cur (children (ns !!! cur)) rest ns qn
              H Hs Hcur) as (H1&Hs1&Hq1); [done..|].
  apply IH; [done..|]. rewrite Hq1, (build_children_length _ _ _ _ _ Hb).
  intros x [Hx|Hx]%elem_of_app.
  - apply Hq. by right.
  - apply list_elem_of_fmap in Hx as ([k x']&->&Hin). simpl.
    destruct (ti_child _ _ H cur k x' Hcur Hin) as [Hlt _]. lia.
Qed.

Lemma build_depth1_sound path cs : forall queue ns,
  trie_inv path ns -> sound_inv path ns ->
  (forall kc, kc ∈ cs -> kc ∈ children (ns !!! root)) ->
  sound_inv path (build_depth1 cs queue ns).2.
Proof.
  induction cs as [|[k c] cs IH]; intros queue ns H Hs Hcs; simpl; [done|].
  assert (Hin : (k, c) ∈ children (ns !!! root)) by (apply Hcs; left).
  destruct (ti_child _ _ H root k c (ti_nonempty _ _ H) Hin) as [Hc Hp].
  assert (Hd : depth (ns !!! root) < depth (ns !!! c)).
  { rewrite !(ti_depth _ _ H) by (unfold root; lia).
    rewrite Hp, length_app. simpl. lia. }
  apply IH.
  - by apply trie_inv_set_fail; [|apply H|].
  - apply sound_inv_set_fail; [done|]. unfold root. rewrite (ti_root _ _ H).
    apply suffix_nil.
  - intros kc ?. destruct (set_fail_fields c (Some root) ns root) as (->&_).
    apply Hcs. by right.
Qed.

Lemma build_sound path a a' :
  trie_inv path (nodes a) -> sound_inv path (nodes a) -> build a = Some a' ->
  trie_inv path (nodes a') /\ sound_inv path (nodes a').
Proof.
  intros H Hs. unfold build. destruct (_built a); [by intros [= <-]|].
  destruct (build_bfs _ _ _) as [ns'|] eqn:Hb; simpl; [|done].
  intros [= <-]. simpl.
  destruct (build_depth1_inv path (children (nodes a !!! root)) [] (nodes a) H)
    as (H1&G1&Hq); [done|].
  apply (build_bfs_sound path _ _ _ _ H1) in Hb; [done| |].
  - by apply build_depth1_sound.
  - rewrite Hq. simpl. intros x ([k x']&->&Hin)%list_elem_of_fmap. simpl.
    rewrite (grows_length _ _ G1).
    destruct (ti_child _ _ H root k x' (ti_nonempty _ _ H) Hin). lia.
Qed.

Section WithLowerCase.

Variable toLowerCase : jsstring -> jsstring.

Lemma built_from_reachable ps a :
  built_from toLowerCase ps a -> reachable toLowerCase a.
Proof. induction 1; [constructor|by constructor|by econstructor]. Qed.

Lemma reachable_built_from a :
  reachable toLowerCase a -> exists ps, built_from toLowerCase ps a.
Proof.
  induction 1 as [|a p _ [ps IH]|a a' _ [ps IH] Hb].
  - exists []. constructor.
  - exists (ps ++ [p]). by constructor.
  - exists ps. by econstructor.
Qed.

Lemma built_from_sound ps a :
  built_from toLowerCase ps a ->
  exists path, trie_inv path (nodes a) /\ sound_inv path (nodes a).
Proof.
  induction 1 as [|ps a p _ IH|ps a a' _ IH Hb].
  - exists (fun _ => []). split; [apply trie_inv_new|]. split.
    + intros [|j] p; simpl; [|lia]. by intros _ ?%elem_of_nil.
    + intros [|j] f; simpl; [done|lia].
  - destruct IH as (path&H&Hs). unfold addPattern.
    case_bool_decide as Hp; [by exists path|].
    destruct (addPattern_walk_inv (codePoints (toLowerCase p)) root (nodes a) path H)
      as (path'&H'&Hnode&Hpn&Hlen&Hold&Hnew); [apply H|].
    destruct (addPattern_walk _ _ _) as [node ns]. simpl in *.
    unfold root in Hpn. rewrite (ti_root _ _ H) in Hpn. simpl in Hpn.
    exists path'. split; [by apply trie_inv_set_output|].
    assert (Hs' : sound_inv path' ns).
    { destruct Hs as [Ho Hf]. split.
      - intros j q Hj Hq. destruct (decide (j < length (nodes a))) as [Hja|Hja].
        + destruct (Hold j Hja) as (->&Hoj&_). rewrite Hoj in Hq. by apply Ho.
        + destruct (Hnew j) as [Hoj _]; [lia|]. rewrite Hoj in Hq.
          by apply elem_of_nil in Hq.
      - intros j f Hj Hfj. destruct (decide (j < length (nodes a))) as [Hja|Hja].
        + destruct (Hold j Hja) as (->&_&Hfo). rewrite Hfo in Hfj.
          destruct (ti_fail _ _ H j f Hja Hfj) as [Hfn _].
          destruct (Hold f Hfn) as (->&_). by apply Hf.
        + destruct (Hnew j) as [_ Hfo]; [lia|]. congruence. }
    apply sound_inv_set_output; [done|].
    intros q [Hq| ->%list_elem_of_singleton]%elem_of_app.
    + by apply Hs'.
    + by rewrite Hpn.
  - destruct IH as (path&H&Hs). exists path. by eapply build_sound.
Qed.

Lemma built_from_outputs ps a :
  built_from toLowerCase ps a ->
  forall j p, p ∈ output (nodes a !!! j) ->
    exists q, q ∈ ps /\ q <> [] /\ p = toLowerCase q.
Proof.
  induction 1 as [|ps a p Ha IH|ps a a' Ha IH Hb].
  - intros [|j] q; simpl; by intros ?%elem_of_nil.
  - assert (IH' : forall j q, q ∈ output (nodes a !!! j) ->
              exists q', q' ∈ ps ++ [p] /\ q' <> [] /\ q = toLowerCase q').
    { intros j q Hq. destruct (IH j q Hq) as (q'&?&?&?). exists q'.
      split; [|done]. apply elem_of_app. by left. }
    unfold addPattern. case_bool_decide as Hp; [done|].
    destruct (reachable_inv _ a (built_from_reachable _ _ Ha)) as [path H].
    destruct (addPattern_walk_inv (codePoints (toLowerCase p)) root (nodes a) path H)
      as (path'&H'&Hnode&_&_&Hold&Hnew); [apply H|].
    destruct (addPattern_walk _ _ _) as [node ns]. simpl in *.
    assert (Hns : forall j q, q ∈ output (ns !!! j) ->
              exists q', q' ∈ ps ++ [p] /\ q' <> [] /\ q = toLowerCase q').
    { intros j q Hq. destruct (decide (j < length (nodes a))) as [Hj|Hj].
      - destruct (Hold j Hj) as (_&Ho&_). rewrite Ho in Hq. by eapply IH'.
      - destruct (decide (j < length ns)) as [Hj'|Hj'].
        + destruct (Hnew j) as [Ho _]; [lia|]. rewrite Ho in Hq.
          by apply elem_of_nil in Hq.
        + rewrite list_lookup_total_alt, lookup_ge_None_2 in Hq by lia.
          by apply elem_of_nil in Hq. }
    intros j q.
    destruct (set_output_fields node (output (ns !!! node) ++ [toLowerCase p]) ns j)
      as (_&_&_&->).
    case_decide; [|apply Hns].
    intros [Hq| ->%list_elem_of_singleton]%elem_of_app; [by eapply Hns|].
    exists p. split; [|done]. apply elem_of_app. right. left.
  - destruct (build_total a (reachable_inv _ a (built_from_reachable _ _ Ha)))
      as (a''&Hb'&_&_&_&(_&_&Hprov)).
    assert (a'' = a') as -> by congruence.
    intros j q Hq. destruct (Hprov j q Hq) as [j' Hq']. by eapply IH.
Qed.

(** The scan keeps the current node on a suffix of the text read so far:
    what it reports ends the text read. *)
Lemma search_loop_sound path ns :
  trie_inv path ns -> sound_inv path ns ->
  forall rest pre node acc r,
    node < length ns -> path node `suffix_of` units pre ->
    search_loop ns rest (length pre) node acc = Some r ->
    forall x, x ∈ r -> x ∈ acc \/
      (exists j, pattern x ∈ output (ns !!! j)) /\
      (0 <= end_ x <= Z.of_nat (length (pre ++ rest)))%Z /\
      start x = (end_ x - Z.of_nat (length (pattern x)))%Z /\
      pattern x `suffix_of` take (Z.to_nat (end_ x)) (pre ++ rest).
Proof.
  intros H Hs rest. induction rest as [|c rest IH]; intros pre node acc r Hn Hp; simpl.
  - intros [= <-] x Hx. by left.
  - destruct (follow_fail (length ns) ns [c] (Some node)) as [[n|]|] eqn:Hff;
      simpl; [| |done].
    + destruct (follow_fail_suffix path ns [c] H Hs _ node n Hn Hff) as (Hnn&Hsuf&Hh).
      apply map_has_true in Hh as (t&Hg&Hin). rewrite Hg. simpl.
      destruct (ti_child _ _ H n [c] t Hnn Hin) as [Ht Hpt].
      assert (Hpt' : path t `suffix_of` units (pre ++ [c])).
      { rewrite Hpt. unfold units. rewrite fmap_app. simpl.
        apply suffix_app_same. by etrans. }
      intros Hloop x Hx.
      replace (S (length pre)) with (length (pre ++ [c])) in Hloop
        by (rewrite length_app; simpl; lia).
      destruct (IH (pre ++ [c]) t _ r ltac:(lia) Hpt' Hloop x Hx) as [Hacc|Hnew].
      * apply elem_of_app in Hacc as [?|Hrep]; [by left|right].
        unfold report in Hrep. apply list_elem_of_fmap in Hrep as (p&->&Hpo). simpl.
        split; [by exists t|]. split; [rewrite length_app; simpl; lia|].
        split; [lia|].
        replace (Z.to_nat (Z.of_nat (length pre) + 1)) with (length (pre ++ [c]))
          by (rewrite length_app; simpl; lia).
        rewrite (cons_middle c pre rest), app_assoc, take_app_length.
        apply codePoints_suffix_units. etrans; [|done].
        destruct Hs as [Ho _]. apply Ho; [lia|done].
      * right. by rewrite (cons_middle c pre rest), app_assoc.
    + intros Hloop x Hx.
      replace (S (length pre)) with (length (pre ++ [c])) in Hloop
        by (rewrite length_app; simpl; lia).
      destruct (IH (pre ++ [c]) root _ r (ti_nonempty _ _ H)
                  ltac:(unfold root; rewrite (ti_root _ _ H); apply suffix_nil)
                  Hloop x Hx) as [Hacc|Hnew]; [by left|right].
      by rewrite (cons_middle c pre rest), app_assoc.
Qed.

Lemma suffix_take_slice (p text : jsstring) (e : Z) :
  (0 <= e <= Z.of_nat (length text))%Z -> p `suffix_of` take (Z.to_nat e) text ->
  (0 <= e - Z.of_nat (length p))%Z /\
  slice text (e - Z.of_nat (length p)) e = p.
Proof.
  intros He [k Hk].
  assert (Hlen : length k + length p = Z.to_nat e).
  { apply (f_equal length) in Hk. rewrite length_take, length_app in Hk. lia. }
  split; [lia|]. rewrite slice_take_drop by lia.
  replace (Z.to_nat e - Z.to_nat (e - Z.of_nat (length p))) with (length p) by lia.
  replace (Z.to_nat (e - Z.of_nat (length p))) with (length k) by lia.
  rewrite <- (take_drop (Z.to_nat e) text), Hk.
  rewrite <- app_assoc, drop_app_length. by rewrite take_app_length.
Qed.

Lemma search_hits ps a text :
  built_from toLowerCase ps a ->
  exists r a', search toLowerCase text a = Some (r, a') /\
    built_from toLowerCase ps a' /\
    forall x, x ∈ r ->
      (exists p, p ∈ ps /\ p <> [] /\ pattern x = toLowerCase p) /\
      (0 <= start x)%Z /\ (end_ x <= Z.of_nat (length (toLowerCase text)))%Z /\
      start x = (end_ x - Z.of_nat (length (pattern x)))%Z /\
      slice (toLowerCase text) (start x) (end_ x) = pattern x.
Proof.
  intros Ha.
  destruct (search_total toLowerCase text a (built_from_reachable ps a Ha))
    as (r&a'&Hs&_).
  exists r, a'. split; [done|].
  unfold search in Hs. destruct (build a) as [a1|] eqn:Hb; simpl in Hs; [|done].
  destruct (search_loop (nodes a1) (toLowerCase text) 0 root []) as [r1|] eqn:Hl;
    simpl in Hs; [|done].
  injection Hs as <- <-.
  assert (Ha1 : built_from toLowerCase ps a1) by (by econstructor).
  split; [done|].
  destruct (built_from_sound ps a1 Ha1) as (path&H&Hsound).
  intros x Hx.
  destruct (search_loop_sound path (nodes a1) H Hsound (toLowerCase text) [] root [] r1
              (ti_nonempty _ _ H)
              ltac:(unfold root; rewrite (ti_root _ _ H); apply suffix_nil)
              Hl x Hx) as [Hacc|([j Hj]&Hend&Hst&Hsuf)];
    [by apply elem_of_nil in Hacc|].
  simpl in Hend, Hsuf.
  destruct (suffix_take_slice _ _ _ Hend Hsuf) as [Hpos Hslice].
  rewrite Hst. split_and!; [by eapply built_from_outputs|done|lia|done..].
Qed.

End WithLowerCase.

End SoundFacts.

(** ** More on [findTerms] and [_removeOverlaps] *)

Module MatcherMore.
Import AC Inv TM Props Sem MoreProps ACFacts SemFacts OverlapFacts MatcherFacts
  SliceFacts SoundFacts.

Lemma omap_ext_list {A B} (f g : A -> option B) (l : list A) :
  (forall x, f x = g x) -> omap f l = omap g l.
Proof.
  intros Hfg. induction l as [|x l IH]; [done|]. csimpl. by rewrite Hfg, IH.
Qed.

Lemma loop_kept sorted : forall lastEnd acc,
  removeOverlaps_loop sorted lastEnd acc = acc ++ kept sorted lastEnd.
Proof.
  induction sorted as [|m sorted IH]; intros lastEnd acc; simpl.
  - by rewrite app_nil_r.
  - destruct (v_start m <? lastEnd)%Z; [done|].
    by rewrite IH, <- app_assoc.
Qed.

Lemma removeOverlaps_kept matches :
  _removeOverlaps matches = kept (sort compareMatches matches) (-1).
Proof.
  unfold _removeOverlaps. case_bool_decide as E; [by rewrite E|].
  by rewrite loop_kept.
Qed.

Lemma kept_idem sorted : forall lastEnd,
  kept (kept sorted lastEnd) lastEnd = kept sorted lastEnd.
Proof.
  induction sorted as [|m sorted IH]; intros lastEnd; simpl; [done|].
  destruct (v_start m <? lastEnd)%Z eqn:E; [done|].
  simpl. by rewrite E, IH.
Qed.

Lemma kept_subset sorted : forall lastEnd x, x ∈ kept sorted lastEnd -> x ∈ sorted.
Proof.
  induction sorted as [|m sorted IH]; intros lastEnd x; simpl; [done|].
  destruct (v_start m <? lastEnd)%Z.
  - intros ?%IH. by right.
  - intros [-> |?%IH]%elem_of_cons; [left|by right].
Qed.

Lemma kept_sorted (R : ValidMatch -> ValidMatch -> Prop) sorted : forall lastEnd,
  StronglySorted R sorted -> StronglySorted R (kept sorted lastEnd).
Proof.
  induction sorted as [|m sorted IH]; intros lastEnd Hs; simpl; [done|].
  apply StronglySorted_inv in Hs as [Hs Hm].
  destruct (v_start m <? lastEnd)%Z; [by apply IH|].
  constructor; [by apply IH|].
  apply Forall_forall. intros x Hx%kept_subset.
  rewrite Forall_forall in Hm. by apply Hm.
Qed.

Lemma sort_sorted_id l :
  StronglySorted sortsBefore l -> sort compareMatches l = l.
Proof.
  induction 1 as [|x l Hl IH Hx]; [done|].
  simpl. rewrite IH. destruct l as [|y l']; [done|]. simpl.
  apply Forall_cons in Hx as [Hxy _]. unfold sortsBefore in Hxy.
  by rewrite (proj2 (Z.leb_le _ _) Hxy).
Qed.

(** A hit of the sorted input that the scan drops starts before [lastEnd]
    or inside a hit that the scan keeps and that sorts before it. *)
Lemma kept_or_covered sorted : forall lastEnd c,
  StronglySorted sortsBefore sorted -> c ∈ sorted ->
  c ∈ kept sorted lastEnd \/ (v_start c < lastEnd)%Z \/
  exists k, k ∈ kept sorted lastEnd /\ sortsBefore k c /\ (v_start c < v_end k)%Z.
Proof.
  induction sorted as [|m sorted IH]; intros lastEnd c Hs Hc;
    [by apply elem_of_nil in Hc|].
  apply StronglySorted_inv in Hs as [Hs Hm]. simpl.
  destruct (Z.ltb_spec (v_start m) lastEnd) as [Hlt|Hge].
  - apply elem_of_cons in Hc as [-> |Hc]; [by right; left|]. by apply IH.
  - apply elem_of_cons in Hc as [-> |Hc]; [left; left|].
    destruct (IH (v_end m) c Hs Hc) as [Hk|[Hlt|(k&Hk&Hkc&Hck)]].
    + left. by right.
    + right. right. exists m. split_and!; [left| |done].
      rewrite Forall_forall in Hm. by apply Hm.
    + right. right. exists k. split_and!; [by right|done..].
Qed.

(** Each hit the scan keeps starts at or after [lastEnd] and after the end
    of the hit kept before it. *)
Lemma kept_chain sorted : forall lastEnd,
  (forall x, x ∈ sorted -> (v_start x <= v_end x)%Z) ->
  StronglySorted v_precedes (kept sorted lastEnd) /\
  forall x, x ∈ kept sorted lastEnd -> (lastEnd <= v_start x)%Z.
Proof.
  induction sorted as [|m sorted IH]; intros lastEnd Hpos; simpl.
  - split; [constructor|]. by intros x ?%elem_of_nil.
  - assert (Hpos' : forall x, x ∈ sorted -> (v_start x <= v_end x)%Z).
    { intros x Hx. apply Hpos. by right. }
    assert (Hm : (v_start m <= v_end m)%Z) by (apply Hpos; left).
    destruct (Z.ltb_spec (v_start m) lastEnd) as [Hlt|Hge]; [by apply IH|].
    destruct (IH (v_end m) Hpos') as [Hch Hlb]. split.
    + constructor; [done|]. apply Forall_forall. intros x Hx. by apply Hlb.
    + intros x [-> |Hx]%elem_of_cons; [done|]. specialize (Hlb x Hx). lia.
Qed.

Section WithBuiltins.

Variable toLowerCase : jsstring -> jsstring.
Variable BETA_TERM_LEVELS : list jsstring.

Lemma addPatterns_built ps : forall ps0 a,
  built_from toLowerCase ps0 a ->
  built_from toLowerCase (ps0 ++ ps) (addPatterns toLowerCase ps a).
Proof.
  induction ps as [|p ps IH]; intros ps0 a Ha; simpl.
  - by rewrite app_nil_r.
  - rewrite (cons_middle p ps0 ps), app_assoc. apply IH. by constructor.
Qed.

Lemma matcher_ok_loaded m :
  matcher_ok toLowerCase m -> exists ps, loaded_patterns toLowerCase m ps.
Proof.
  intros [ps0 H]%reachable_built_from. unfold loaded_patterns.
  destruct (_initialized m); [by exists ps0|].
  exists (ps0 ++ getAllPatterns (index m)), ps0. done.
Qed.

Lemma matcher_wf_loaded m :
  matcher_wf toLowerCase m ->
  loaded_patterns toLowerCase m (getAllPatterns (index m)).
Proof.
  unfold matcher_wf, loaded_patterns. destruct (_initialized m); [done|].
  intros ->. exists []. split; [constructor|done].
Qed.

Lemma matcher_wf_create idx : matcher_wf toLowerCase (createTermMatcher idx).
Proof. done. Qed.

Lemma matcher_wf_setUserLevel lvl m :
  matcher_wf toLowerCase m -> matcher_wf toLowerCase (setUserLevel lvl m).
Proof. done. Qed.

Lemma matcher_wf_setBetaFeatures enabled m :
  matcher_wf toLowerCase m -> matcher_wf toLowerCase (setBetaFeatures enabled m).
Proof. done. Qed.

Lemma loaded_ok m ps : loaded_patterns toLowerCase m ps -> matcher_ok toLowerCase m.
Proof.
  unfold loaded_patterns, matcher_ok. destruct (_initialized m).
  - apply built_from_reachable.
  - intros (ps0&H&_). by eapply built_from_reachable.
Qed.

Lemma matcher_wf_ok m : matcher_wf toLowerCase m -> matcher_ok toLowerCase m.
Proof. intros H%matcher_wf_loaded. by eapply loaded_ok. Qed.

Lemma initialize_loaded m ps :
  loaded_patterns toLowerCase m ps ->
  exists m1, initialize toLowerCase m = Some m1 /\
    built_from toLowerCase ps (automaton m1) /\ _initialized m1 = true /\
    index m1 = index m /\ userLevel m1 = userLevel m /\
    enableBetaFeatures m1 = enableBetaFeatures m.
Proof.
  intros Hl. unfold initialize. unfold loaded_patterns in Hl.
  destruct (_initialized m) eqn:Hi; [by exists m|].
  destruct Hl as (ps0&H0&->).
  pose proof (addPatterns_built (getAllPatterns (index m)) ps0 _ H0) as Hb.
  destruct (build_total _ (reachable_inv _ _ (built_from_reachable _ _ _ Hb)))
    as (a&Ha&_).
  rewrite Ha. simpl. eexists. split_and!; [done| |done..].
  simpl. by econstructor.
Qed.

(** Every run of [findTerms]: it returns the overlap resolution of the
    accepted hits, each of which passed [accept] on a raw hit that is an
    occurrence of a pattern of the automaton in the lowercased text. *)
Lemma findTerms_hits text m ps :
  loaded_patterns toLowerCase m ps ->
  exists m' cands,
    findTerms toLowerCase BETA_TERM_LEVELS text m
      = Some (toOutput <$> _removeOverlaps cands, m') /\
    candidates toLowerCase BETA_TERM_LEVELS text m = Some cands /\
    built_from toLowerCase ps (automaton m') /\ _initialized m' = true /\
    index m' = index m /\ userLevel m' = userLevel m /\
    enableBetaFeatures m' = enableBetaFeatures m /\
    forall v, v ∈ cands ->
      exists r, accept BETA_TERM_LEVELS m text r = Some v /\
        (exists p, p ∈ ps /\ p <> [] /\ pattern r = toLowerCase p) /\
        (0 <= start r)%Z /\ (end_ r <= Z.of_nat (length (toLowerCase text)))%Z /\
        start r = (end_ r - Z.of_nat (length (pattern r)))%Z /\
        slice (toLowerCase text) (start r) (end_ r) = pattern r.
Proof.
  intros Hl. unfold findTerms, candidates.
  destruct (initialize_loaded m ps Hl) as (m1&->&Hb1&Hi1&Hi&Hu&He). simpl.
  case_bool_decide as Ht.
  { exists m1, []. split_and!; [done..|]. by intros v ?%elem_of_nil. }
  destruct (search_hits toLowerCase ps (automaton m1) text Hb1) as (raw&a'&Hs&Hb'&Hraw).
  rewrite Hs. simpl.
  set (m2 := set_automaton a' (_initialized m1) m1).
  exists m2, (validMatches BETA_TERM_LEVELS m2 text raw).
  split_and!; [|done..|].
  - case_bool_decide as Hr; [|done]. by rewrite Hr.
  - intros v Hv. unfold validMatches in Hv.
    apply list_elem_of_omap in Hv as (r&Hr&Hacc).
    exists r. split; [|by apply Hraw].
    rewrite <- Hacc. symmetry. apply accept_ext; simpl; congruence.
Qed.

(** [findTerms] reads of the matcher its index, its automaton, and the
    verdicts of the level filter. *)
Lemma findTerms_ext text m m' :
  index m' = index m -> automaton m' = automaton m ->
  _initialized m' = _initialized m ->
  (forall termId, keepTerm BETA_TERM_LEVELS m' termId
                  = keepTerm BETA_TERM_LEVELS m termId) ->
  fst <$> findTerms toLowerCase BETA_TERM_LEVELS text m'
  = fst <$> findTerms toLowerCase BETA_TERM_LEVELS text m.
Proof.
  intros Hidx Ha Hi Hk.
  assert (Hacc : forall r, accept BETA_TERM_LEVELS m' text r
                           = accept BETA_TERM_LEVELS m text r).
  { intros r. unfold accept, _isValidCaseMatch, _filterByLevel. rewrite Hidx.
    destruct (getTermIdsForPattern (index m) (pattern r)) as [[|t ts]|]; [done| |done].
    assert (filter (fun termId => keepTerm BETA_TERM_LEVELS m' termId = true) (t :: ts)
            = filter (fun termId => keepTerm BETA_TERM_LEVELS m termId = true) (t :: ts))
      as ->; [|done].
    apply list_filter_iff. intros termId. by rewrite Hk. }
  assert (Hval : forall mm mm' raw,
            index mm = index m -> userLevel mm = userLevel m ->
            enableBetaFeatures mm = enableBetaFeatures m ->
            index mm' = index m' -> userLevel mm' = userLevel m' ->
            enableBetaFeatures mm' = enableBetaFeatures m' ->
            validMatches BETA_TERM_LEVELS mm' text raw
            = validMatches BETA_TERM_LEVELS mm text raw).
  { intros mm mm' raw ? ? ? ? ? ?. unfold validMatches. apply omap_ext_list.
    intros r. rewrite (accept_ext BETA_TERM_LEVELS m' mm') by done.
    rewrite (accept_ext BETA_TERM_LEVELS m mm) by done. apply Hacc. }
  unfold findTerms, initialize. rewrite Hi, Ha, Hidx.
  destruct (_initialized m) eqn:Him; simpl.
  - destruct (bool_decide (text = [])); [done|]. rewrite Ha.
    destruct (search toLowerCase text (automaton m)) as [[raw a']|]; simpl; [|done].
    destruct (bool_decide (raw = [])); [done|]. simpl.
    by rewrite (Hval (set_automaton a' (_initialized m) m)
                     (set_automaton a' (_initialized m') m')).
  - destruct (build _) as [a|]; simpl; [|done].
    destruct (bool_decide (text = [])); [done|].
    destruct (search toLowerCase text a) as [[raw a']|]; simpl; [|done].
    destruct (bool_decide (raw = [])); [done|]. simpl.
    by rewrite (Hval (set_automaton a' true (set_automaton a true m))
                     (set_automaton a' true (set_automaton a true m'))).
Qed.

(** With a [toLowerCase] that keeps non-empty strings non-empty, the result
    of [findTerms] is a chain of non-empty spans from index 0 on. *)
Lemma findTerms_chain text m :
  (forall s, s <> [] -> toLowerCase s <> []) ->
  matcher_ok toLowerCase m ->
  exists out m',
    findTerms toLowerCase BETA_TERM_LEVELS text m = Some (out, m') /\
    StronglySorted precedes out /\
    forall x, x ∈ out -> (0 <= m_start x < m_end x)%Z.
Proof.
  intros Hlow Hm. destruct (matcher_ok_loaded m Hm) as [ps Hl].
  destruct (findTerms_hits text m ps Hl) as (m'&cands&Hf&_&_&_&_&_&_&Hc).
  eexists _, m'. split; [done|].
  assert (Hpos : forall v, v ∈ cands -> (0 <= v_start v < v_end v)%Z).
  { intros v Hv. destruct (Hc v Hv) as (r&Hacc&(p&_&Hp&Hpr)&H0&_&Hst&_).
    apply accept_fields in Hacc as (->&->&_).
    assert (pattern r <> []) by (rewrite Hpr; by apply Hlow).
    destruct (pattern r); [done|]. simpl in Hst. lia. }
  split.
  - apply chain_out. apply removeOverlaps_chain. intros v Hv.
    specialize (Hpos v Hv). lia.
  - intros x (v&Hv&_&->)%elem_of_out. simpl. by apply Hpos.
Qed.

End WithBuiltins.

End MatcherMore.

(** ** The maps of the index *)

Module MapFacts.
Import StringOps.

Lemma Map_get_elem {V} k (m : Map V) v : Map_get k m = Some v -> (k, v) ∈ m.
Proof.
  induction m as [|[k' v'] m IH]; simpl; [done|].
  case_bool_decide as E.
  - intros [= ->]. subst. left.
  - intros ?%IH. by right.
Qed.

Lemma Map_get_None {V} k (m : Map V) : Map_get k m = None <-> k ∉ Map_keys m.
Proof.
  unfold Map_keys. induction m as [|[k' v'] m IH]; simpl.
  - split; [intros _ ?%elem_of_nil; done|done].
  - rewrite not_elem_of_cons. case_bool_decide as E.
    + split; [done|]. intros [? _]. by subst.
    + rewrite IH. split; [by split|by intros [_ ?]].
Qed.

Lemma Map_has_keys {V} k (m : Map V) : Map_has k m = true <-> k ∈ Map_keys m.
Proof.
  unfold Map_has. destruct (Map_get k m) as [v|] eqn:E.
  - split; [intros _|done]. apply Map_get_elem in E.
    unfold Map_keys. apply list_elem_of_fmap. by exists (k, v).
  - apply Map_get_None in E. split; [done|]. intros. done.
Qed.

Lemma Map_has_false {V} k (m : Map V) : Map_has k m = false <-> k ∉ Map_keys m.
Proof. rewrite <- Map_has_keys. by destruct (Map_has k m). Qed.

Lemma Map_get_set {V} k k' v (m : Map V) :
  Map_get k' (Map_set k v m) = if bool_decide (k = k') then Some v else Map_get k' m.
Proof.
  induction m as [|[k0 v0] m IH]; simpl; [done|].
  destruct (decide (k0 = k)) as [-> |Hk0].
  - rewrite (bool_decide_eq_true_2 (k = k)) by done. simpl.
    by destruct (bool_decide (k = k')).
  - rewrite (bool_decide_eq_false_2 (k0 = k)) by done. simpl. rewrite IH.
    destruct (decide (k0 = k')) as [-> |Hk'].
    + rewrite (bool_decide_eq_true_2 (k' = k')) by done.
      by rewrite bool_decide_eq_false_2 by congruence.
    + by rewrite (bool_decide_eq_false_2 (k0 = k')) by done.
Qed.

Lemma Map_keys_set {V} k v (m : Map V) :
  Map_keys (Map_set k v m) = if Map_has k m then Map_keys m else Map_keys m ++ [k].
Proof.
  unfold Map_keys, Map_has. induction m as [|[k0 v0] m IH]; simpl; [done|].
  case_bool_decide as E0; simpl; [by subst|].
  destruct (Map_get k m); simpl; f_equal; exact IH.
Qed.

Lemma Map_set_same {V} k v (m : Map V) : Map_get k m = Some v -> Map_set k v m = m.
Proof.
  induction m as [|[k0 v0] m IH]; simpl; [done|].
  case_bool_decide as E0; [by intros [= ->]|]. intros ?%IH. by f_equal.
Qed.

Lemma Map_set_set {V} k v v' (m : Map V) :
  Map_set k v' (Map_set k v m) = Map_set k v' m.
Proof.
  induction m as [|[k0 v0] m IH]; simpl.
  - by rewrite bool_decide_eq_true_2.
  - case_bool_decide as E0; simpl.
    + by rewrite bool_decide_eq_true_2.
    + rewrite bool_decide_eq_false_2 by done. by rewrite IH.
Qed.

Lemma Map_get_NoDup {V} k v (m : Map V) :
  NoDup (Map_keys m) -> (k, v) ∈ m -> Map_get k m = Some v.
Proof.
  unfold Map_keys. induction m as [|[k0 v0] m IH]; simpl; [by intros _ ?%elem_of_nil|].
  intros [Hk Hnd]%NoDup_cons [[= -> ->]|Hin]%elem_of_cons.
  - by rewrite bool_decide_eq_true_2.
  - case_bool_decide as E; [|by apply IH].
    subst k0. exfalso. apply Hk. apply list_elem_of_fmap. by exists (k, v).
Qed.

Lemma Map_keys_set_NoDup {V} k v (m : Map V) :
  NoDup (Map_keys m) -> NoDup (Map_keys (Map_set k v m)).
Proof.
  intros Hnd. rewrite Map_keys_set. destruct (Map_has k m) eqn:E; [done|].
  apply Map_has_false in E. apply NoDup_app. split_and!; [done| |apply NoDup_singleton].
  by intros x Hx ->%list_elem_of_singleton.
Qed.

Lemma Map_keys_set_elem {V} k v (m : Map V) q :
  q ∈ Map_keys (Map_set k v m) <-> q = k \/ q ∈ Map_keys m.
Proof.
  rewrite Map_keys_set. destruct (Map_has k m) eqn:E.
  - apply Map_has_keys in E. split; [by right|]. by intros [-> |?].
  - rewrite elem_of_app, list_elem_of_singleton. tauto.
Qed.

End MapFacts.

(** ** The extraction of patterns and the loading of terms *)

Module GlossaryFacts.
Import StringOps Glossary IndexProps MapFacts.

Lemma replace_runs_no_space s : forall inRun c,
  c ∈ replace_runs inRun s -> isWhiteSpace c = false.
Proof.
  induction s as [|d s IH]; intros inRun c; simpl; [by intros ?%elem_of_nil|].
  destruct (isWhiteSpace d) eqn:Hd.
  - destruct inRun; [apply IH|].
    intros [-> |?]%elem_of_cons; [done|by eapply IH].
  - intros [-> |?]%elem_of_cons; [done|by eapply IH].
Qed.

Lemma or_str_nonempty v d : d <> [] -> or_str v d <> [].
Proof. intros Hd. unfold or_str. destruct v as [s|]; [|done]. by case_bool_decide. Qed.

Lemma add_id_elem termId old : termId ∈ add_id termId old.
Proof.
  unfold add_id. case_bool_decide; [done|]. apply elem_of_app. right. left.
Qed.

Lemma add_id_prefix termId old : old `prefix_of` add_id termId old.
Proof. unfold add_id. case_bool_decide; [done|]. by apply prefix_app_r. Qed.

Lemma add_id_NoDup termId old : NoDup old -> NoDup (add_id termId old).
Proof.
  intros Hnd. unfold add_id. case_bool_decide as E; [done|].
  apply NoDup_app. split_and!; [done| |apply NoDup_singleton].
  by intros x Hx ->%list_elem_of_singleton.
Qed.

Lemma add_id_inv termId old id : id ∈ add_id termId old -> id ∈ old \/ id = termId.
Proof.
  unfold add_id. case_bool_decide; [by left|].
  intros [?| ->%list_elem_of_singleton]%elem_of_app; [by left|by right].
Qed.

Section WithBuiltins.

Variable toLowerCase toUpperCase trim : jsstring -> jsstring.

Lemma shouldBeCaseSensitive_shape pattern original isFromAbbr :
  exists meta,
    IndexLoader.shouldBeCaseSensitive toLowerCase toUpperCase trim
      pattern original isFromAbbr = Ok meta /\
    metadata_shape meta.
Proof.
  unfold IndexLoader.shouldBeCaseSensitive, metadata_shape.
  generalize (trim (toLowerCase pattern)) (trim original).
  intros normalized originalStripped.
  destruct (bool_decide (normalized ∈ EXCLUDED_PATTERNS)); [by eauto|].
  destruct originalStripped as [|c rest].
  - destruct isFromAbbr, (length normalized <=? 6), (length normalized <=? 4),
      (bool_decide ([] = toUpperCase [])), (2 <=? length normalized),
      (IndexLoader.test_all_a_z normalized),
      (bool_decide (normalized ∈ IndexLoader.commonWords)); simpl; eauto.
  - destruct isFromAbbr, (length normalized <=? 6), (length normalized <=? 4),
      (bool_decide (c :: rest = toUpperCase (c :: rest))),
      (IndexLoader.test_A_Z (c :: rest)), (2 <=? length normalized),
      (IndexLoader.test_all_a_z normalized),
      (bool_decide (normalized ∈ IndexLoader.commonWords)),
      (bool_decide ([c] = toUpperCase [c])), (bool_decide (rest = toLowerCase rest));
      simpl; eauto.
Qed.

(** *** [extractPatternsFromTerm] *)

Lemma extract_step_inv a b st p :
  (b = true -> a = true) ->
  extract_inv toLowerCase trim st ->
  extract_inv toLowerCase trim (extract_step toLowerCase trim a b st p).
Proof.
  intros Hba Hst. pose proof Hst as (Hp&Hnd&Hok). unfold extract_step.
  set (n := normalizePattern toLowerCase trim p).
  destruct (bool_decide (n = [])) eqn:E1; cbn [negb andb]; [exact Hst|].
  destruct (negb a || (2 <=? length n)) eqn:E2; cbn [andb]; [|exact Hst].
  destruct (bool_decide (n ∈ st.2)) eqn:E3; cbn [negb]; [exact Hst|].
  destruct (isPatternExcluded toLowerCase trim n) eqn:E4; cbn [negb]; [exact Hst|].
  apply bool_decide_eq_false in E1, E3.
  split_and!; cbn [fst snd].
  - by rewrite fmap_app, Hp.
  - apply NoDup_app. split_and!; [done| |apply NoDup_singleton].
    by intros x Hx ->%list_elem_of_singleton.
  - intros e [He| ->%list_elem_of_singleton]%elem_of_app; [by apply Hok|].
    split_and!; cbn [pattern original isFromAbbr]; [done..| |by exists p].
    intros Hb. rewrite (Hba Hb) in E2. cbn [negb orb] in E2. by apply Nat.leb_le in E2.
Qed.

Lemma extract_field_inv a b field st :
  (b = true -> a = true) ->
  extract_inv toLowerCase trim st ->
  extract_inv toLowerCase trim (extract_field toLowerCase trim a b field st).
Proof.
  intros Hba. unfold extract_field. destruct field as [items|]; [|done].
  revert st. induction items as [|p items IH]; intros st Hst; simpl; [done|].
  apply IH. by apply extract_step_inv.
Qed.

Lemma extract_step_mono a b st p x :
  x ∈ st.2 -> x ∈ (extract_step toLowerCase trim a b st p).2.
Proof.
  intros Hx. unfold extract_step.
  destruct (_ && _ && _); [|done]. destruct (negb _); [|done].
  cbn [fst snd]. apply elem_of_app. by left.
Qed.

Lemma extract_field_mono a b field st x :
  x ∈ st.2 -> x ∈ (extract_field toLowerCase trim a b field st).2.
Proof.
  unfold extract_field. destruct field as [items|]; [|done].
  revert st. induction items as [|p items IH]; intros st Hst; simpl; [done|].
  apply IH. by apply extract_step_mono.
Qed.

(** A form of the field is among the patterns after its loop, unless it is
    blank, excluded or, in the loops that ask for two units, shorter. *)
Lemma extract_field_adds a b items st p :
  p ∈ items ->
  normalizePattern toLowerCase trim p <> [] ->
  isPatternExcluded toLowerCase trim (normalizePattern toLowerCase trim p) = false ->
  (a = true -> 2 <= length (normalizePattern toLowerCase trim p)) ->
  normalizePattern toLowerCase trim p
    ∈ (extract_field toLowerCase trim a b (Some items) st).2.
Proof.
  intros Hin Hne Hex Hlen. simpl. revert st.
  induction items as [|q items IH]; intros st; [by apply elem_of_nil in Hin|].
  simpl. apply elem_of_cons in Hin as [<- |Hin]; [|by apply IH].
  apply (extract_field_mono a b (Some items)).
  unfold extract_step.
  rewrite (bool_decide_eq_false_2 _ Hne), Hex.
  assert (negb a || (2 <=? length (normalizePattern toLowerCase trim p)) = true) as ->.
  { destruct a; [|done]. cbn [negb orb]. apply Nat.leb_le. by apply Hlen. }
  cbn [negb andb]. case_bool_decide as Hseen; cbn [negb fst snd]; [done|].
  apply elem_of_app. right. left.
Qed.

Lemma extractPatterns_inv termData :
  extract_inv toLowerCase trim
    (extract_field toLowerCase trim true true (TermData.abbr termData)
       (extract_field toLowerCase trim false false (TermData.aliases termData)
          (extract_field toLowerCase trim false false (TermData.names termData)
             (extract_field toLowerCase trim true false (TermData.patterns termData)
                ([], []))))).
Proof.
  do 4 (apply extract_field_inv; [done|]). split_and!; [done|constructor|].
  by intros e ?%elem_of_nil.
Qed.

(** *** [loadTerm] *)

Lemma index_le_refl g : index_le g g.
Proof. split; [done|]. intros p ids ?. by exists ids. Qed.

Lemma index_le_trans g1 g2 g3 : index_le g1 g2 -> index_le g2 g3 -> index_le g1 g3.
Proof.
  intros [M1 P1] [M2 P2]. split; [by auto|].
  intros p ids Hp. destruct (P1 p ids Hp) as (ids1&H1&L1).
  destruct (P2 p ids1 H1) as (ids2&H2&L2). exists ids2. split; [done|by etrans].
Qed.

(** One pattern of a term: its identifier is recorded for the pattern, the
    metadata of the pattern is set unless it has some. *)
Lemma loadTerm_step_spec termId g e :
  exists g' meta, loadTerm_step toLowerCase toUpperCase trim termId g e = Ok g' /\
    metadata_shape meta /\
    patterns g' = Map_set (pattern e)
                    (add_id termId (default [] (Map_get (pattern e) (patterns g))))
                    (patterns g) /\
    patternMetadata g' = (if Map_has (pattern e) (patternMetadata g)
                          then patternMetadata g
                          else Map_set (pattern e) meta (patternMetadata g)) /\
    terms g' = terms g /\ tags g' = tags g /\ allPatterns g' = allPatterns g /\
    _loaded g' = _loaded g.
Proof.
  unfold loadTerm_step.
  destruct (shouldBeCaseSensitive_shape (pattern e) (original e) (isFromAbbr e))
    as (meta&Hmeta&Hshape). rewrite Hmeta.
  set (ps2 := if bool_decide (termId ∈ _) then _ else _).
  assert (Hps : ps2 = Map_set (pattern e)
                  (add_id termId (default [] (Map_get (pattern e) (patterns g))))
                  (patterns g)).
  { subst ps2. unfold Map_has, add_id.
    destruct (Map_get (pattern e) (patterns g)) as [old|] eqn:Hold; simpl.
    - rewrite Hold. simpl. case_bool_decide; [|done]. by rewrite Map_set_same.
    - rewrite Map_get_set, (bool_decide_eq_true_2 (pattern e = pattern e)) by done.
      simpl. by rewrite Map_set_set. }
  destruct (Map_has (pattern e) (patternMetadata g)) eqn:Hhas.
  - eexists _, meta. split; [done|]. by rewrite <- Hps.
  - eexists _, meta. split; [done|]. rewrite <- Hps. by destruct meta.
Qed.

Lemma loadTerm_step_le termId g e g' :
  loadTerm_step toLowerCase toUpperCase trim termId g e = Ok g' -> index_le g g'.
Proof.
  intros Hs. destruct (loadTerm_step_spec termId g e) as (g1&meta&Hs1&_&Hp&Hm&_).
  assert (g1 = g') as -> by congruence. split.
  - intros p m Hpm. rewrite Hm. destruct (Map_has (pattern e) (patternMetadata g)) eqn:E;
      [done|].
    rewrite Map_get_set. case_bool_decide as Heq; [|done]. subst p.
    unfold Map_has in E. by rewrite Hpm in E.
  - intros p ids Hpi. rewrite Hp, Map_get_set. case_bool_decide as Heq.
    + subst p. rewrite Hpi. simpl. eexists. split; [done|]. apply add_id_prefix.
    + by exists ids.
Qed.

Lemma loadTerm_step_inv termId g e g' :
  index_inv toLowerCase trim g -> extracted_ok toLowerCase trim e ->
  (exists t, Map_get termId (terms g) = Some t) ->
  loadTerm_step toLowerCase toUpperCase trim termId g e = Ok g' ->
  index_inv toLowerCase trim g'.
Proof.
  intros H (Hne&Hex&_&raw&Hraw&_) Ht Hs.
  destruct (loadTerm_step_spec termId g e) as (g1&meta&Hs1&Hshape&Hp&Hm&Hterms&_).
  assert (g1 = g') as -> by congruence.
  assert (Hhas : Map_has (pattern e) (patternMetadata g) = Map_has (pattern e) (patterns g)).
  { destruct (Map_has (pattern e) (patterns g)) eqn:E.
    - apply Map_has_keys. rewrite (ii_keys _ _ _ H). by apply Map_has_keys.
    - apply Map_has_false. rewrite (ii_keys _ _ _ H). by apply Map_has_false. }
  split.
  - rewrite Hp, Hm, Map_keys_set, Hhas.
    destruct (Map_has (pattern e) (patterns g)) eqn:E; [apply H|].
    rewrite Map_keys_set, Hhas. f_equal. apply H.
  - rewrite Hp. apply Map_keys_set_NoDup, H.
  - rewrite Hterms. apply H.
  - intros p ids. rewrite Hp, Hterms, Map_get_set. case_bool_decide as Heq.
    + intros [= <-]. split_and!.
      * pose proof (add_id_elem termId (default [] (Map_get (pattern e) (patterns g)))) as Hin.
        intros Hnil. rewrite Hnil in Hin. by apply elem_of_nil in Hin.
      * apply add_id_NoDup. destruct (Map_get (pattern e) (patterns g)) as [old|] eqn:Hold;
          simpl; [|constructor]. by destruct (ii_ids _ _ _ H _ _ Hold) as (_&?&_).
      * intros id [Hid| ->]%add_id_inv; [|done].
        destruct (Map_get (pattern e) (patterns g)) as [old|] eqn:Hold; simpl in Hid;
          [|by apply elem_of_nil in Hid].
        destruct (ii_ids _ _ _ H _ _ Hold) as (_&_&Hall). by apply Hall.
    + apply H.
  - rewrite Hterms. apply H.
  - intros p. rewrite Hp. intros [-> |Hin]%Map_keys_set_elem; [|by apply H].
    split_and!; [done..|by exists raw].
  - intros p m. rewrite Hm.
    destruct (Map_has (pattern e) (patternMetadata g)); [apply H|].
    rewrite Map_get_set. case_bool_decide; [by intros [= <-]|apply H].
Qed.

Lemma loadTerm_loop_spec termId es : forall g,
  exists g', loadTerm_loop toLowerCase toUpperCase trim termId es g = Ok g' /\
    index_le g g' /\ terms g' = terms g /\ tags g' = tags g /\
    allPatterns g' = allPatterns g /\ _loaded g' = _loaded g /\
    (forall e, e ∈ es ->
       (exists ids, Map_get (pattern e) (patterns g') = Some ids /\ termId ∈ ids) /\
       exists meta, Map_get (pattern e) (patternMetadata g') = Some meta) /\
    (index_inv toLowerCase trim g ->
     (forall e, e ∈ es -> extracted_ok toLowerCase trim e) ->
     (exists t, Map_get termId (terms g) = Some t) ->
     index_inv toLowerCase trim g').
Proof.
  induction es as [|e es IH]; intros g; simpl.
  - exists g. split_and!; [done|apply index_le_refl|done..| |done].
    by intros e ?%elem_of_nil.
  - destruct (loadTerm_step_spec termId g e) as (g1&meta&Hs1&_&Hp1&Hm1&Ht1&Hg1&Ha1&Hl1).
    rewrite Hs1.
    destruct (IH g1) as (g'&Hl&Hle&Ht&Hg&Ha&Hld&Hids&Hinv).
    exists g'. split_and!; [done| |congruence..| |].
    + eapply index_le_trans; [by eapply loadTerm_step_le|done].
    + intros e' [-> |He']%elem_of_cons; [|by apply Hids].
      destruct Hle as [Hmeta Hpre]. split.
      * destruct (Hpre (pattern e)
                    (add_id termId (default [] (Map_get (pattern e) (patterns g)))))
          as (ids'&Hget&Hpr).
        { by rewrite Hp1, Map_get_set, bool_decide_eq_true_2. }
        exists ids'. split; [done|]. eapply elem_of_prefix; [apply add_id_elem|done].
      * assert (exists m1, Map_get (pattern e) (patternMetadata g1) = Some m1) as [m1 Hm].
        { rewrite Hm1. unfold Map_has.
          destruct (Map_get (pattern e) (patternMetadata g)) as [m0|] eqn:E; [by eexists|].
          rewrite Map_get_set, bool_decide_eq_true_2 by done. by eexists. }
        exists m1. by apply Hmeta.
    + intros H Hok Hterm. apply Hinv.
      * eapply loadTerm_step_inv; [done| |done..]. apply Hok. left.
      * intros e' He'. apply Hok. by right.
      * by rewrite Ht1.
Qed.

Lemma set_terms_inv g termId termData :
  index_inv toLowerCase trim g ->
  index_inv toLowerCase trim
    (set_terms (Map_set termId (termMetadata termId termData) (terms g)) g).
Proof.
  intros H. split; simpl; try apply H.
  - apply Map_keys_set_NoDup, H.
  - intros p ids Hp. destruct (ii_ids _ _ _ H p ids Hp) as (?&?&Hall).
    split_and!; [done..|]. intros id Hid. rewrite Map_get_set.
    case_bool_decide; [by eexists|by apply Hall].
  - intros id t. rewrite Map_get_set. case_bool_decide as Heq; [|apply H].
    intros [= <-]. simpl. split; [done|]. by apply or_str_nonempty.
Qed.

(** [loadTerm] returns; it keeps what the index held, stores the metadata
    of the term under its identifier, and records the identifier for every
    pattern extracted from the term. *)
Lemma loadTerm_spec g termData :
  exists g', loadTerm toLowerCase toUpperCase trim g termData = Ok g' /\
    index_le g g' /\ tags g' = tags g /\
    allPatterns g' = allPatterns g /\ _loaded g' = _loaded g /\
    (index_inv toLowerCase trim g -> index_inv toLowerCase trim g') /\
    match termIdOf toLowerCase termData with
    | None => g' = g
    | Some termId =>
        terms g' = Map_set termId (termMetadata termId termData) (terms g) /\
        forall e, e ∈ extractPatternsFromTerm toLowerCase trim termData ->
          (exists ids, Map_get (pattern e) (patterns g') = Some ids /\ termId ∈ ids) /\
          exists meta, Map_get (pattern e) (patternMetadata g') = Some meta
    end.
Proof.
  unfold loadTerm. destruct (termIdOf toLowerCase termData) as [termId|].
  - set (g0 := set_terms _ g).
    destruct (loadTerm_loop_spec termId
                (extractPatternsFromTerm toLowerCase trim termData) g0)
      as (g'&Hl&Hle&Ht&Hg&Ha&Hld&Hids&Hinv).
    exists g'. split; [done|]. split; [exact Hle|]. split; [exact Hg|].
    split; [exact Ha|]. split; [exact Hld|]. split; [|split; [exact Ht|exact Hids]].
    intros H. apply Hinv.
    + by apply set_terms_inv.
    + intros e He. by apply (extractPatterns_inv termData).
    + simpl. rewrite Map_get_set, bool_decide_eq_true_2 by done. by eexists.
  - exists g. split_and!; [done|apply index_le_refl|done..].
Qed.

Lemma loadTerms_spec ts : forall g,
  exists g', loadTerms toLowerCase toUpperCase trim ts g = Ok g' /\
    index_le g g' /\ tags g' = tags g /\
    (index_inv toLowerCase trim g -> index_inv toLowerCase trim g').
Proof.
  induction ts as [|t ts IH]; intros g; simpl.
  - exists g. split_and!; [done|apply index_le_refl|done..].
  - destruct (loadTerm_spec g t) as (g1&->&Hle1&Hg1&_&_&Hinv1&_).
    destruct (IH g1) as (g'&Hl&Hle&Hg&Hinv).
    exists g'. split_and!; [done| |congruence|by auto].
    by eapply index_le_trans.
Qed.

Lemma index_inv_new : index_inv toLowerCase trim new_GlossaryIndex.
Proof.
  split; simpl; [done|constructor|constructor|done|done| |done].
  by intros p ?%elem_of_nil.
Qed.

(** *** [loadAllTerms] *)

Lemma sort_insert_sorted_by {A} (cmp : A -> A -> Z) x l :
  (forall a b c, (cmp a b <= 0)%Z -> (cmp b c <= 0)%Z -> (cmp a c <= 0)%Z) ->
  (forall a b, (0 < cmp a b)%Z -> (cmp b a <= 0)%Z) ->
  StronglySorted (fun a b => (cmp a b <= 0)%Z) l ->
  StronglySorted (fun a b => (cmp a b <= 0)%Z) (TM.sort_insert cmp x l).
Proof.
  intros Htrans Htotal. induction 1 as [|y l Hl IH Hy]; simpl.
  - repeat constructor.
  - destruct (Z.leb_spec (cmp x y) 0) as [Hle|Hgt].
    + constructor; [by constructor|]. constructor; [done|].
      eapply Forall_impl; [done|]. intros z Hz. by eapply Htrans.
    + constructor; [done|].
      rewrite OverlapFacts.sort_insert_perm. constructor; [by apply Htotal|done].
Qed.

Lemma sort_byLengthDesc_sorted l :
  StronglySorted (fun a b : jsstring => length b <= length a)
    (TM.sort byLengthDesc l).
Proof.
  assert (StronglySorted (fun a b => (byLengthDesc a b <= 0)%Z) (TM.sort byLengthDesc l))
    as Hs.
  { induction l as [|x l IH]; simpl; [constructor|].
    apply sort_insert_sorted_by; [unfold byLengthDesc; lia..|done]. }
  induction Hs as [|x l' Hl IH Hx]; constructor; [done|].
  eapply Forall_impl; [done|]. intros b. unfold byLengthDesc. simpl. lia.
Qed.

Lemma loadAllTerms_spec ts :
  exists g g0, loadAllTerms toLowerCase toUpperCase trim new_GlossaryIndex ts = Ok g /\
    loadTerms toLowerCase toUpperCase trim ts new_GlossaryIndex = Ok g0 /\
    index_inv toLowerCase trim g /\ _loaded g = true /\
    patterns g = patterns g0 /\ patternMetadata g = patternMetadata g0 /\
    terms g = terms g0 /\
    allPatterns g = TM.sort byLengthDesc (Map_keys (patterns g)).
Proof.
  unfold loadAllTerms.
  destruct (loadTerms_spec ts new_GlossaryIndex) as (g0&->&_&_&Hinv).
  specialize (Hinv index_inv_new).
  eexists _, g0. split_and!; [done..| |done|done|done|done|done].
  by destruct Hinv.
Qed.

(** *** [searchTerms] *)

Lemma push_term_inv g rs termId :
  index_inv toLowerCase trim g -> search_inv g rs -> search_inv g (push_term g rs termId).
Proof.
  intros H Hrs. pose proof Hrs as (Hid&Hnd&Hin). unfold push_term.
  case_bool_decide as Hseen; [done|].
  destruct (Map_get termId (terms g)) as [term|] eqn:Hterm; [|done].
  destruct (ii_term _ _ _ H termId term Hterm) as [Htid _].
  split_and!; cbn [fst snd].
  - by rewrite fmap_app, Hid, <- Htid.
  - apply NoDup_app. split_and!; [done| |apply NoDup_singleton].
    by intros x Hx ->%list_elem_of_singleton.
  - intros t [Ht| ->%list_elem_of_singleton]%elem_of_app; [by apply Hin|].
    by rewrite Htid.
Qed.

Lemma push_terms_inv g ids : forall rs,
  index_inv toLowerCase trim g -> search_inv g rs ->
  search_inv g (foldl (push_term g) rs ids).
Proof.
  induction ids as [|id ids IH]; intros rs H Hrs; simpl; [done|].
  apply IH; [done|]. by apply push_term_inv.
Qed.

Lemma Array_slice_take {A} (l : list A) (b : Z) :
  exists n, Array_slice l 0 b = take n l /\ ((0 <= b)%Z -> n <= Z.to_nat b).
Proof.
  assert (H0 : slice_index (Z.of_nat (length l)) 0 = 0%Z).
  { unfold slice_index. simpl. lia. }
  exists (Z.to_nat (slice_index (Z.of_nat (length l)) b)). split.
  - unfold Array_slice. cbv zeta. rewrite H0, Z.sub_0_r. done.
  - intros Hb. unfold slice_index. rewrite (proj2 (Z.ltb_ge b 0)) by lia. lia.
Qed.

Lemma search_inv_nil g : search_inv g ([], []).
Proof. split_and!; [done|constructor|]. by intros t ?%elem_of_nil. Qed.

Lemma searchTerms_inv g query limit :
  index_inv toLowerCase trim g ->
  exists rs n, search_inv g rs /\
    searchTerms toLowerCase trim g query limit = take n rs.1 /\
    ((0 <= default 50%Z limit)%Z -> n <= Z.to_nat (default 50%Z limit)).
Proof.
  intros H. unfold searchTerms. case_bool_decide as Hq.
  { exists ([], []), 0. split; [apply search_inv_nil|]. split; [done|lia]. }
  set (exact := foldl (push_term g) ([], []) _).
  assert (Hexact : search_inv g exact).
  { apply push_terms_inv; [done|apply search_inv_nil]. }
  set (prefixed := foldl _ exact (patterns g)).
  assert (Hprefixed : search_inv g prefixed).
  { subst prefixed. generalize Hexact. generalize exact.
    induction (patterns g) as [|pt ps IH]; intros rs Hrs; simpl; [done|].
    apply IH. destruct (startsWith pt.1 (trim (toLowerCase query))); [|done].
    by apply push_terms_inv. }
  set (named := foldl _ prefixed (terms g)).
  assert (Hnamed : search_inv g named).
  { subst named.
    assert (Hsub : forall it, it ∈ terms g -> Map_get it.1 (terms g) = Some it.2).
    { intros [id t] Hin. apply Map_get_NoDup; [apply H|done]. }
    revert Hsub. generalize Hprefixed. generalize prefixed.
    generalize (terms g) at 1 3 as its.
    induction its as [|it its IH]; intros rs Hrs Hsub; simpl; [done|].
    apply IH; [|intros it' Hit'; apply Hsub; by right].
    case_bool_decide as Hseen; [done|].
    destruct (includes _ _); [|done].
    pose proof Hrs as (Hid&Hnd&Hin).
    assert (Hget : Map_get it.1 (terms g) = Some it.2) by (apply Hsub; left).
    destruct (ii_term _ _ _ H _ _ Hget) as [Htid _].
    split_and!; cbn [fst snd].
    - by rewrite fmap_app, Hid, <- Htid.
    - apply NoDup_app. split_and!; [done| |apply NoDup_singleton].
      by intros x Hx ->%list_elem_of_singleton.
    - intros t [Ht| ->%list_elem_of_singleton]%elem_of_app; [by apply Hin|].
      by rewrite Htid. }
  destruct (Array_slice_take named.1 (default 50%Z limit)) as (n&Hn&Hle).
  exists named, n. done.
Qed.

(** The loops of [searchTerms] only append to the results. *)
Lemma push_terms_ext g ids : forall rs,
  exists more, (foldl (push_term g) rs ids).1 = rs.1 ++ more.
Proof.
  induction ids as [|id ids IH]; intros rs; simpl.
  - exists []. by rewrite app_nil_r.
  - destruct (IH (push_term g rs id)) as [more ->].
    unfold push_term. case_bool_decide; [by eexists|].
    destruct (Map_get id (terms g)); [|by eexists].
    cbn [fst]. exists ([t] ++ more). by rewrite <- app_assoc.
Qed.

Lemma prefix_loop_ext g q (ps : Map (list jsstring)) : forall rs,
  exists more,
    (foldl (fun rs pt => if startsWith pt.1 q then foldl (push_term g) rs pt.2 else rs)
           rs ps).1 = rs.1 ++ more.
Proof.
  induction ps as [|pt ps IH]; intros rs; simpl.
  - exists []. by rewrite app_nil_r.
  - destruct (startsWith pt.1 q); [|apply IH].
    destruct (push_terms_ext g pt.2 rs) as [more1 Hm1].
    destruct (IH (foldl (push_term g) rs pt.2)) as [more2 ->].
    rewrite Hm1. exists (more1 ++ more2). by rewrite <- app_assoc.
Qed.

Lemma name_loop_ext q (its : Map Term.t) : forall rs : list Term.t * list jsstring,
  exists more,
    (foldl (fun rs it =>
              if bool_decide (it.1 ∈ rs.2) then rs
              else if includes (toLowerCase (or_str (Some (Term.name it.2)) [])) q
                   then (rs.1 ++ [it.2], rs.2 ++ [it.1])
                   else rs)
           rs its).1 = rs.1 ++ more.
Proof.
  induction its as [|it its IH]; intros rs; cbn [foldl].
  - exists []. by rewrite app_nil_r.
  - case_bool_decide; [apply IH|].
    destruct (includes _ _); [|apply IH].
    destruct (IH (rs.1 ++ [it.2], rs.2 ++ [it.1])) as [more ->].
    cbn [fst]. exists ([it.2] ++ more). by rewrite <- app_assoc.
Qed.

(** The first loop: the stored terms of the identifiers, in their order. *)
Lemma push_terms_exact g ids : forall rs,
  NoDup ids -> (forall id, id ∈ ids -> exists t, Map_get id (terms g) = Some t) ->
  (forall id, id ∈ ids -> id ∉ rs.2) ->
  foldl (push_term g) rs ids
  = (rs.1 ++ omap (fun id => Map_get id (terms g)) ids, rs.2 ++ ids).
Proof.
  induction ids as [|id ids IH]; intros rs Hnd Hall Hfresh; simpl.
  - rewrite !app_nil_r. by destruct rs.
  - apply NoDup_cons in Hnd as [Hid Hnd].
    destruct (Hall id) as [t Ht]; [left|].
    unfold push_term at 2.
    rewrite bool_decide_eq_false_2 by (apply Hfresh; left). rewrite Ht.
    rewrite IH; [|done| |].
    + cbn [fst snd]. by rewrite <- !app_assoc.
    + intros id' Hid'. apply Hall. by right.
    + intros id' Hid'. cbn [snd]. rewrite not_elem_of_app. split.
      * apply Hfresh. by right.
      * intros ->%list_elem_of_singleton. done.
Qed.

Lemma searchTerms_exact g query limit :
  index_inv toLowerCase trim g ->
  trim (toLowerCase query) <> [] ->
  exists rest,
    searchTerms toLowerCase trim g query limit
    = Array_slice
        (omap (getTermMetadata g)
           (getTermIdsForPattern toLowerCase g (trim (toLowerCase query))) ++ rest)
        0 (default 50%Z limit) /\
    length (omap (getTermMetadata g)
              (getTermIdsForPattern toLowerCase g (trim (toLowerCase query))))
    = length (getTermIdsForPattern toLowerCase g (trim (toLowerCase query))).
Proof.
  intros H Hq. unfold searchTerms. rewrite bool_decide_eq_false_2 by done.
  set (ids := getTermIdsForPattern toLowerCase g (trim (toLowerCase query))).
  assert (Hids : NoDup ids /\
            forall id, id ∈ ids -> exists t, Map_get id (terms g) = Some t).
  { subst ids. unfold getTermIdsForPattern.
    destruct (Map_get _ (patterns g)) as [l|] eqn:E; simpl.
    - by destruct (ii_ids _ _ _ H _ _ E) as (_&?&?).
    - split; [constructor|]. by intros id ?%elem_of_nil. }
  destruct Hids as [Hnd Hall].
  rewrite (push_terms_exact g ids ([], []) Hnd Hall) by (by intros id _ ?%elem_of_nil).
  cbn [fst snd app].
  set (exact := (omap _ ids, ids)).
  set (prefixed := foldl _ exact (patterns g)).
  destruct (prefix_loop_ext g (trim (toLowerCase query)) (patterns g) exact)
    as [more1 Hm1]. fold prefixed in Hm1.
  set (named := foldl _ prefixed (terms g)).
  destruct (name_loop_ext (trim (toLowerCase query)) (terms g) prefixed)
    as [more2 Hm2]. fold named in Hm2.
  exists (more1 ++ more2). split.
  - rewrite Hm2, Hm1. subst exact. cbn [fst]. by rewrite <- app_assoc.
  - clear -Hall. unfold getTermMetadata.
    induction ids as [|id ids IH]; [done|]. csimpl.
    destruct (Hall id) as [t ->]; [left|]. simpl. f_equal.
    apply IH. intros id' Hid'. apply Hall. by right.
Qed.

End WithBuiltins.

End GlossaryFacts.

(** ** The built-ins on ASCII *)

Module BuiltinFacts.
Import StringOps.

Lemma ascii_lower_unit_idem c : ascii_lower_unit (ascii_lower_unit c) = ascii_lower_unit c.
Proof.
  unfold ascii_lower_unit.
  destruct ((65 <=? c)%Z && (c <=? 90)%Z) eqn:E; [|by rewrite E].
  apply andb_true_iff in E as [H1%Z.leb_le H2%Z.leb_le].
  rewrite (proj2 (andb_false_iff _ _)); [done|]. right. apply Z.leb_gt. lia.
Qed.

Lemma map_fixed {A} (f : A -> A) (l : list A) :
  (forall x, x ∈ l -> f x = x) -> map f l = l.
Proof.
  induction l as [|x l IH]; intros H; simpl; [done|].
  rewrite H by left. f_equal. apply IH. intros y Hy. apply H. by right.
Qed.

Lemma trimStart_suffix s : trimStart s `suffix_of` s.
Proof.
  induction s as [|c s IH]; simpl; [done|].
  destruct (isWhiteSpace c); [by apply suffix_cons_r|done].
Qed.

Lemma trimStart_head s c : head (trimStart s) = Some c -> isWhiteSpace c = false.
Proof.
  induction s as [|d s IH]; simpl; [done|].
  destruct (isWhiteSpace d) eqn:E; [done|]. simpl. by intros [= <-].
Qed.

Lemma trimStart_fixed s :
  (forall c, head s = Some c -> isWhiteSpace c = false) -> trimStart s = s.
Proof. destruct s as [|c s]; [done|]. simpl. intros H. by rewrite H. Qed.

Lemma trim_elem_of s x : x ∈ trim s -> x ∈ s.
Proof.
  unfold trim. rewrite elem_of_reverse. intros Hx.
  destruct (trimStart_suffix (reverse (trimStart s))) as [k Hk].
  assert (x ∈ reverse (trimStart s)) as Hr.
  { rewrite Hk. apply elem_of_app. by right. }
  rewrite elem_of_reverse in Hr.
  destruct (trimStart_suffix s) as [k' Hk']. rewrite Hk'. apply elem_of_app. by right.
Qed.

Lemma trim_idem s : trim (trim s) = trim s.
Proof.
  unfold trim.
  set (A := trimStart s). set (B := trimStart (reverse A)).
  assert (HB : trimStart B = B).
  { apply trimStart_fixed. intros c. apply trimStart_head. }
  assert (HT : trimStart (reverse B) = reverse B).
  { apply trimStart_fixed. intros c Hc.
    destruct (trimStart_suffix (reverse A)) as [k Hk]. fold B in Hk.
    apply (f_equal reverse) in Hk. rewrite reverse_involutive, reverse_app in Hk.
    apply (trimStart_head s c). fold A. rewrite Hk.
    destruct (reverse B); [done|]. done. }
  by rewrite HT, reverse_involutive, HB.
Qed.

Lemma ascii_lower_trim_fixed s :
  ascii_toLowerCase (trim (ascii_toLowerCase s)) = trim (ascii_toLowerCase s).
Proof.
  unfold ascii_toLowerCase at 1. apply map_fixed.
  intros x Hx%trim_elem_of. unfold ascii_toLowerCase in Hx.
  apply list_elem_of_fmap in Hx as (c&->&_). apply ascii_lower_unit_idem.
Qed.

Lemma ascii_normalize_idem s :
  Glossary.normalizePattern ascii_toLowerCase trim
    (Glossary.normalizePattern ascii_toLowerCase trim s)
  = Glossary.normalizePattern ascii_toLowerCase trim s.
Proof.
  unfold Glossary.normalizePattern. by rewrite ascii_lower_trim_fixed, trim_idem.
Qed.

End BuiltinFacts.

(** ** Overlap resolution *)

Module OverlapClaims.
Import AC Inv TM Props Sem MoreProps ACFacts SemFacts OverlapFacts MatcherFacts
  MatcherMore.

Lemma StronglySorted_weaken {A} (R S : A -> A -> Prop) l :
  (forall a b, R a b -> S a b) -> StronglySorted R l -> StronglySorted S l.
Proof.
  intros HRS. induction 1 as [|x l Hl IH Hx]; constructor; [done|].
  eapply Forall_impl; [done|]. auto.
Qed.

Lemma sort_spec_sorted l : StronglySorted spec_sortsBefore (sort compareMatches l).
Proof.
  eapply StronglySorted_weaken; [|apply sort_sorted].
  intros a b. by rewrite sortsBefore_iff.
Qed.

Lemma kept_sublist sorted : forall lastEnd, kept sorted lastEnd `sublist_of` sorted.
Proof.
  induction sorted as [|m sorted IH]; intros lastEnd; simpl; [done|].
  destruct (v_start m <? lastEnd)%Z.
  - by apply sublist_cons.
  - by apply sublist_skip.
Qed.

(** Two hits of a chain are the same hit, or one ends where the other
    starts or before. *)
Lemma chain_cases l a b :
  StronglySorted v_precedes l -> a ∈ l -> b ∈ l ->
  a = b \/ v_precedes a b \/ v_precedes b a.
Proof.
  induction 1 as [|x l Hl IH Hx]; [by intros ?%elem_of_nil|].
  rewrite Forall_forall in Hx.
  intros [-> |Ha]%elem_of_cons [-> |Hb]%elem_of_cons; auto.
Qed.

(** The scan keeps a hit exactly when no hit it has kept before reaches
    beyond the start of the hit. *)
Lemma removeOverlaps_greedy l :
  (forall v, v ∈ l -> (0 <= v_start v < v_end v)%Z) ->
  forall c, c ∈ _removeOverlaps l <->
    c ∈ l /\
    forall k, k ∈ _removeOverlaps l -> spec_sortsBefore k c ->
              k = c \/ (v_end k <= v_start c)%Z.
Proof.
  intros Hpos c.
  assert (Hpos' : forall v, v ∈ l -> (v_start v < v_end v)%Z).
  { intros v Hv. specialize (Hpos v Hv). lia. }
  split.
  - intros Hc. split; [by apply removeOverlaps_subset|]. intros k Hk Hkc.
    destruct (chain_cases _ k c (removeOverlaps_chain l Hpos') Hk Hc)
      as [?|[?|Hck]]; [by left|by right|].
    exfalso. unfold v_precedes in Hck. unfold spec_sortsBefore in Hkc.
    assert (v_start c < v_end c)%Z by (by apply Hpos', removeOverlaps_subset).
    lia.
  - intros [Hc Hall]. specialize (Hpos c Hc).
    destruct (kept_or_covered (sort compareMatches l) (-1) c)
      as [Hk|[?|(k&Hk&Hkc&Hck)]]; [apply sort_sorted|by apply sort_elem_of| |lia|].
    + by rewrite removeOverlaps_kept.
    + rewrite <- removeOverlaps_kept in Hk. apply sortsBefore_iff in Hkc.
      destruct (Hall k Hk Hkc) as [-> |?]; [done|lia].
Qed.

(** A hit of the input is kept or starts inside a kept hit. *)
Lemma removeOverlaps_covers l c :
  c ∈ l -> (0 <= v_start c)%Z ->
  c ∈ _removeOverlaps l \/
  exists k, k ∈ _removeOverlaps l /\ (v_start k <= v_start c < v_end k)%Z.
Proof.
  intros Hc H0. rewrite removeOverlaps_kept.
  destruct (kept_or_covered (sort compareMatches l) (-1) c)
    as [?|[?|(k&Hk&Hkc&Hck)]]; [apply sort_sorted|by apply sort_elem_of|by left|lia|].
  right. exists k. split; [done|]. apply sortsBefore_iff in Hkc. lia.
Qed.

Section WithBuiltins.

Variable toLowerCase : jsstring -> jsstring.
Variable BETA_TERM_LEVELS : list jsstring.

(** C2. The sort of [_removeOverlaps] permutes the accepted hits into
    ascending start and, at equal starts, descending span length. The scan
    that follows goes through the hits in that order and keeps a hit
    exactly when every hit kept before it ends at the start of the hit or
    before: on hits with [0 <= start < end], a hit is in the result if and
    only if it is in the input and each hit of the result that sorts before
    it is the hit itself or ends at or before its start. Hence every result
    of [findTerms] is made of the hits the scan keeps among the accepted
    ones: its matches have [start < end], each ends before the next one
    starts, their starts ascend strictly, every accepted hit is returned or
    starts inside a returned match, and no accepted hit that starts where a
    returned match starts is longer than it. *)
Theorem overlap_resolution (text : jsstring) (m : TermMatcher) :
  (forall s, s <> [] -> toLowerCase s <> []) ->
  matcher_ok toLowerCase m ->
  (forall l : list ValidMatch,
     sort compareMatches l ≡ₚ l /\
     StronglySorted spec_sortsBefore (sort compareMatches l)) /\
  (forall l : list ValidMatch,
     (forall v, v ∈ l -> (0 <= v_start v < v_end v)%Z) ->
     _removeOverlaps l `sublist_of` sort compareMatches l /\
     forall c, c ∈ _removeOverlaps l <->
       c ∈ l /\
       forall k, k ∈ _removeOverlaps l -> spec_sortsBefore k c ->
                 k = c \/ (v_end k <= v_start c)%Z) /\
  exists out m' cands,
    findTerms toLowerCase BETA_TERM_LEVELS text m = Some (out, m') /\
    candidates toLowerCase BETA_TERM_LEVELS text m = Some cands /\
    (forall v, v ∈ cands -> (0 <= v_start v < v_end v)%Z) /\
    out = toOutput <$> _removeOverlaps cands /\
    (forall x, x ∈ out -> (m_start x < m_end x)%Z) /\
    StronglySorted precedes out /\
    StronglySorted (fun a b => (m_start a < m_start b)%Z) out /\
    (forall x, x ∈ out -> exists v, v ∈ cands /\ x = toOutput v) /\
    (forall c, c ∈ cands ->
       toOutput c ∈ out \/
       exists x, x ∈ out /\ (m_start x <= v_start c < m_end x)%Z) /\
    (forall x c, x ∈ out -> c ∈ cands -> v_start c = m_start x ->
                 (v_end c <= m_end x)%Z).
Proof.
  intros Hlow Hm. split.
  { intros l. split; [apply sort_perm|apply sort_spec_sorted]. }
  split.
  { intros l Hpos. split; [|by apply removeOverlaps_greedy].
    rewrite removeOverlaps_kept. apply kept_sublist. }
  destruct (matcher_ok_loaded toLowerCase m Hm) as [ps Hl].
  destruct (findTerms_hits toLowerCase BETA_TERM_LEVELS text m ps Hl)
    as (m'&cands&Hf&Hc&_&_&_&_&_&Hcands).
  exists (toOutput <$> _removeOverlaps cands), m', cands.
  assert (Hpos0 : forall v, v ∈ cands -> (0 <= v_start v < v_end v)%Z).
  { intros v Hv. destruct (Hcands v Hv) as (r&Hacc&(p&_&Hp&Hpr)&H0&_&Hst&_).
    apply accept_fields in Hacc as (->&->&_).
    assert (pattern r <> []) by (rewrite Hpr; by apply Hlow).
    destruct (pattern r); [done|]. simpl in Hst. lia. }
  assert (Hpos : forall v, v ∈ cands -> (v_start v < v_end v)%Z).
  { intros v Hv. specialize (Hpos0 v Hv). lia. }
  assert (Hposo : forall x, x ∈ (toOutput <$> _removeOverlaps cands) ->
                            (m_start x < m_end x)%Z).
  { intros x (v&Hv&_&->)%elem_of_out. simpl. auto. }
  pose proof (removeOverlaps_chain cands Hpos) as Hch.
  split_and!; try done.
  - by apply chain_out.
  - apply chain_out_strict; [done|].
    intros v Hv. apply Hpos. by apply removeOverlaps_subset.
  - intros x (v&Hv&_&->)%elem_of_out. eauto.
  - intros c Hcc.
    destruct (removeOverlaps_covers cands c Hcc) as [Hk|(k&Hk&Hck)].
    + by apply Hpos0.
    + left. apply list_elem_of_fmap. by exists c.
    + right. exists (toOutput k). split; [|done].
      apply list_elem_of_fmap. by exists k.
  - intros x c (v&_&Hv&->)%elem_of_out Hc' Hst. simpl in *.
    by apply (removeOverlaps_longest cands v Hpos Hv).
Qed.

End WithBuiltins.

End OverlapClaims.

(** ** Further properties of the automaton *)

Module AutomatonTheorems.
Import AC Inv TM Props Sem MoreProps ACFacts SemFacts SoundFacts.

Section WithLowerCase.

Variable toLowerCase : jsstring -> jsstring.

(** X3. Soundness of [search]: whatever patterns were added, and whenever
    [build] was called, every hit is a non-empty added pattern, lowercased,
    that stands in the lowercased text from [start] to [end], and both
    indices lie in the text. *)
Theorem search_sound ps a text :
  built_from toLowerCase ps a ->
  exists r a', search toLowerCase text a = Some (r, a') /\
    forall x, x ∈ r ->
      (exists p, p ∈ ps /\ p <> [] /\ pattern x = toLowerCase p) /\
      (0 <= start x)%Z /\ (end_ x <= Z.of_nat (length (toLowerCase text)))%Z /\
      slice (toLowerCase text) (start x) (end_ x) = pattern x.
Proof.
  intros Ha. destruct (search_hits toLowerCase ps a text Ha) as (r&a'&Hs&_&Hr).
  exists r, a'. split; [done|]. intros x Hx.
  destruct (Hr x Hx) as (?&?&?&_&?). done.
Qed.

End WithLowerCase.

End AutomatonTheorems.

(** ** Further properties of the matcher *)

Module MatcherTheorems.
Import AC Inv TM Props Sem MoreProps ACFacts SemFacts OverlapFacts MatcherFacts
  SliceFacts SoundFacts MatcherMore.

(** X5. [_removeOverlaps] is idempotent: applied to its own result it
    returns it unchanged. *)
Theorem removeOverlaps_idempotent (matches : list ValidMatch) :
  _removeOverlaps (_removeOverlaps matches) = _removeOverlaps matches.
Proof.
  rewrite (removeOverlaps_kept (_removeOverlaps matches)).
  rewrite (removeOverlaps_kept matches).
  rewrite sort_sorted_id by (apply kept_sorted, sort_sorted).
  apply kept_idem.
Qed.

(** X6. [_removeOverlaps] drops a hit only for a reason: a hit of the input
    that starts at index 0 or later and is not in the result starts inside
    a hit of the result that comes before it in the order of the sort
    (earlier start, or the same start and at least its length). *)
Theorem removeOverlaps_maximal (matches : list ValidMatch) (c : ValidMatch) :
  c ∈ matches -> (0 <= v_start c)%Z -> c ∉ _removeOverlaps matches ->
  exists k, k ∈ _removeOverlaps matches /\ sortsBefore k c /\
            (v_start k <= v_start c < v_end k)%Z.
Proof.
  intros Hc H0 Hn. rewrite removeOverlaps_kept in *.
  destruct (kept_or_covered (sort compareMatches matches) (-1) c)
    as [?|[?|(k&Hk&Hkc&Hck)]]; [apply sort_sorted|by apply sort_elem_of|done|lia|].
  exists k. split_and!; [done..| |done].
  apply sortsBefore_iff in Hkc. lia.
Qed.

Section WithBuiltins.

Variable toLowerCase : jsstring -> jsstring.
Variable BETA_TERM_LEVELS : list jsstring.

(** X4. For a matcher made by [createTermMatcher] and used through its
    methods, every match [findTerms] returns lies in the lowercased text,
    [0 <= start <= end <= lowerText.length], and spans there a non-empty
    pattern of the index, lowercased; the matcher it leaves is again such
    a matcher. *)
Theorem findTerms_spans (text : jsstring) (m : TermMatcher) :
  matcher_wf toLowerCase m ->
  exists out m',
    findTerms toLowerCase BETA_TERM_LEVELS text m = Some (out, m') /\
    matcher_wf toLowerCase m' /\
    forall x, x ∈ out ->
      (0 <= m_start x <= m_end x)%Z /\
      (m_end x <= Z.of_nat (length (toLowerCase text)))%Z /\
      exists p, p ∈ getAllPatterns (index m) /\ p <> [] /\
        slice (toLowerCase text) (m_start x) (m_end x) = toLowerCase p.
Proof.
  intros Hm.
  destruct (findTerms_hits toLowerCase BETA_TERM_LEVELS text m _
              (matcher_wf_loaded toLowerCase m Hm))
    as (m'&cands&Hf&_&Hb&Hi&Hidx&_&_&Hc).
  eexists _, m'. split; [done|]. split.
  { unfold matcher_wf. by rewrite Hi, Hidx. }
  intros x (v&Hv&_&->)%elem_of_out. simpl.
  destruct (Hc v Hv) as (r&Hacc&(p&Hp&Hne&Hpr)&H0&Hend&Hst&Hsl).
  apply accept_fields in Hacc as (->&->&_).
  split_and!; [done|lia|done|].
  exists p. by rewrite Hsl.
Qed.

(** X7. The identifiers of a match are those the index lists for the
    lowercased text the match spans, filtered by [_filterByLevel], and at
    least one is left. *)
Theorem findTerms_termIds (text : jsstring) (m : TermMatcher) :
  matcher_ok toLowerCase m ->
  exists out m',
    findTerms toLowerCase BETA_TERM_LEVELS text m = Some (out, m') /\
    forall x, x ∈ out ->
      exists ids,
        getTermIdsForPattern (index m)
          (slice (toLowerCase text) (m_start x) (m_end x)) = Some ids /\
        m_termIds x = _filterByLevel BETA_TERM_LEVELS m ids /\
        m_termIds x <> [].
Proof.
  intros Hm. destruct (matcher_ok_loaded toLowerCase m Hm) as [ps Hl].
  destruct (findTerms_hits toLowerCase BETA_TERM_LEVELS text m ps Hl)
    as (m'&cands&Hf&_&_&_&_&_&_&Hc).
  eexists _, m'. split; [done|].
  intros x (v&Hv&_&->)%elem_of_out. simpl.
  destruct (Hc v Hv) as (r&Hacc&_&_&_&_&Hsl).
  apply accept_fields in Hacc as (->&->&_&_&_&_&Hne&ids&Hids&Hf').
  exists ids. by rewrite Hsl.
Qed.

(** X8. [getTermIdsAtPosition] returns the identifiers of the one match of
    [findTerms] that covers the position, [start <= position < end], and
    [null] where no match covers it; no two matches cover one position. *)
Theorem getTermIdsAtPosition_spec (text : jsstring) (position : Z) (m : TermMatcher) :
  (forall s, s <> [] -> toLowerCase s <> []) ->
  matcher_ok toLowerCase m ->
  exists out m',
    findTerms toLowerCase BETA_TERM_LEVELS text m = Some (out, m') /\
    ((exists x, x ∈ out /\ covers position x /\
        (forall y, y ∈ out -> covers position y -> y = x) /\
        getTermIdsAtPosition toLowerCase BETA_TERM_LEVELS text position m
          = Some (Some (m_termIds x), m')) \/
     ((forall y, y ∈ out -> ~ covers position y) /\
      getTermIdsAtPosition toLowerCase BETA_TERM_LEVELS text position m
        = Some (None, m'))).
Proof.
  intros Hlow Hm.
  destruct (findTerms_chain toLowerCase BETA_TERM_LEVELS text m Hlow Hm)
    as (out&m'&Hf&Hch&Hpos).
  exists out, m'. split; [done|].
  unfold getTermIdsAtPosition. rewrite Hf. simpl.
  set (f := fun x => (m_start x <=? position)%Z && (position <? m_end x)%Z).
  assert (Hcov : forall x, f x = true <-> covers position x).
  { intros x. unfold f, covers. rewrite andb_true_iff, Z.leb_le, Z.ltb_lt. done. }
  destruct (find f out) as [x|] eqn:Hfind.
  - left. exists x. apply find_some in Hfind as [Hin Hfx].
    apply list_elem_of_In in Hin. apply Hcov in Hfx.
    split_and!; [done..| |done].
    intros y Hy Hcy. clear -Hch Hpos Hin Hy Hfx Hcy.
    unfold covers in *.
    induction Hch as [|z out Hch IH Hz]; [by apply elem_of_nil in Hy|].
    rewrite Forall_forall in Hz. unfold precedes in Hz.
    apply elem_of_cons in Hin as [-> |Hin], Hy as [-> |Hy]; [done| | |].
    + specialize (Hz y Hy). lia.
    + specialize (Hz x Hin). lia.
    + apply IH; [|done..]. intros w Hw. apply Hpos. by right.
  - right. split; [|done]. intros y Hy Hcy.
    apply Hcov in Hcy. apply list_elem_of_In in Hy.
    by pose proof (find_none f out Hfind y Hy) as Hnone; congruence.
Qed.

(** X9. A matcher that has been used gives what it gave before: after a
    call of [findTerms], the initialization done and the automaton built,
    every text has the matches it had with the matcher as it was. *)
Theorem findTerms_reuse (text text2 : jsstring) (m m' : TermMatcher)
    (out : list Match) :
  findTerms toLowerCase BETA_TERM_LEVELS text m = Some (out, m') ->
  fst <$> findTerms toLowerCase BETA_TERM_LEVELS text2 m'
  = fst <$> findTerms toLowerCase BETA_TERM_LEVELS text2 m.
Proof.
  unfold findTerms.
  destruct (initialize toLowerCase m) as [m1|] eqn:Hi; simpl; [|done].
  assert (Hi1 : _initialized m1 = true).
  { unfold initialize in Hi. destruct (_initialized m) eqn:E; [by injection Hi as <-|].
    destruct (build _); simpl in Hi; [|done]. by injection Hi as <-. }
  assert (Hinit : forall a, initialize toLowerCase (set_automaton a (_initialized m1) m1)
                            = Some (set_automaton a (_initialized m1) m1)).
  { intros a. unfold initialize. simpl. by rewrite Hi1. }
  assert (Hm1 : initialize toLowerCase m1 = Some m1).
  { unfold initialize. by rewrite Hi1. }
  assert (Hval : forall mm raw,
            index mm = index m1 -> userLevel mm = userLevel m1 ->
            enableBetaFeatures mm = enableBetaFeatures m1 ->
            validMatches BETA_TERM_LEVELS mm text2 raw
            = validMatches BETA_TERM_LEVELS m1 text2 raw).
  { intros mm raw ? ? ?. unfold validMatches. apply omap_ext_list.
    intros r. by apply accept_ext. }
  case_bool_decide as Ht.
  { intros [= <- <-]. by rewrite Hm1. }
  destruct (search toLowerCase text (automaton m1)) as [[raw a']|] eqn:Hs; simpl; [|done].
  intros Hout.
  assert (m' = set_automaton a' (_initialized m1) m1) as ->.
  { by case_bool_decide; injection Hout as <- <-. }
  rewrite Hinit. simpl.
  destruct (bool_decide (text2 = [])); [done|].
  unfold search in Hs.
  destruct (build (automaton m1)) as [a1|] eqn:Hb; simpl in Hs; [|done].
  destruct (search_loop _ _ _ _ _); simpl in Hs; [|done].
  injection Hs as _ <-.
  assert (Hb1 : build a1 = Some a1).
  { unfold build in *. destruct (_built (automaton m1)) eqn:E.
    - injection Hb as <-. by rewrite E.
    - destruct (build_bfs _ _ _); simpl in Hb; [|done]. by injection Hb as <-. }
  unfold search. rewrite Hb, Hb1. simpl.
  destruct (search_loop (nodes a1) (toLowerCase text2) 0 root []) as [raw2|]; simpl;
    [|done].
  destruct (bool_decide (raw2 = [])); [done|]. simpl.
  by rewrite !Hval.
Qed.

(** X10. The caller's level 'all' is the level 'medschool': with either,
    [findTerms] returns the same matches for every text. *)
Theorem all_is_medschool (text : jsstring) (m : TermMatcher) :
  fst <$> findTerms toLowerCase BETA_TERM_LEVELS text (setUserLevel (VStr (js "all")) m)
  = fst <$> findTerms toLowerCase BETA_TERM_LEVELS text
              (setUserLevel (VStr (js "medschool")) m).
Proof.
  apply findTerms_ext; done.
Qed.

(** X11. A term whose recorded level is 'all' passes the filter for no
    caller whose level is a string, the type [setUserLevel] documents:
    whatever that string and the beta setting, [keepTerm] rejects the term,
    and [_filterByLevel] returns no such identifier. The tier 2 of the term
    never equals the tier of the caller, whose 'all' counts as
    'medschool'. *)
Theorem level_all_never_kept (m : TermMatcher) (callerLevel termId : jsstring)
    (meta : TermMeta) (termIds : list jsstring) :
  userLevel m = VStr callerLevel ->
  terms (index m) ≫= (fun get => get termId) = Some meta ->
  level meta = Some (js "all") ->
  keepTerm BETA_TERM_LEVELS m termId = false /\
  termId ∉ _filterByLevel BETA_TERM_LEVELS m termIds.
Proof.
  intros Hu Hmeta Hlevel.
  assert (Hk : keepTerm BETA_TERM_LEVELS m termId = false).
  { unfold keepTerm. rewrite Hmeta, Hlevel, Hu. simpl.
    destruct (_ && _); [done|].
    case_bool_decide as Hne; [done|]. exfalso. revert Hne.
    case_bool_decide as Hall; [done|].
    unfold levelValue, LEVEL_HIERARCHY. repeat case_bool_decide; try done.
    by subst callerLevel. }
  split; [done|]. unfold _filterByLevel. rewrite list_elem_of_filter.
  intros [Hkeep _]. congruence.
Qed.

(** X25. [_filterByLevel] follows the rule of the specification wherever
    no level is the name of a member every object inherits. Let the
    caller's level be a string, and let neither it nor the level of a
    listed term be such a name. Then the result holds, in the order of the
    argument, exactly the listed identifiers that the rule keeps: those
    without metadata, and those whose level ('medschool' when none is
    recorded) is not a beta level while beta features are off and has the
    tier of the caller's level, the tiers being 0 for 'premed', 1 for
    'medschool', 2 for 'all' and 1 for any other level, and the caller's
    'all' counting as 'medschool'. *)
Theorem filterByLevel_tiers (m : TermMatcher) (callerLevel : jsstring)
    (termIds : list jsstring) :
  userLevel m = VStr callerLevel ->
  callerLevel ∉ Object_prototype_names ->
  (forall termId meta,
     termId ∈ termIds ->
     terms (index m) ≫= (fun get => get termId) = Some meta ->
     spec_termLevel meta ∉ Object_prototype_names) ->
  (forall termId,
     termId ∈ _filterByLevel BETA_TERM_LEVELS m termIds <->
     termId ∈ termIds /\
     spec_keeps BETA_TERM_LEVELS (enableBetaFeatures m) callerLevel
       (terms (index m) ≫= (fun get => get termId))) /\
  _filterByLevel BETA_TERM_LEVELS m termIds `sublist_of` termIds.
Proof.
  intros Hu Hp Hmeta. split; [|apply sublist_filter].
  intros termId. unfold _filterByLevel. rewrite list_elem_of_filter.
  split.
  - intros [Hk Hin]. split; [done|].
    apply (FilterClaims.keepTerm_spec_keeps BETA_TERM_LEVELS m callerLevel termId);
      eauto.
  - intros [Hin Hk]. split; [|done].
    apply (FilterClaims.keepTerm_spec_keeps BETA_TERM_LEVELS m callerLevel termId);
      eauto.
Qed.

End WithBuiltins.

End MatcherTheorems.

(** ** The highlighted fragment *)

Module HighlighterFacts.
Import TM Props MoreProps StringOps Highlighter SliceFacts.

Lemma textContent_app f1 f2 : textContent (f1 ++ f2) = textContent f1 ++ textContent f2.
Proof. unfold textContent. by rewrite fmap_app, concat_app. Qed.

Lemma spans_app f1 f2 : spans (f1 ++ f2) = spans f1 ++ spans f2.
Proof. unfold spans. apply omap_app. Qed.

(** The loop keeps the text of the fragment equal to the text before
    [lastIndex]. *)
Lemma fragment_loop_text style text matches : forall lastIndex fragment,
  (0 <= lastIndex)%Z ->
  StronglySorted precedes matches ->
  (forall x, x ∈ matches -> (lastIndex <= m_start x <= m_end x)%Z) ->
  textContent fragment = take (Z.to_nat lastIndex) text ->
  (0 <= (fragment_loop style text matches lastIndex fragment).1)%Z /\
  textContent (fragment_loop style text matches lastIndex fragment).2
  = take (Z.to_nat (fragment_loop style text matches lastIndex fragment).1) text.
Proof.
  induction matches as [|x matches IH]; intros lastIndex fragment H0 Hs Hx Ht; simpl;
    [done|].
  apply StronglySorted_inv in Hs as [Hs Hp]. rewrite Forall_forall in Hp.
  destruct (Hx x) as [Hlo Hhi]; [left|].
  apply IH; [lia|done| |].
  - intros y Hy. specialize (Hp y Hy). unfold precedes in Hp.
    destruct (Hx y) as [_ ?]; [by right|]. lia.
  - rewrite textContent_app. unfold textContent at 2. simpl. rewrite app_nil_r.
    destruct (Z.ltb_spec lastIndex (m_start x)) as [Hlt|Hge].
    + rewrite textContent_app, Ht. unfold textContent at 1. simpl. rewrite app_nil_r.
      rewrite slice_join by lia. apply slice_join. lia.
    + assert (lastIndex = m_start x) as -> by lia.
      rewrite Ht. apply slice_join. lia.
Qed.

Lemma fragment_loop_spans style text matches : forall lastIndex fragment,
  spans (fragment_loop style text matches lastIndex fragment).2
  = spans fragment ++ (createSpan style text <$> matches).
Proof.
  induction matches as [|x matches IH]; intros lastIndex fragment; simpl.
  - by rewrite app_nil_r.
  - rewrite IH, spans_app. simpl.
    destruct (lastIndex <? m_start x)%Z.
    + rewrite spans_app. simpl. by rewrite app_nil_r, <- app_assoc.
    + by rewrite <- app_assoc.
Qed.

Lemma createHighlightedFragment_text style text matches :
  StronglySorted precedes matches ->
  (forall x, x ∈ matches -> (0 <= m_start x <= m_end x)%Z) ->
  textContent (createHighlightedFragment style text matches) = text.
Proof.
  intros Hs Hx. unfold createHighlightedFragment.
  destruct (fragment_loop_text style text matches 0 [] ltac:(done) Hs Hx eq_refl)
    as [H0 Ht].
  destruct (fragment_loop style text matches 0 []) as [lastIndex fragment].
  simpl in *. destruct (Z.ltb_spec lastIndex (Z.of_nat (length text))) as [Hlt|Hge].
  - rewrite textContent_app, Ht. unfold textContent at 1. simpl. rewrite app_nil_r.
    rewrite slice_join by lia. rewrite take_ge; [done|lia].
  - rewrite Ht. rewrite take_ge; [done|lia].
Qed.

End HighlighterFacts.

Module HighlighterTheorems.
Import AC Inv TM Props MoreProps StringOps Highlighter SliceFacts MatcherMore
  HighlighterFacts.

(** X12. [createHighlightedFragment] loses and repeats nothing: for
    matches in ascending order that do not overlap and start at index 0 or
    later, the texts of the children of the fragment, put end to end, are
    the text; and the spans among the children are one per match, in the
    order of the matches, each with the text the match spans. *)
Theorem fragment_text (highlightStyle text : jsstring) (matches : list Match) :
  StronglySorted precedes matches ->
  (forall x, x ∈ matches -> (0 <= m_start x <= m_end x)%Z) ->
  textContent (createHighlightedFragment highlightStyle text matches) = text /\
  spans (createHighlightedFragment highlightStyle text matches)
  = createSpan highlightStyle text <$> matches /\
  forall e, e ∈ spans (createHighlightedFragment highlightStyle text matches) ->
    exists x, x ∈ matches /\ span_textContent e = slice text (m_start x) (m_end x).
Proof.
  intros Hs Hx.
  assert (Hsp : spans (createHighlightedFragment highlightStyle text matches)
                = createSpan highlightStyle text <$> matches).
  { unfold createHighlightedFragment.
    pose proof (fragment_loop_spans highlightStyle text matches 0 []) as Hl.
    destruct (fragment_loop highlightStyle text matches 0 []) as [lastIndex fragment].
    simpl in *. destruct (lastIndex <? Z.of_nat (length text))%Z; [|done].
    rewrite spans_app, Hl. simpl. by rewrite app_nil_r. }
  split_and!; [by apply createHighlightedFragment_text|done|].
  rewrite Hsp. intros e (x&->&Hin)%list_elem_of_fmap. by exists x.
Qed.

Section WithBuiltins.

Variable toLowerCase : jsstring -> jsstring.
Variable BETA_TERM_LEVELS : list jsstring.

(** X13. Highlighting what [findTerms] found keeps the text: the fragment
    made from the matches of a text has that text as its content, with one
    span per match. *)
Theorem highlight_findTerms (highlightStyle text : jsstring) (m : TermMatcher) :
  (forall s, s <> [] -> toLowerCase s <> []) ->
  matcher_ok toLowerCase m ->
  exists out m',
    findTerms toLowerCase BETA_TERM_LEVELS text m = Some (out, m') /\
    textContent (createHighlightedFragment highlightStyle text out) = text /\
    length (spans (createHighlightedFragment highlightStyle text out)) = length out.
Proof.
  intros Hlow Hm.
  destruct (findTerms_chain toLowerCase BETA_TERM_LEVELS text m Hlow Hm)
    as (out&m'&Hf&Hch&Hpos).
  exists out, m'. split; [done|]. split.
  - apply createHighlightedFragment_text; [done|].
    intros x Hx. specialize (Hpos x Hx). lia.
  - unfold createHighlightedFragment.
    pose proof (fragment_loop_spans highlightStyle text out 0 []) as Hl.
    destruct (fragment_loop highlightStyle text out 0 []) as [lastIndex fragment].
    simpl in *. destruct (lastIndex <? Z.of_nat (length text))%Z.
    + rewrite spans_app, Hl. simpl. by rewrite app_nil_r, length_fmap.
    + by rewrite Hl, length_fmap.
Qed.

End WithBuiltins.

End HighlighterTheorems.

(** ** Properties of the index and its loader *)

Module IndexTheorems.
Import StringOps Glossary IndexProps MapFacts GlossaryFacts.

Section WithBuiltins.

Variable toLowerCase toUpperCase trim : jsstring -> jsstring.


(** X15. No form of a term is lost: every name and every alias whose
    normalized form is neither empty nor excluded is among the patterns
    extracted from the term, and so is every explicit pattern and every
    abbreviation whose normalized form has, besides, at least two code
    units. *)
Theorem extractPatterns_complete (termData : TermData.t) (items : list jsstring)
    (n : jsstring) :
  TermData.names termData = Some items \/ TermData.aliases termData = Some items \/
  ((TermData.patterns termData = Some items \/ TermData.abbr termData = Some items) /\
   2 <= length (normalizePattern toLowerCase trim n)) ->
  n ∈ items ->
  normalizePattern toLowerCase trim n <> [] ->
  isPatternExcluded toLowerCase trim (normalizePattern toLowerCase trim n) = false ->
  normalizePattern toLowerCase trim n
    ∈ pattern <$> extractPatternsFromTerm toLowerCase trim termData.
Proof.
  intros Hfield Hn Hne Hex.
  destruct (extractPatterns_inv toLowerCase trim termData) as (Hp&_&_).
  unfold extractPatternsFromTerm. rewrite Hp.
  destruct Hfield as [Hf|[Hf|[[Hf|Hf] Hlen]]]; rewrite Hf.
  - do 2 apply extract_field_mono. by apply extract_field_adds.
  - apply extract_field_mono. by apply extract_field_adds.
  - do 3 apply extract_field_mono. by apply extract_field_adds.
  - by apply extract_field_adds.
Qed.

(** X16. The identifier of a term is never empty. Where the term has no
    [id], it is the first name, lowercased, with every run of white space
    replaced by one hyphen, and holds no white space. *)
Theorem termId_derived (termData : TermData.t) (termId : jsstring) :
  termIdOf toLowerCase termData = Some termId ->
  termId <> [] /\
  (TermData.id termData = Some termId \/
   (TermData.id termData = None \/ TermData.id termData = Some []) /\
   (exists n rest, TermData.names termData = Some (n :: rest) /\
                   termId = replaceWhiteSpace (toLowerCase n)) /\
   forall c, c ∈ termId -> isWhiteSpace c = false).
Proof.
  unfold termIdOf.
  assert (Hd : derivedId toLowerCase termData = Some termId ->
            termId <> [] /\
            (exists n rest, TermData.names termData = Some (n :: rest) /\
                            termId = replaceWhiteSpace (toLowerCase n)) /\
            forall c, c ∈ termId -> isWhiteSpace c = false).
  { unfold derivedId. destruct (TermData.names termData) as [[|n rest]|]; [done| |done].
    case_bool_decide as E; [done|]. intros [= <-]. split_and!; [done|by eauto|].
    intros c. apply replace_runs_no_space. }
  destruct (TermData.id termData) as [i|].
  - case_bool_decide as E.
    + subst i. intros (?&?&?)%Hd. split; [done|]. right. split_and!; [by right|done..].
    + intros [= <-]. split; [done|by left].
  - intros (?&?&?)%Hd. split; [done|]. right. split_and!; [by left|done..].
Qed.

(** X17. What [loadTerm] stores can be looked up: after a term with an
    identifier is loaded, [getTermMetadata] gives its metadata,
    [getTermContent] the term itself, and for every pattern extracted from
    it [getTermIdsForPattern] lists the identifier and [getPatternMetadata]
    is not [null]; here [toLowerCase] is taken to leave a normalized
    pattern as it is. *)
Theorem loadTerm_lookup (g : GlossaryIndex) (termData : TermData.t) (termId : jsstring) :
  (forall s, toLowerCase (trim (toLowerCase s)) = trim (toLowerCase s)) ->
  termIdOf toLowerCase termData = Some termId ->
  exists g', loadTerm toLowerCase toUpperCase trim g termData = Ok g' /\
    getTermMetadata g' termId = Some (termMetadata termId termData) /\
    getTermContent g' termId = Some termData /\
    forall e, e ∈ extractPatternsFromTerm toLowerCase trim termData ->
      termId ∈ getTermIdsForPattern toLowerCase g' (pattern e) /\
      exists meta, getPatternMetadata toLowerCase g' (pattern e) = Some meta.
Proof.
  intros Hlow Hid.
  destruct (loadTerm_spec toLowerCase toUpperCase trim g termData)
    as (g'&Hl&_&_&_&_&_&Hspec).
  rewrite Hid in Hspec. destruct Hspec as [Hterms Hpat].
  exists g'. split; [done|].
  assert (Hget : Map_get termId (terms g') = Some (termMetadata termId termData)).
  { by rewrite Hterms, Map_get_set, bool_decide_eq_true_2. }
  split_and!.
  - done.
  - unfold getTermContent. by rewrite Hget.
  - intros e He.
    destruct (extractPatterns_inv toLowerCase trim termData) as (_&_&Hok).
    destruct (Hok e He) as (_&_&_&raw&Hraw&_).
    assert (Hfix : toLowerCase (pattern e) = pattern e).
    { rewrite Hraw. apply Hlow. }
    destruct (Hpat e He) as [(ids&Hids&Hin) [meta Hmeta]].
    unfold getTermIdsForPattern, getPatternMetadata. rewrite Hfix, Hids. simpl.
    split; [done|by exists meta].
Qed.

(** X18. [loadTerm] keeps what the index holds: the metadata of a pattern
    already indexed is not changed (the first term with a pattern decides
    it), the identifiers of a pattern are kept in their order, new ones
    coming after them, and the metadata of the other terms stays; a term
    without identifier changes nothing. It returns for every term. *)
Theorem loadTerm_keeps (g : GlossaryIndex) (termData : TermData.t) :
  exists g', loadTerm toLowerCase toUpperCase trim g termData = Ok g' /\
    (forall p meta, Map_get p (patternMetadata g) = Some meta ->
       Map_get p (patternMetadata g') = Some meta) /\
    (forall p ids, Map_get p (patterns g) = Some ids ->
       exists ids', Map_get p (patterns g') = Some ids' /\ ids `prefix_of` ids') /\
    (forall id t, Map_get id (terms g) = Some t ->
       termIdOf toLowerCase termData <> Some id -> Map_get id (terms g') = Some t) /\
    (termIdOf toLowerCase termData = None -> g' = g).
Proof.
  destruct (loadTerm_spec toLowerCase toUpperCase trim g termData)
    as (g'&Hl&[Hm Hp]&_&_&_&_&Hspec).
  exists g'. split_and!; [done..| |].
  - intros id t Hget Hne.
    destruct (termIdOf toLowerCase termData) as [termId|]; [|by subst].
    destruct Hspec as [-> _]. rewrite Map_get_set.
    case_bool_decide; [congruence|done].
  - intros Hnone. by rewrite Hnone in Hspec.
Qed.

(** X19. The index [loadAllTerms] makes from a new one, whatever the
    terms: it is marked loaded; its patterns and its metadata have the same
    keys, so that every pattern has metadata, and the metadata either asks
    for no casing or holds one; the identifiers of a pattern are not empty,
    pairwise distinct, and each has metadata stored under it, with a level
    that is not empty. *)
Theorem loadAllTerms_integrity (ts : list TermData.t) :
  exists g, loadAllTerms toLowerCase toUpperCase trim new_GlossaryIndex ts = Ok g /\
    isLoaded g = true /\
    Map_keys (patternMetadata g) = Map_keys (patterns g) /\
    (forall p meta, Map_get p (patternMetadata g) = Some meta -> metadata_shape meta) /\
    (forall p ids, Map_get p (patterns g) = Some ids ->
       ids <> [] /\ NoDup ids /\
       forall id, id ∈ ids ->
         exists t, getTermMetadata g id = Some t /\ Term.id t = id /\
                   Term.level t <> []).
Proof.
  destruct (loadAllTerms_spec toLowerCase toUpperCase trim ts)
    as (g&g0&Hl&_&H&Hld&_).
  exists g. split_and!; [done..|apply H|apply H|].
  intros p ids Hp. destruct (ii_ids _ _ _ H p ids Hp) as (?&?&Hall).
  split_and!; [done..|]. intros id Hid. destruct (Hall id Hid) as [t Ht].
  exists t. split; [done|]. by apply (ii_term _ _ _ H).
Qed.

(** X20. [getAllPatterns] of a loaded index lists every pattern of the
    index once, a longer pattern before a shorter one; none is empty and
    none is excluded. *)
Theorem allPatterns_longest_first (ts : list TermData.t) :
  exists g, loadAllTerms toLowerCase toUpperCase trim new_GlossaryIndex ts = Ok g /\
    getAllPatterns g ≡ₚ Map_keys (patterns g) /\
    NoDup (getAllPatterns g) /\
    StronglySorted (fun a b : jsstring => length b <= length a) (getAllPatterns g) /\
    forall p, p ∈ getAllPatterns g ->
      p <> [] /\ isPatternExcluded toLowerCase trim p = false.
Proof.
  destruct (loadAllTerms_spec toLowerCase toUpperCase trim ts)
    as (g&g0&Hl&_&H&_&_&_&_&Hall).
  exists g. unfold getAllPatterns. rewrite Hall.
  pose proof (OverlapFacts.sort_perm byLengthDesc (Map_keys (patterns g))) as Hperm.
  split_and!; [done..| | |].
  - rewrite Hperm. apply H.
  - apply sort_byLengthDesc_sorted.
  - intros p Hp. rewrite Hperm in Hp.
    destruct (ii_pattern _ _ _ H p Hp) as (?&?&_). done.
Qed.

(** X21. Where normalizing a normalized pattern changes nothing, every
    pattern of a loaded index is its own normalized form and is none of
    [EXCLUDED_PATTERNS]. *)
Theorem loaded_patterns_normal (ts : list TermData.t) (g : GlossaryIndex)
    (p : jsstring) :
  (forall s, normalizePattern toLowerCase trim (normalizePattern toLowerCase trim s)
             = normalizePattern toLowerCase trim s) ->
  loadAllTerms toLowerCase toUpperCase trim new_GlossaryIndex ts = Ok g ->
  p ∈ getAllPatterns g ->
  normalizePattern toLowerCase trim p = p /\ p ∉ EXCLUDED_PATTERNS.
Proof.
  intros Hnorm Hl Hp.
  destruct (loadAllTerms_spec toLowerCase toUpperCase trim ts)
    as (g1&g0&Hl1&_&H&_&_&_&_&Hall).
  assert (g1 = g) as -> by congruence.
  unfold getAllPatterns in Hp. rewrite Hall, OverlapFacts.sort_perm in Hp.
  destruct (ii_pattern _ _ _ H p Hp) as (_&Hex&raw&->).
  split; [apply Hnorm|].
  unfold isPatternExcluded in Hex. apply bool_decide_eq_false in Hex.
  change (trim (toLowerCase (normalizePattern toLowerCase trim raw))) with
    (normalizePattern toLowerCase trim (normalizePattern toLowerCase trim raw)) in Hex.
  by rewrite Hnorm in Hex.
Qed.

(** X22. [searchTerms] on a loaded index returns stored terms, none
    twice, at most [limit] of them (50 where no limit is given) when the
    limit is not negative, and none for a query that is empty once
    lowercased and trimmed. *)
Theorem searchTerms_results (ts : list TermData.t) :
  exists g, loadAllTerms toLowerCase toUpperCase trim new_GlossaryIndex ts = Ok g /\
    forall query limit,
      NoDup (Term.id <$> searchTerms toLowerCase trim g query limit) /\
      (forall t, t ∈ searchTerms toLowerCase trim g query limit ->
         getTermMetadata g (Term.id t) = Some t) /\
      ((0 <= default 50%Z limit)%Z ->
         (Z.of_nat (length (searchTerms toLowerCase trim g query limit))
          <= default 50%Z limit)%Z) /\
      (trim (toLowerCase query) = [] ->
         searchTerms toLowerCase trim g query limit = []).
Proof.
  destruct (loadAllTerms_spec toLowerCase toUpperCase trim ts) as (g&g0&Hl&_&H&_).
  exists g. split; [done|]. intros query limit.
  destruct (searchTerms_inv toLowerCase trim g query limit H)
    as (rs&n&(Hid&Hnd&Hin)&Hs&Hle).
  split_and!.
  - rewrite Hs, fmap_take, Hid. eapply sublist_NoDup; [exact Hnd|apply sublist_take].
  - intros t Ht. rewrite Hs in Ht. apply Hin. by eapply subseteq_take.
  - intros H0. rewrite Hs, length_take. specialize (Hle H0). lia.
  - intros Hq. unfold searchTerms. by rewrite bool_decide_eq_true_2.
Qed.

(** X24. [searchTerms] puts the exact matches first: for a query that is
    not empty once lowercased and trimmed, the results are the first
    [limit] of a list that starts with the stored terms of the identifiers
    [getTermIdsForPattern] gives for the query, all of them and in their
    order. *)
Theorem searchTerms_exact_first (ts : list TermData.t) (g : GlossaryIndex)
    (query : jsstring) (limit : option Z) :
  loadAllTerms toLowerCase toUpperCase trim new_GlossaryIndex ts = Ok g ->
  trim (toLowerCase query) <> [] ->
  exists rest,
    searchTerms toLowerCase trim g query limit
    = Array_slice
        (omap (getTermMetadata g)
           (getTermIdsForPattern toLowerCase g (trim (toLowerCase query))) ++ rest)
        0 (default 50%Z limit) /\
    length (omap (getTermMetadata g)
              (getTermIdsForPattern toLowerCase g (trim (toLowerCase query))))
    = length (getTermIdsForPattern toLowerCase g (trim (toLowerCase query))).
Proof.
  intros Hl Hq.
  destruct (loadAllTerms_spec toLowerCase toUpperCase trim ts) as (g1&g0&Hl1&_&H&_).
  assert (g1 = g) as -> by congruence.
  by apply searchTerms_exact.
Qed.

End WithBuiltins.

End IndexTheorems.

(** ** The matcher over a loaded index *)

Module LoadedIndexTheorems.
Import AC Inv TM Props MoreProps ACFacts MatcherFacts MatcherMore FilterClaims.
Import StringOps IndexProps MapFacts GlossaryFacts.

Section WithBuiltins.

Variable toLowerCase toUpperCase trim : jsstring -> jsstring.
Variable BETA_TERM_LEVELS : list jsstring.

(** X23. A matcher over an index made by [loadAllTerms] never falls back
    on the rule for identifiers without metadata: every identifier of every
    match [findTerms] returns has metadata stored under it in the index,
    the tier of its level is the tier of the caller's level ('all' counting
    as 'medschool'), and its level is no beta level while beta features are
    off. *)
Theorem loaded_index_levels (ts : list Glossary.TermData.t) (g : Glossary.GlossaryIndex)
    (text : jsstring) (m : TermMatcher) :
  Glossary.loadAllTerms toLowerCase toUpperCase trim Glossary.new_GlossaryIndex ts
    = Ok g ->
  index m = Glossary.asTermIndex toLowerCase g ->
  matcher_ok toLowerCase m ->
  exists out m',
    findTerms toLowerCase BETA_TERM_LEVELS text m = Some (out, m') /\
    forall x id, x ∈ out -> id ∈ m_termIds x ->
      exists t, Glossary.getTermMetadata g id = Some t /\
        Glossary.Term.id t = id /\
        tier (Glossary.Term.level t) = levelValue (effectiveLevel m) /\
        ~ (Glossary.Term.level t ∈ BETA_TERM_LEVELS /\ enableBetaFeatures m = false).
Proof.
  intros Hl Hidx Hm.
  destruct (loadAllTerms_spec toLowerCase toUpperCase trim ts) as (g1&g0&Hl1&_&H&_).
  assert (g1 = g) as -> by congruence.
  destruct (matcher_ok_loaded toLowerCase m Hm) as [ps Hps].
  destruct (findTerms_hits toLowerCase BETA_TERM_LEVELS text m ps Hps)
    as (m'&cands&Hf&_&_&_&_&_&_&Hc).
  eexists _, m'. split; [done|].
  intros x id (v&Hv&_&->)%elem_of_out Hid. simpl in Hid.
  destruct (Hc v Hv) as (r&Hacc&_).
  apply accept_fields in Hacc as (_&_&_&_&_&_&_&ids&Hids&Hfilter).
  rewrite Hfilter in Hid. unfold _filterByLevel in Hid.
  apply list_elem_of_filter in Hid as [Hkeep Hin].
  rewrite Hidx in Hids. simpl in Hids. injection Hids as <-.
  unfold Glossary.getTermIdsForPattern in Hin.
  destruct (Map_get (toLowerCase (pattern r)) (Glossary.patterns g)) as [ids|] eqn:Hget;
    simpl in Hin; [|by apply elem_of_nil in Hin].
  destruct (ii_ids _ _ _ H _ _ Hget) as (_&_&Hall).
  destruct (Hall id Hin) as [t Ht].
  destruct (ii_term _ _ _ H id t Ht) as [Htid Hlev].
  exists t. split; [done|]. split; [done|].
  apply keepTerm_reflect in Hkeep. unfold keepTerm_holds in Hkeep.
  rewrite Hidx in Hkeep. simpl in Hkeep. rewrite Ht in Hkeep. simpl in Hkeep.
  unfold recordedLevel in Hkeep. simpl in Hkeep.
  rewrite (bool_decide_eq_false_2 _ Hlev) in Hkeep.
  destruct Hkeep as [Hbeta Htier]. done.
Qed.

End WithBuiltins.

End LoadedIndexTheorems.

(** ** The properties of the index, the highlighter and the matcher at
    concrete inputs *)

Module MoreInstances.
Import AC Inv TM Props Sem MoreProps ACFacts SemFacts MatcherFacts MatcherMore
  MatcherClaims OverlapClaims AutomatonClaims AutomatonTheorems MatcherTheorems.
Import StringOps Highlighter HighlighterTheorems.

Lemma search_records_witness :
  reachable ascii_toLowerCase
    (addPatterns ascii_toLowerCase [js "he"; js "she"; js "his"; js "hers"]
       new_AhoCorasick) /\
  exists r a',
    search ascii_toLowerCase (js "ushers")
      (addPatterns ascii_toLowerCase [js "he"; js "she"; js "his"; js "hers"]
         new_AhoCorasick) = Some (r, a') /\
    StronglySorted (fun x y => (end_ x <= end_ y)%Z) r.
Proof.
  assert (Hr : reachable ascii_toLowerCase
    (addPatterns ascii_toLowerCase [js "he"; js "she"; js "his"; js "hers"]
       new_AhoCorasick)).
  { repeat apply reach_addPattern. apply reach_new. }
  split; [exact Hr|].
  destruct (search_records ascii_toLowerCase _ (js "ushers") Hr) as (r&a'&Hs&_&Hsorted).
  exists r, a'. split; [exact Hs|exact Hsorted].
Defined.

Lemma search_sound_witness :
  built_from ascii_toLowerCase [js "he"; js "she"; js "his"; js "hers"]
    (addPatterns ascii_toLowerCase [js "he"; js "she"; js "his"; js "hers"]
       new_AhoCorasick) /\
  exists r a',
    search ascii_toLowerCase (js "ushers")
      (addPatterns ascii_toLowerCase [js "he"; js "she"; js "his"; js "hers"]
         new_AhoCorasick) = Some (r, a') /\
    forall x, x ∈ r ->
      slice (ascii_toLowerCase (js "ushers")) (start x) (end_ x) = pattern x.
Proof.
  assert (Hb : built_from ascii_toLowerCase [js "he"; js "she"; js "his"; js "hers"]
    (addPatterns ascii_toLowerCase [js "he"; js "she"; js "his"; js "hers"]
       new_AhoCorasick)).
  { apply (addPatterns_built ascii_toLowerCase [js "he"; js "she"; js "his"; js "hers"]
             [] new_AhoCorasick). apply bf_new. }
  split; [exact Hb|].
  destruct (search_sound ascii_toLowerCase _ _ (js "ushers") Hb) as (r&a'&Hs&Hr).
  exists r, a'. split; [exact Hs|].
  intros x Hx. destruct (Hr x Hx) as (_&_&_&Hslice). exact Hslice.
Defined.

Lemma findTerms_spans_witness :
  matcher_wf ascii_toLowerCase (createTermMatcher mockIndex) /\
  exists out m',
    findTerms ascii_toLowerCase [] (js "Patient has hypertension")
      (createTermMatcher mockIndex) = Some (out, m') /\
    matcher_wf ascii_toLowerCase m'.
Proof.
  assert (Hwf : matcher_wf ascii_toLowerCase (createTermMatcher mockIndex))
    by reflexivity.
  split; [exact Hwf|].
  destruct (findTerms_spans ascii_toLowerCase [] (js "Patient has hypertension")
              (createTermMatcher mockIndex) Hwf) as (out&m'&Hf&Hwf'&_).
  exists out, m'. split; [exact Hf|exact Hwf'].
Defined.

Lemma removeOverlaps_maximal_witness :
  let heart := {| v_start := 15; v_end := 20; v_pattern := js "heart";
                  v_termIds := [js "heart"] |} in
  let heartFailure := {| v_start := 15; v_end := 28; v_pattern := js "heart failure";
                         v_termIds := [js "heart-failure"] |} in
  heart ∈ [heart; heartFailure] /\ (0 <= v_start heart)%Z /\
  (heart ∉ _removeOverlaps [heart; heartFailure]) /\
  exists k, k ∈ _removeOverlaps [heart; heartFailure] /\ sortsBefore k heart /\
            (v_start k <= v_start heart < v_end k)%Z.
Proof.
  intros heart heartFailure.
  assert (H1 : heart ∈ [heart; heartFailure]) by left.
  assert (H2 : (0 <= v_start heart)%Z) by (simpl; lia).
  assert (H3 : heart ∉ _removeOverlaps [heart; heartFailure]).
  { change (_removeOverlaps [heart; heartFailure]) with [heartFailure].
    intros Hin%list_elem_of_singleton. discriminate Hin. }
  split; [exact H1|]. split; [exact H2|]. split; [exact H3|].
  exact (removeOverlaps_maximal [heart; heartFailure] heart H1 H2 H3).
Defined.

Lemma findTerms_termIds_witness :
  matcher_ok ascii_toLowerCase (createTermMatcher mockIndex) /\
  exists out m',
    findTerms ascii_toLowerCase [] (js "Patient has hypertension")
      (createTermMatcher mockIndex) = Some (out, m') /\
    forall x, x ∈ out -> m_termIds x <> [].
Proof.
  split; [apply reach_new|].
  destruct (findTerms_termIds ascii_toLowerCase [] (js "Patient has hypertension")
              (createTermMatcher mockIndex) (reach_new _)) as (out&m'&Hf&Hids).
  exists out, m'. split; [exact Hf|].
  intros x Hx. destruct (Hids x Hx) as (ids&_&_&Hne). exact Hne.
Defined.

Lemma getTermIdsAtPosition_spec_witness :
  (forall s, s <> [] -> ascii_toLowerCase s <> []) /\
  matcher_ok ascii_toLowerCase (createTermMatcher mockIndex) /\
  exists out m',
    findTerms ascii_toLowerCase [] (js "Patient has hypertension")
      (createTermMatcher mockIndex) = Some (out, m') /\
    ((exists x, x ∈ out /\ covers 14 x /\
        getTermIdsAtPosition ascii_toLowerCase [] (js "Patient has hypertension") 14
          (createTermMatcher mockIndex) = Some (Some (m_termIds x), m')) \/
     getTermIdsAtPosition ascii_toLowerCase [] (js "Patient has hypertension") 14
       (createTermMatcher mockIndex) = Some (None, m')).
Proof.
  split; [exact ascii_toLowerCase_nonempty|]. split; [apply reach_new|].
  destruct (getTermIdsAtPosition_spec ascii_toLowerCase []
              (js "Patient has hypertension") 14 (createTermMatcher mockIndex)
              ascii_toLowerCase_nonempty (reach_new _))
    as (out&m'&Hf&[(x&Hx&Hc&_&Hg)|[_ Hg]]).
  - exists out, m'. split; [exact Hf|]. left. exists x.
    split; [exact Hx|]. split; [exact Hc|exact Hg].
  - exists out, m'. split; [exact Hf|]. right. exact Hg.
Defined.

(** At index 14 of "Patient has hypertension" stands the term. *)
Example position_in_hypertension :
  fst <$> getTermIdsAtPosition ascii_toLowerCase [] (js "Patient has hypertension") 14
            (createTermMatcher mockIndex)
  = Some (Some [js "hypertension-001"]) /\
  fst <$> getTermIdsAtPosition ascii_toLowerCase [] (js "Patient has hypertension") 3
            (createTermMatcher mockIndex)
  = Some None.
Proof. by vm_compute. Qed.

Lemma findTerms_reuse_witness :
  exists out m',
    findTerms ascii_toLowerCase [] (js "Patient has hypertension")
      (createTermMatcher mockIndex) = Some (out, m') /\
    fst <$> findTerms ascii_toLowerCase [] (js "patient with CHF") m'
    = fst <$> findTerms ascii_toLowerCase [] (js "patient with CHF")
                (createTermMatcher mockIndex).
Proof.
  destruct (findTerms_structure ascii_toLowerCase [] (js "Patient has hypertension")
              (createTermMatcher mockIndex) (reach_new _)) as (m'&cands&Hf&_).
  eexists _, m'. split; [exact Hf|].
  exact (findTerms_reuse ascii_toLowerCase [] _ (js "patient with CHF") _ m' _ Hf).
Defined.

Lemma level_all_never_kept_witness :
  let idx := singleIndex (js "mi") [js "t1"] None
               (Some (fun _ => Some {| level := Some (js "all") |})) in
  let m := setUserLevel (VStr (js "all")) (createTermMatcher idx) in
  userLevel m = VStr (js "all") /\
  terms (index m) ≫= (fun get => get (js "t1")) = Some {| level := Some (js "all") |} /\
  keepTerm [] m (js "t1") = false.
Proof.
  intros idx m. split; [reflexivity|]. split; [reflexivity|].
  destruct (level_all_never_kept [] m (js "all") (js "t1")
              {| level := Some (js "all") |} [js "t1"] eq_refl eq_refl eq_refl)
    as [Hk _].
  exact Hk.
Defined.

(** Three identifiers under the caller level 'premed': 't1' is a 'premed'
    term, 't2' has no recorded level, 't3' has no metadata. *)
Lemma filterByLevel_tiers_witness :
  let get := fun id : jsstring =>
    if bool_decide (id = js "t1") then Some {| level := Some (js "premed") |}
    else if bool_decide (id = js "t2") then Some {| level := None |}
    else None in
  let idx := singleIndex (js "mi") [js "t1"; js "t2"; js "t3"] None (Some get) in
  let m := setUserLevel (VStr (js "premed")) (createTermMatcher idx) in
  let termIds := [js "t1"; js "t2"; js "t3"] in
  userLevel m = VStr (js "premed") /\
  (js "premed" ∉ Object_prototype_names) /\
  (forall termId meta,
     termId ∈ termIds ->
     terms (index m) ≫= (fun get => get termId) = Some meta ->
     spec_termLevel meta ∉ Object_prototype_names) /\
  (forall termId,
     termId ∈ _filterByLevel [] m termIds <->
     termId ∈ termIds /\
     spec_keeps [] (enableBetaFeatures m) (js "premed")
       (terms (index m) ≫= (fun get => get termId))) /\
  _filterByLevel [] m termIds = [js "t1"; js "t3"].
Proof.
  intros get idx m termIds.
  assert (Hp : js "premed" ∉ Object_prototype_names) by compute_done.
  assert (Hmeta : forall termId meta,
     termId ∈ termIds ->
     terms (index m) ≫= (fun get => get termId) = Some meta ->
     spec_termLevel meta ∉ Object_prototype_names).
  { intros termId meta Hin Hlook.
    repeat (apply elem_of_cons in Hin as [-> |Hin]);
      [| |discriminate Hlook|by apply elem_of_nil in Hin];
      injection Hlook as <-; compute_done. }
  split; [reflexivity|]. split; [exact Hp|]. split; [exact Hmeta|].
  split; [|reflexivity].
  exact (proj1 (filterByLevel_tiers [] m (js "premed") termIds eq_refl Hp Hmeta)).
Defined.

(** Scenario 1 of the specification, and the two hits it accepts. *)
Lemma overlap_resolution_witness :
  let text := js "Diagnosed with heart failure" in
  let m := createTermMatcher overlappingIndex in
  let heart := {| v_start := 15; v_end := 20; v_pattern := js "heart";
                  v_termIds := [js "heart"] |} in
  let heart_failure := {| v_start := 15; v_end := 28; v_pattern := js "heart failure";
                          v_termIds := [js "heart-failure"] |} in
  (forall s, s <> [] -> ascii_toLowerCase s <> []) /\
  matcher_ok ascii_toLowerCase m /\
  (forall v, v ∈ [heart; heart_failure] -> (0 <= v_start v < v_end v)%Z) /\
  _removeOverlaps [heart; heart_failure] = [heart_failure] /\
  (forall c, c ∈ _removeOverlaps [heart; heart_failure] <->
     c ∈ [heart; heart_failure] /\
     forall k, k ∈ _removeOverlaps [heart; heart_failure] -> spec_sortsBefore k c ->
               k = c \/ (v_end k <= v_start c)%Z) /\
  exists out m' cands,
    findTerms ascii_toLowerCase [] text m = Some (out, m') /\
    candidates ascii_toLowerCase [] text m = Some cands /\
    out = toOutput <$> _removeOverlaps cands /\
    StronglySorted precedes out /\
    (forall c, c ∈ cands ->
       toOutput c ∈ out \/
       exists x, x ∈ out /\ (m_start x <= v_start c < m_end x)%Z).
Proof.
  intros text m heart heart_failure.
  assert (Hl : forall v, v ∈ [heart; heart_failure] -> (0 <= v_start v < v_end v)%Z).
  { intros v Hv.
    repeat (apply elem_of_cons in Hv as [-> |Hv]); [simpl; lia..|].
    by apply elem_of_nil in Hv. }
  split; [exact ascii_toLowerCase_nonempty|].
  split; [apply reach_new|].
  split; [exact Hl|]. split; [reflexivity|].
  destruct (overlap_resolution ascii_toLowerCase [] text m
              ascii_toLowerCase_nonempty (reach_new _))
    as (_&Hscan&out&m'&cands&Hf&Hc&_&Ho&_&Hs&_&_&Hcov&_).
  split; [exact (proj2 (Hscan [heart; heart_failure] Hl))|].
  exists out, m', cands.
  split; [exact Hf|]. split; [exact Hc|]. split; [exact Ho|].
  split; [exact Hs|exact Hcov].
Defined.

Lemma fragment_text_witness :
  let chf := {| m_start := 13; m_end := 16; m_termIds := [js "heart-failure-001"] |} in
  StronglySorted precedes [chf] /\
  (forall x, x ∈ [chf] -> (0 <= m_start x <= m_end x)%Z) /\
  textContent (createHighlightedFragment (js "underline") (js "patient with CHF") [chf])
  = js "patient with CHF".
Proof.
  intros chf.
  assert (H1 : StronglySorted precedes [chf]) by (repeat constructor).
  assert (H2 : forall x, x ∈ [chf] -> (0 <= m_start x <= m_end x)%Z).
  { intros x ->%list_elem_of_singleton. simpl. lia. }
  split; [exact H1|]. split; [exact H2|].
  destruct (fragment_text (js "underline") (js "patient with CHF") [chf] H1 H2)
    as [Ht _].
  exact Ht.
Defined.

(** The fragment for "patient with CHF": a text node and the span. *)
Example fragment_of_chf :
  createHighlightedFragment (js "underline") (js "patient with CHF")
    [ {| m_start := 13; m_end := 16; m_termIds := [js "heart-failure-001"] |} ]
  = [ TextNode (js "patient with ");
      Element {| className := js "ems-term ems-term--underline";
                 dataset_termIds := js "heart-failure-001";
                 role := js "button"; tabindex := js "0";
                 aria_label := js "Medical term: CHF. Press Enter for definition.";
                 aria_haspopup := js "dialog";
                 span_textContent := js "CHF"; multi := false |} ].
Proof. by vm_compute. Qed.

Lemma highlight_findTerms_witness :
  (forall s, s <> [] -> ascii_toLowerCase s <> []) /\
  matcher_ok ascii_toLowerCase (createTermMatcher mockIndex) /\
  exists out m',
    findTerms ascii_toLowerCase [] (js "patient with CHF")
      (createTermMatcher mockIndex) = Some (out, m') /\
    textContent (createHighlightedFragment (js "underline") (js "patient with CHF") out)
    = js "patient with CHF".
Proof.
  split; [exact ascii_toLowerCase_nonempty|]. split; [apply reach_new|].
  destruct (highlight_findTerms ascii_toLowerCase [] (js "underline")
              (js "patient with CHF") (createTermMatcher mockIndex)
              ascii_toLowerCase_nonempty (reach_new _)) as (out&m'&Hf&Ht&_).
  exists out, m'. split; [exact Hf|exact Ht].
Defined.

End MoreInstances.

Module IndexInstances.
Import StringOps Glossary IndexProps MapFacts GlossaryFacts BuiltinFacts IndexTheorems.

(** What [extractPatternsFromTerm] gives for the first example: the name,
    the alias and the two abbreviations. *)
Example extract_chf :
  extractPatternsFromTerm ascii_toLowerCase trim term_chf
  = [ {| pattern := js "heart failure"; original := js "Heart Failure";
         isFromAbbr := false |};
      {| pattern := js "cardiac failure"; original := js "cardiac failure";
         isFromAbbr := false |};
      {| pattern := js "chf"; original := js "CHF"; isFromAbbr := true |};
      {| pattern := js "hf"; original := js "HF"; isFromAbbr := true |} ].
Proof. by vm_compute. Qed.

(** For the second example the excluded "as" is dropped from the patterns
    and from the abbreviations. *)
Example extract_as :
  extractPatternsFromTerm ascii_toLowerCase trim term_as
  = [ {| pattern := js "aortic  stenosis"; original := js "Aortic  Stenosis";
         isFromAbbr := false |} ].
Proof. by vm_compute. Qed.

Lemma extractPatterns_complete_witness :
  (TermData.names term_chf = Some [js "Heart Failure"] \/
   TermData.aliases term_chf = Some [js "Heart Failure"] \/
   ((TermData.patterns term_chf = Some [js "Heart Failure"] \/
     TermData.abbr term_chf = Some [js "Heart Failure"]) /\
    2 <= length (normalizePattern ascii_toLowerCase trim (js "Heart Failure")))) /\
  normalizePattern ascii_toLowerCase trim (js "Heart Failure")
    ∈ pattern <$> extractPatternsFromTerm ascii_toLowerCase trim term_chf.
Proof.
  assert (H1 : TermData.names term_chf = Some [js "Heart Failure"] \/
               TermData.aliases term_chf = Some [js "Heart Failure"] \/
               ((TermData.patterns term_chf = Some [js "Heart Failure"] \/
                 TermData.abbr term_chf = Some [js "Heart Failure"]) /\
                2 <= length (normalizePattern ascii_toLowerCase trim (js "Heart Failure"))))
    by (left; reflexivity).
  split; [exact H1|].
  apply (extractPatterns_complete ascii_toLowerCase trim term_chf
           [js "Heart Failure"] (js "Heart Failure") H1).
  - left.
  - discriminate.
  - reflexivity.
Defined.

Lemma termId_derived_witness :
  termIdOf ascii_toLowerCase term_as = Some (js "aortic-stenosis") /\
  forall c, c ∈ js "aortic-stenosis" -> isWhiteSpace c = false.
Proof.
  split; [reflexivity|].
  destruct (termId_derived ascii_toLowerCase term_as (js "aortic-stenosis") eq_refl)
    as [_ [Hid|(_&_&Hws)]].
  - discriminate Hid.
  - exact Hws.
Defined.

Lemma loadTerm_lookup_witness :
  (forall s, ascii_toLowerCase (trim (ascii_toLowerCase s)) = trim (ascii_toLowerCase s)) /\
  termIdOf ascii_toLowerCase term_chf = Some (js "heart-failure") /\
  exists g',
    loadTerm ascii_toLowerCase ascii_toUpperCase trim new_GlossaryIndex term_chf = Ok g' /\
    getTermContent g' (js "heart-failure") = Some term_chf.
Proof.
  split; [exact ascii_lower_trim_fixed|]. split; [reflexivity|].
  destruct (loadTerm_lookup ascii_toLowerCase ascii_toUpperCase trim new_GlossaryIndex
              term_chf (js "heart-failure") ascii_lower_trim_fixed eq_refl)
    as (g'&Hl&_&Hc&_).
  exists g'. split; [exact Hl|exact Hc].
Defined.

(** The index of the two examples: "chf" requires its uppercase form, the
    names require no casing, and the excluded "as" is not indexed. *)
Example loaded_examples :
  match loadAllTerms ascii_toLowerCase ascii_toUpperCase trim new_GlossaryIndex
          [term_chf; term_as] with
  | Ok g =>
      getAllPatterns g = [js "aortic  stenosis"; js "cardiac failure";
                          js "heart failure"; js "chf"; js "hf"] /\
      getTermIdsForPattern ascii_toLowerCase g (js "CHF") = [js "heart-failure"] /\
      getPatternMetadata ascii_toLowerCase g (js "chf")
        = Some (IndexLoader.caseSensitive (js "CHF")) /\
      getPatternMetadata ascii_toLowerCase g (js "heart failure")
        = Some IndexLoader.notCaseSensitive /\
      getTermIdsForPattern ascii_toLowerCase g (js "as") = [] /\
      Term.level <$> getTermMetadata g (js "heart-failure") = Some (js "medschool") /\
      Term.level <$> getTermMetadata g (js "aortic-stenosis") = Some (js "premed")
  | TypeError => False
  end.
Proof. by vm_compute. Qed.

Lemma loaded_patterns_normal_witness :
  (forall s, normalizePattern ascii_toLowerCase trim
               (normalizePattern ascii_toLowerCase trim s)
             = normalizePattern ascii_toLowerCase trim s) /\
  exists g,
    loadAllTerms ascii_toLowerCase ascii_toUpperCase trim new_GlossaryIndex [term_chf]
      = Ok g /\
    js "chf" ∈ getAllPatterns g /\
    (js "chf" ∉ EXCLUDED_PATTERNS).
Proof.
  split; [exact ascii_normalize_idem|].
  destruct (loadAllTerms_spec ascii_toLowerCase ascii_toUpperCase trim [term_chf])
    as (g&g0&Hl&_).
  exists g. split; [exact Hl|].
  assert (Hp : js "chf" ∈ getAllPatterns g).
  { assert (Hg : Ok g = loadAllTerms ascii_toLowerCase ascii_toUpperCase trim
                          new_GlossaryIndex [term_chf]) by (symmetry; exact Hl).
    vm_compute in Hg. injection Hg as ->. right. right. left. }
  split; [exact Hp|].
  destruct (loaded_patterns_normal ascii_toLowerCase ascii_toUpperCase trim
              [term_chf] g (js "chf") ascii_normalize_idem Hl Hp) as [_ Hex].
  exact Hex.
Defined.

Lemma searchTerms_exact_first_witness :
  trim (ascii_toLowerCase (js " CHF ")) <> [] /\
  exists g rest,
    loadAllTerms ascii_toLowerCase ascii_toUpperCase trim new_GlossaryIndex
      [term_chf; term_as] = Ok g /\
    searchTerms ascii_toLowerCase trim g (js " CHF ") None
    = Array_slice
        (omap (getTermMetadata g)
           (getTermIdsForPattern ascii_toLowerCase g
              (trim (ascii_toLowerCase (js " CHF ")))) ++ rest) 0 50.
Proof.
  assert (Hq : trim (ascii_toLowerCase (js " CHF ")) <> []) by discriminate.
  split; [exact Hq|].
  destruct (loadAllTerms_spec ascii_toLowerCase ascii_toUpperCase trim
              [term_chf; term_as]) as (g&g0&Hl&_).
  destruct (searchTerms_exact_first ascii_toLowerCase ascii_toUpperCase trim
              [term_chf; term_as] g (js " CHF ") None Hl Hq) as (rest&Hs&_).
  exists g, rest. split; [exact Hl|exact Hs].
Defined.

(** Searches in the index of the examples: "Failure" finds the term whose
    name holds it, a limit of 1 keeps the first result, and a blank query
    finds nothing. *)
Example search_failure :
  match loadAllTerms ascii_toLowerCase ascii_toUpperCase trim new_GlossaryIndex
          [term_chf; term_as] with
  | Ok g =>
      Term.id <$> searchTerms ascii_toLowerCase trim g (js "Failure") None
        = [js "heart-failure"] /\
      Term.id <$> searchTerms ascii_toLowerCase trim g (js "a") (Some 1%Z)
        = [js "aortic-stenosis"] /\
      searchTerms ascii_toLowerCase trim g (js "  ") None = []
  | TypeError => False
  end.
Proof. by vm_compute. Qed.

End IndexInstances.

Module LoadedInstances.
Import AC Inv TM Props MoreProps LoadedIndexTheorems.

Lemma loaded_index_levels_witness :
  exists g out m',
    Glossary.loadAllTerms ascii_toLowerCase ascii_toUpperCase StringOps.trim
      Glossary.new_GlossaryIndex [IndexProps.term_chf; IndexProps.term_as] = Ok g /\
    matcher_ok ascii_toLowerCase
      (createTermMatcher (Glossary.asTermIndex ascii_toLowerCase g)) /\
    findTerms ascii_toLowerCase [] (js "patient with CHF")
      (createTermMatcher (Glossary.asTermIndex ascii_toLowerCase g)) = Some (out, m') /\
    forall x id, x ∈ out -> id ∈ m_termIds x ->
      exists t, Glossary.getTermMetadata g id = Some t.
Proof.
  destruct (GlossaryFacts.loadAllTerms_spec ascii_toLowerCase ascii_toUpperCase
              StringOps.trim [IndexProps.term_chf; IndexProps.term_as])
    as (g&g0&Hl&_).
  destruct (loaded_index_levels ascii_toLowerCase ascii_toUpperCase StringOps.trim []
              [IndexProps.term_chf; IndexProps.term_as] g (js "patient with CHF")
              (createTermMatcher (Glossary.asTermIndex ascii_toLowerCase g))
              Hl eq_refl (reach_new _)) as (out&m'&Hf&Hall).
  exists g, out, m'. split; [exact Hl|]. split; [apply reach_new|].
  split; [exact Hf|].
  intros x id Hx Hid. destruct (Hall x id Hx Hid) as (t&Ht&_). exists t. exact Ht.
Defined.

(** Over the index of the examples, "CHF" is found in its uppercase form
    only. *)
Example loaded_matcher_chf :
  match Glossary.loadAllTerms ascii_toLowerCase ascii_toUpperCase StringOps.trim
          Glossary.new_GlossaryIndex [IndexProps.term_chf; IndexProps.term_as] with
  | Ok g =>
      fst <$> findTerms ascii_toLowerCase [] (js "patient with CHF")
                (createTermMatcher (Glossary.asTermIndex ascii_toLowerCase g))
        = Some [ {| m_start := 13; m_end := 16; m_termIds := [js "heart-failure"] |} ] /\
      fst <$> findTerms ascii_toLowerCase [] (js "patient with chf")
                (createTermMatcher (Glossary.asTermIndex ascii_toLowerCase g))
        = Some []
  | TypeError => False
  end.
Proof. by vm_compute. Qed.

End LoadedInstances.
